(** * dj-hue: the pattern engine, the scheduler and the clock consumer

    A shallow embedding of the Strudel-style pattern system of dj-hue
    ([patterns/strudel]), of the MIDI clock consumer and of the gamma
    conversion ([cli]), with the properties stated about them.

    Conventions of the embedding.
    - A Python [Fraction] is a [Qc] (a rational in lowest terms), so that
      equal fractions are equal terms.
    - A Python [float] is read as the rational it stands for and float
      arithmetic as exact arithmetic: rounding is not modelled.  The gamma
      conversion, which needs a real power, is stated over [R].
    - A Python [int] is a [Z]; [int(x)] truncates towards zero, [//] and [%]
      are floor division and its remainder.
    - A [dict] is a [gmap]; an exception is [None] in an [option].
    - CPython's [random.Random], [hash] and [math.sin] are not part of the
      repository: they are the fields of the class [PyRuntime].  So are the
      methods of [str] and the conversions [int] and [float] that the parser
      of the mini notation calls: they are the fields of the class
      [PyText]. *)

From Stdlib Require Import QArith Qcanon Qround ZArith Lia List Permutation.
From Stdlib Require Import Reals Psatz Sorted.
From stdpp Require Import gmap strings list fin_maps numbers.

Open Scope Z_scope.
Open Scope Qc_scope.

(* ===================================================================== *)
(** * Part I: definitions                                                  *)
(* ===================================================================== *)

(** ** Numbers as Python has them *)

(** The fraction [n/d]. *)
Definition frac (n : Z) (d : positive) : Qc := Q2Qc (n # d).

(** [Fraction(z)] for an [int] z. *)
Definition of_Z (z : Z) : Qc := Q2Qc (inject_Z z).

Definition Qc_ltb (x y : Qc) : bool :=
  (Qnum x * Z.pos (Qden y) <? Qnum y * Z.pos (Qden x))%Z.

Definition Qc_leb (x y : Qc) : bool :=
  (Qnum x * Z.pos (Qden y) <=? Qnum y * Z.pos (Qden x))%Z.

(** Python's [max(a, b)] returns [a] unless [b > a]; [min(a, b)] returns [a]
    unless [b < a]. *)
Definition py_max (a b : Qc) : Qc := if Qc_ltb a b then b else a.
Definition py_min (a b : Qc) : Qc := if Qc_ltb b a then b else a.

(** [int(x)]: truncation towards zero. *)
Definition py_int (x : Qc) : Z := Z.quot (Qnum x) (Z.pos (Qden x)).

(** [math.floor(x)], which is also the quotient of [x // 1]. *)
Definition py_floor (x : Qc) : Z := Qfloor x.

(** [x % 1.0]: the result has the sign of the divisor. *)
Definition py_mod1 (x : Qc) : Qc := x - of_Z (py_floor x).

(** [abs(x)]. *)
Definition py_abs (x : Qc) : Qc := if Qc_ltb x 0 then - x else x.

(** [a / b], raising [ZeroDivisionError] when [b] is zero. *)
Definition py_div (a b : Qc) : option Qc :=
  if bool_decide (b = 0) then None else Some (a / b).

(** ** core/types.py: HSV *)

Record HSV := mkHSV { hue : Qc; saturation : Qc; value : Qc }.

Global Instance HSV_eq_dec : EqDecision HSV.
Proof. solve_decision. Defined.

(** [HSV(hue, saturation, value)]: a NamedTuple, the fields are stored as
    they are given. *)
Definition HSV_new (h s v : Qc) : HSV := mkHSV h s v.

Definition HSV_with_hue (c : HSV) (h : Qc) : HSV :=
  HSV_new (py_mod1 h) (saturation c) (value c).

Definition HSV_with_saturation (c : HSV) (sat : Qc) : HSV :=
  HSV_new (hue c) (py_max 0 (py_min 1 sat)) (value c).

Definition HSV_with_value (c : HSV) (val : Qc) : HSV :=
  HSV_new (hue c) (saturation c) (py_max 0 (py_min 1 val)).

(** All three components lie in the unit interval. *)
Definition HSV_in_unit (c : HSV) : Prop :=
  (0 <= hue c /\ hue c <= 1) /\
  (0 <= saturation c /\ saturation c <= 1) /\
  (0 <= value c /\ value c <= 1).

(** ** color.py *)

Definition hue_rotate (color : HSV) (amount : Qc) : HSV :=
  let new_hue := py_mod1 (hue color + amount) in
  HSV_new new_hue (saturation color) (value color).

Definition dim (color : HSV) (factor : Qc) : HSV :=
  HSV_new (hue color) (saturation color) (value color * factor).

Definition saturate (color : HSV) (factor : Qc) : HSV :=
  let new_sat := py_max 0 (py_min 1 (saturation color * factor)) in
  HSV_new (hue color) new_sat (value color).

(** [NAMED_COLORS["red"]], also the scheduler's default colour. *)
Definition named_red : HSV := HSV_new 0 1 1.

(** ** core/envelope.py: interpolate_hsv *)

Definition interpolate_hsv (c1 c2 : HSV) (t : Qc) : HSV :=
  let t := py_max 0 (py_min 1 t) in
  let '(h1, h2) :=
    if Qc_ltb (frac 1 2) (py_abs (hue c2 - hue c1)) then
      if Qc_ltb (hue c1) (hue c2) then (hue c1 + 1, hue c2)
      else (hue c1, hue c2 + 1)
    else (hue c1, hue c2) in
  let hue' := py_mod1 (h1 + (h2 - h1) * t) in
  let sat := saturation c1 + (saturation c2 - saturation c1) * t in
  let val := value c1 + (value c2 - value c1) * t in
  HSV_new hue' sat val.

(** ** core/types.py: TimeSpan *)

Record TimeSpan := mkTimeSpan { start : Qc; end_ : Qc }.

Global Instance TimeSpan_eq_dec : EqDecision TimeSpan.
Proof. solve_decision. Defined.

Definition TimeSpan_duration (s : TimeSpan) : Qc := end_ s - start s.

Definition TimeSpan_intersection (s other : TimeSpan) : option TimeSpan :=
  let new_start := py_max (start s) (start other) in
  let new_end := py_min (end_ s) (end_ other) in
  if Qc_ltb new_start new_end then Some (mkTimeSpan new_start new_end)
  else None.

Definition TimeSpan_contains (s : TimeSpan) (time : Qc) : bool :=
  Qc_leb (start s) time && Qc_ltb time (end_ s).

Definition TimeSpan_shift (s : TimeSpan) (offset : Qc) : TimeSpan :=
  mkTimeSpan (start s + offset) (end_ s + offset).

Definition TimeSpan_scale (s : TimeSpan) (factor : Qc) : TimeSpan :=
  mkTimeSpan (start s * factor) (end_ s * factor).

(** ** palette.py: PaletteRef (the record; [resolve] comes with the palette) *)

Inductive PaletteSelectionMode :=
  INDEX | RANDOM | CYCLE | RANDOM_HOLD | RANDOM_BLEND | CYCLE_HOLD.

Global Instance PaletteSelectionMode_eq_dec : EqDecision PaletteSelectionMode.
Proof. solve_decision. Defined.

Record PaletteRef := mkPaletteRef {
  mode : PaletteSelectionMode;
  index : Z;
  hold_beats : Qc;
  blend_beats : Qc
}.

Global Instance PaletteRef_eq_dec : EqDecision PaletteRef.
Proof. solve_decision. Defined.

(** ** core/envelope.py: Envelope *)

Record Envelope := mkEnvelope {
  attack : Qc;
  decay : Qc;
  sustain : Qc;
  release : Qc;
  flash_color : option HSV;
  fade_color : option HSV;
  flash_ref : option PaletteRef;
  fade_ref : option PaletteRef
}.

Global Instance Envelope_eq_dec : EqDecision Envelope.
Proof. solve_decision. Defined.

(** [Envelope()] with the dataclass defaults, then the four ADSR fields. *)
Definition Envelope_new (a d s r : Qc) : Envelope :=
  mkEnvelope a d s r None None None None.

Definition Envelope_total_duration (e : Envelope) : Qc := attack e + decay e.

Definition Envelope_get_intensity (e : Envelope) (time_in_event : Qc) : Qc :=
  if Qc_ltb time_in_event 0 then 0
  else if Qc_ltb time_in_event (attack e) then
    if Qc_leb (attack e) 0 then 1
    else
      let t := time_in_event / attack e in
      if Qc_ltb (frac 1 20) (attack e) then py_max (frac 1 10) t else 1
  else
    let time_after_attack := time_in_event - attack e in
    if Qc_ltb time_after_attack (decay e) then
      if Qc_leb (decay e) 0 then sustain e
      else
        let t := time_after_attack / decay e in
        1 - t * (1 - sustain e)
    else sustain e.

Definition Envelope_get_release_intensity (e : Envelope)
    (time_since_release : Qc) : Qc :=
  if Qc_leb (release e) 0 then 0
  else if Qc_leb (release e) time_since_release then 0
  else
    let t := time_since_release / release e in
    sustain e * (1 - t).

(** The flash-then-fade envelope of the documentation, with a release. *)
Definition flash_fade : Envelope :=
  Envelope_new (frac 1 10) 1 (frac 1 2) (frac 1 2).

(** The same with the short attack of 0.05 cycle. *)
Definition punch_fade : Envelope :=
  Envelope_new (frac 1 20) 1 (frac 1 2) (frac 1 2).


(** ** cli/midi_pattern_mode.py: the clock consumer

    The body of the MIDI message loop of [run_pattern_mode], as a step
    function on the loop's local variables and on the fields of the shared
    [engine_state] that it writes.  [now] is the value of [time.time()] when
    the message is handled.  Drawing the terminal interface is left out; the
    index handed to [pattern_engine.set_pattern_by_index] is recorded in
    [pattern_request]. *)

Definition TICKS_PER_BEAT : Z := 24.

Inductive MidiMessage :=
  | MsgClock
  | MsgStart
  | MsgStop
  | MsgContinue
  | MsgSongpos (pos : Z)
  | MsgOther.

Record ClockConsumer := mkClockConsumer {
  tick_count : Z;
  beat_count : Z;
  last_beat_time : Qc;
  current_bpm : Qc;
  pending_reset : bool;
  ui_bar : Z;
  ui_beat : Z;
  (* engine_state *)
  es_beat_position : Qc;
  es_bpm : Qc;
  es_beat_count : Z;
  es_queued_pattern_index : option Z;
  es_queue_target_bar : option Z;
  (* pattern_engine *)
  pattern_request : option Z
}.

Global Instance ClockConsumer_eq_dec : EqDecision ClockConsumer.
Proof. solve_decision. Defined.

(** [(beat_count - 1) + tick_count / TICKS_PER_BEAT] *)
Definition beat_position_of (beats ticks : Z) : Qc :=
  of_Z (beats - 1) + of_Z ticks / of_Z TICKS_PER_BEAT.

Definition handle_clock (now : Qc) (s : ClockConsumer) : ClockConsumer :=
  let tick := (tick_count s + 1)%Z in
  if (TICKS_PER_BEAT <=? tick)%Z then
    let beat := (beat_count s + 1)%Z in
    if pending_reset s then
      (* quantized reset, then [continue]: nothing else is published *)
      mkClockConsumer 0 1 now (current_bpm s) false 1 1
        0 (es_bpm s) 1
        (es_queued_pattern_index s) (es_queue_target_bar s)
        (pattern_request s)
    else
      let beat_duration := now - last_beat_time s in
      let bpm :=
        if Qc_ltb 0 beat_duration && Qc_ltb 0 (last_beat_time s)
        then of_Z 60 / beat_duration else current_bpm s in
      let beat_in_bar := ((beat - 1) mod 4 + 1)%Z in
      let bar := ((beat - 1) / 4 + 1)%Z in
      let fire :=
        if (beat_in_bar =? 1)%Z then
          match es_queued_pattern_index s, es_queue_target_bar s with
          | Some queued_idx, Some target_bar =>
              if (target_bar <=? bar)%Z then Some queued_idx else None
          | _, _ => None
          end
        else None in
      mkClockConsumer 0 beat now bpm false bar beat_in_bar
        (beat_position_of beat 0) bpm beat
        (match fire with Some _ => None | None => es_queued_pattern_index s end)
        (match fire with Some _ => None | None => es_queue_target_bar s end)
        (match fire with Some i => Some i | None => pattern_request s end)
  else
    mkClockConsumer tick (beat_count s) (last_beat_time s) (current_bpm s)
      (pending_reset s) (ui_bar s) (ui_beat s)
      (beat_position_of (beat_count s) tick) (current_bpm s) (beat_count s)
      (es_queued_pattern_index s) (es_queue_target_bar s) (pattern_request s).

(** The branch shared, statement for statement, by "start" and "continue". *)
Definition reset_to_beat_one (now : Qc) (s : ClockConsumer) : ClockConsumer :=
  mkClockConsumer 0 1 now (current_bpm s) (pending_reset s) 1 1
    0 (es_bpm s) 1
    (es_queued_pattern_index s) (es_queue_target_bar s) (pattern_request s).

Definition handle_songpos (position : Z) (s : ClockConsumer) : ClockConsumer :=
  let beat := (position / 4 + 1)%Z in
  let tick := ((position mod 4) * (TICKS_PER_BEAT / 4))%Z in
  let beat_in_bar := ((beat - 1) mod 4 + 1)%Z in
  let bar := ((beat - 1) / 4 + 1)%Z in
  mkClockConsumer tick beat (last_beat_time s) (current_bpm s)
    (pending_reset s) bar beat_in_bar
    (beat_position_of beat tick) (es_bpm s) beat
    (es_queued_pattern_index s) (es_queue_target_bar s) (pattern_request s).

Definition handle_message (now : Qc) (msg : MidiMessage) (s : ClockConsumer)
    : ClockConsumer :=
  match msg with
  | MsgClock => handle_clock now s
  | MsgStart => reset_to_beat_one now s
  | MsgStop => s
  | MsgContinue => reset_to_beat_one now s
  | MsgSongpos position => handle_songpos position s
  | MsgOther => s
  end.

(** The consumer in the middle of beat 5 (bar 2), at 120 BPM. *)
Definition mid_bar_two : ClockConsumer :=
  mkClockConsumer 12 5 (of_Z 1000) (of_Z 120) false 2 1 (frac 9 2) (of_Z 120) 5
    None None None.

(** ** cli/midi_pattern_mode.py and cli/midi_hue.py: rgb_to_rgb16

    The two modules define the same function.  Channels are reals here: the
    power [x ** gamma] has no rational model. *)

Section Gamma.
Local Open Scope R_scope.

(** [max(0.0, min(1.0, v))] *)
Definition clamp01 (v : R) : R := Rmax 0 (Rmin 1 v).

(** [x ** y] for a base [x >= 0]: zero stays zero for a positive exponent. *)
Definition py_pow (x y : R) : R :=
  if Req_dec_T x 0 then 0 else Rpower x y.

(** [int(r)] on a real: truncation towards zero. *)
Definition py_int_R (r : R) : Z :=
  if Rle_dec 0 r then Int_part r else (- Int_part (- r))%Z.

(** One channel of [rgb_to_rgb16]. *)
Definition channel16 (v gamma : R) : Z :=
  py_int_R (py_pow (clamp01 v) gamma * 65535).

Definition rgb_to_rgb16 (r g b gamma : R) : Z * Z * Z :=
  (channel16 r gamma, channel16 g gamma, channel16 b gamma).

(** The default [gamma: float = 2.2]. *)
Definition gamma_default : R := 22 / 10.

(** [n] is an integer nearest to [x], whatever the rule for ties. *)
Definition nearest_integer (n : Z) (x : R) : Prop := Rabs (x - IZR n) <= 1 / 2.

End Gamma.

(** ** The Python runtime

    What the program takes from CPython and the repository does not define:
    the generator [random.Random(seed)] with its primitive [_randbelow],
    [Random.sample], [hash] on fractions and [math.sin].  The library
    functions written in Python ([random.shuffle], [Fraction.limit_denominator],
    [colorsys.hsv_to_rgb]) are embedded from their source.  The definitions
    below are stated for any such runtime. *)

Class PyRuntime := {
  (** the state of a generator *)
  rng : Type;
  (** [random.Random(seed)] *)
  Random : Z -> rng;
  (** [rng._randbelow(n)]: the number drawn and the generator afterwards *)
  randbelow : rng -> nat -> nat * rng;
  randbelow_lt : forall g n, (0 < n)%nat -> (fst (randbelow g n) < n)%nat;
  (** [rng.sample(population, k)] for [0 <= k <= len(population)] *)
  rng_sample : rng -> list Z -> nat -> list Z;
  (** [hash(x)] of a fraction *)
  py_hash : Qc -> Z;
  (** [math.sin(t * 2 * math.pi)], the sine of [t] turns *)
  py_sin_turns : Qc -> Qc
}.

(** [x[i], x[j] = x[j], x[i]] *)
Definition list_swap {A} (x : list A) (i j : nat) : list A :=
  match x !! i, x !! j with
  | Some a, Some b => <[j := a]> (<[i := b]> x)
  | _, _ => x
  end.

Section RandomMethods.
Context `{PyRuntime}.

(** [random.shuffle]: for [i] from [len(x) - 1] down to 1, swap [x[i]] with
    [x[randbelow(i + 1)]]. *)
Fixpoint shuffle_loop {A} (g : rng) (i : nat) (x : list A) : list A :=
  match i with
  | O => x
  | S i' =>
      let '(j, g') := randbelow g (S i) in
      shuffle_loop g' i' (list_swap x i j)
  end.

Definition rng_shuffle {A} (g : rng) (x : list A) : list A :=
  shuffle_loop g (length x - 1) x.

(** [rng.choice(seq)] for a sequence with first element [d]. *)
Definition rng_choice {A} (g : rng) (d : A) (more : list A) : A :=
  nth (fst (randbelow g (S (length more)))) (d :: more) d.

(** [rng.randint(a, b)], a [ValueError] when the range is empty. *)
Definition rng_randint (g : rng) (a b : Z) : option (Z * rng) :=
  if (b <? a)%Z then None
  else
    let '(k, g') := randbelow g (Z.to_nat (b - a + 1)) in
    Some ((a + Z.of_nat k)%Z, g').

End RandomMethods.

(** ** palette.py: Palette and PaletteRef.resolve *)

(** A palette holds at least one colour: the constructor raises on an empty
    tuple. *)
Record Palette := mkPalette {
  palette_name : string;
  first_color : HSV;
  more_colors : list HSV
}.

Global Instance Palette_eq_dec : EqDecision Palette.
Proof. solve_decision. Defined.

Definition colors (p : Palette) : list HSV := first_color p :: more_colors p.

(** [Palette(name, colors)] with its [__post_init__] check. *)
Definition Palette_new (name : string) (cs : list HSV) : option Palette :=
  match cs with
  | [] => None
  | c :: cs' => Some (mkPalette name c cs')
  end.

(** [len(palette)] *)
Definition Palette_len (p : Palette) : Z := Z.of_nat (length (colors p)).

(** [palette[index]]: the index wraps. *)
Definition Palette_getitem (p : Palette) (idx : Z) : HSV :=
  nth (Z.to_nat (idx mod Palette_len p)) (colors p) (first_color p).

(** [x % y] on floats, for [y] not zero: the result has the sign of [y]. *)
Definition py_fmod (x y : Qc) : Qc := x - y * of_Z (py_floor (x / y)).

Section Resolve.
Context `{PyRuntime}.

(** The indices [0 .. n-1], shuffled by the generator of fixed seed 42. *)
Definition shuffled_indices (n : nat) : list nat :=
  rng_shuffle (Random 42) (seq 0 n).

(** [PaletteRef.resolve(palette, event_index, cycle_position)], as the
    scheduler calls it: [cycle_position] is always given and [seed] never.
    [None] is the [ZeroDivisionError] of a zero [hold_beats]. *)
Definition PaletteRef_resolve (self : PaletteRef) (palette : Palette)
    (event_index : Z) (cycle_position : Qc) : option HSV :=
  match mode self with
  | INDEX => Some (Palette_getitem palette (index self))
  | RANDOM =>
      let g := Random (py_int (cycle_position * of_Z 10000) + event_index) in
      Some (rng_choice g (first_color palette) (more_colors palette))
  | CYCLE => Some (Palette_getitem palette event_index)
  | RANDOM_HOLD =>
      let pos_beats := cycle_position * of_Z 4 in
      q ← py_div pos_beats (hold_beats self);
      let quantized := py_int q in
      let indices := shuffled_indices (length (colors palette)) in
      let shuffled_index :=
        nth (Z.to_nat (quantized mod Z.of_nat (length indices))) indices O in
      Some (Palette_getitem palette (Z.of_nat shuffled_index))
  | CYCLE_HOLD =>
      let pos_beats := cycle_position * of_Z 4 in
      q ← py_div pos_beats (hold_beats self);
      let quantized := py_int q in
      Some (Palette_getitem palette quantized)
  | RANDOM_BLEND =>
      let pos_beats := cycle_position * of_Z 4 in
      let period := hold_beats self in
      let fade := blend_beats self in
      q ← py_div pos_beats period;
      let period_index := py_int q in
      let pos_in_period := py_fmod pos_beats period in
      let indices := shuffled_indices (length (colors palette)) in
      let n := Z.of_nat (length indices) in
      let from_idx := nth (Z.to_nat (period_index mod n)) indices O in
      let to_idx := nth (Z.to_nat ((period_index + 1) mod n)) indices O in
      let hold_duration := period - fade in
      if Qc_ltb pos_in_period hold_duration || Qc_leb fade 0 then
        Some (Palette_getitem palette (Z.of_nat from_idx))
      else
        let fade_progress := (pos_in_period - hold_duration) / fade in
        let from_color := Palette_getitem palette (Z.of_nat from_idx) in
        let to_color := Palette_getitem palette (Z.of_nat to_idx) in
        Some (interpolate_hsv from_color to_color fade_progress)
  end.

End Resolve.

(** [palette.random_hold(beats)] *)
Definition random_hold (beats : Qc) : PaletteRef :=
  mkPaletteRef RANDOM_HOLD 0 beats 0.


(** ** A runtime to evaluate with

    A linear congruential generator stands in for CPython's Mersenne twister
    where a definition is evaluated on a concrete input; no statement depends
    on the numbers it draws. *)

Definition lcg_next (g : Z) : Z := (g * 1103515245 + 12345) mod 2147483648.

Definition lcg_randbelow (g : Z) (n : nat) : nat * Z :=
  (Z.to_nat (lcg_next g / 65536) mod n, lcg_next g)%nat.

Fixpoint lcg_sample_loop (g : Z) (pool : list Z) (k : nat) : list Z :=
  match k with
  | O => []
  | S k' =>
      let '(j, g') := lcg_randbelow g (length pool) in
      match pool !! j with
      | Some x => x :: lcg_sample_loop g' (delete j pool) k'
      | None => []
      end
  end.

Global Instance lcg_runtime : PyRuntime.
Proof.
  refine {| rng := Z;
            Random := fun seed => seed;
            randbelow := lcg_randbelow;
            rng_sample := lcg_sample_loop;
            py_hash := fun x => (Qnum x + Z.pos (Qden x))%Z;
            py_sin_turns := fun _ => 0 |}.
  intros g n Hn. cbn. apply Nat.mod_upper_bound. lia.
Defined.



(** A palette of three colours. *)
Definition three_colors : Palette :=
  mkPalette "three" named_red [HSV_new (frac 1 3) 1 1; HSV_new (frac 2 3) 1 1].

(** ** fractions.Fraction.limit_denominator

    The continued-fraction loop of CPython, each turn of which replaces
    [(n, d)] by [(d, n mod d)].  The fuel, twice the bit length of the
    denominator and two, bounds the turns; the properties below use the
    function where the denominator is small, which takes no turn, and on
    given fractions, where it is evaluated. *)

Fixpoint limit_denominator_loop (fuel : nat) (max_denominator : Z)
    (p0 q0 p1 q1 n d : Z) : Z * Z * Z * Z * Z :=
  match fuel with
  | O => (p0, q0, p1, q1, d)
  | S fuel' =>
      let a := (n / d)%Z in
      let q2 := (q0 + a * q1)%Z in
      if (max_denominator <? q2)%Z then (p0, q0, p1, q1, d)
      else
        limit_denominator_loop fuel' max_denominator
          p1 q1 (p0 + a * p1)%Z q2 d (n - a * d)%Z
  end.

Definition limit_denominator (x : Qc) (max_denominator : Z) : Qc :=
  let n := Qnum x in
  let den := Z.pos (Qden x) in
  if (den <=? max_denominator)%Z then x
  else
    let fuel := (2 * Pos.size_nat (Qden x) + 2)%nat in
    let '(p0, q0, p1, q1, d) :=
      limit_denominator_loop fuel max_denominator 0 1 1 0 n den in
    let k := ((max_denominator - q0) / q1)%Z in
    if (2 * d * (q0 + k * q1) <=? den)%Z then of_Z p1 / of_Z q1
    else of_Z (p0 + k * p1) / of_Z (q0 + k * q1).

(** [round(x)] to an integer: ties go to the even neighbour. *)
Definition py_round (x : Qc) : Z :=
  let f := py_floor x in
  let r := x - of_Z f in
  if Qc_ltb r (frac 1 2) then f
  else if Qc_ltb (frac 1 2) r then (f + 1)%Z
  else if Z.even f then f else (f + 1)%Z.

(** [list(range(a, b))] *)
Definition py_range (a b : Z) : list Z :=
  map (fun i => (a + Z.of_nat i)%Z) (seq 0 (Z.to_nat (b - a))).

(** ** modulator.py *)

Inductive WaveType := SINE | TRIANGLE | SAW | SQUARE.

Global Instance WaveType_eq_dec : EqDecision WaveType.
Proof. solve_decision. Defined.

(** [_chain] is [None] or a list; the code treats [None] as the empty list. *)
#[warnings="-register-all"]
Inductive Modulator := mkModulator {
  wave : WaveType;
  frequency : Qc;
  min_intensity : Qc;
  max_intensity : Qc;
  phase : Qc;
  reference_time : Qc;
  chain : list Modulator
}.

Global Instance Modulator_eq_dec : EqDecision Modulator.
Proof.
  unfold EqDecision. fix go 1. intros a b.
  destruct a as [w1 f1 mn1 mx1 p1 r1 c1], b as [w2 f2 mn2 mx2 p2 r2 c2].
  destruct (decide (w1 = w2)); [| right; congruence].
  destruct (decide (f1 = f2)); [| right; congruence].
  destruct (decide (mn1 = mn2)); [| right; congruence].
  destruct (decide (mx1 = mx2)); [| right; congruence].
  destruct (decide (p1 = p2)); [| right; congruence].
  destruct (decide (r1 = r2)); [| right; congruence].
  assert (Decision (c1 = c2)) as [|].
  { clear -go. revert c2. induction c1 as [| x c1 IH]; intros [| y c2].
    - left; reflexivity.
    - right; discriminate.
    - right; discriminate.
    - destruct (go x y); [| right; congruence].
      destruct (IH c2); [left; congruence | right; congruence]. }
  - left; congruence.
  - right; congruence.
Defined.

Section ModulatorMethods.
Context `{PyRuntime}.

Fixpoint Modulator_get_intensity (self : Modulator) (cycle_position : Qc)
    : Qc :=
  let relative_position := cycle_position - reference_time self in
  let t := py_mod1 (relative_position * frequency self + phase self) in
  let wave_value :=
    match wave self with
    | SINE => (py_sin_turns t + 1) / 2
    | TRIANGLE => if Qc_ltb t (frac 1 2) then t * 2 else 2 - t * 2
    | SAW => t
    | SQUARE => if Qc_ltb t (frac 1 2) then 1 else 0
    end in
  let intensity :=
    min_intensity self + wave_value * (max_intensity self - min_intensity self) in
  fold_left
    (fun acc chained_mod =>
       acc * Modulator_get_intensity chained_mod cycle_position)
    (chain self) intensity.

End ModulatorMethods.

Definition Modulator_chain (self other : Modulator) : Modulator :=
  let existing_chain :=
    match chain other with
    | [] => chain self ++ [other]
    | _ :: _ =>
        let other_base :=
          mkModulator (wave other) (frequency other) (min_intensity other)
            (max_intensity other) (phase other) 0 [] in
        chain self ++ chain other ++ [other_base]
    end in
  mkModulator (wave self) (frequency self) (min_intensity self)
    (max_intensity self) (phase self) (reference_time self) existing_chain.

(** ** core/types.py: LightValue, LightHap, LightContext *)

Record LightValue := mkLightValue {
  light_id : option Z;
  group : option string;
  color : option HSV;
  color_ref : option PaletteRef;
  intensity : Qc;
  envelope : option Envelope;
  modulator : option Modulator
}.

Global Instance LightValue_eq_dec : EqDecision LightValue.
Proof. solve_decision. Defined.

(** [LightValue(light_id=..., group=...)] with the dataclass defaults. *)
Definition LightValue_new (lid : option Z) (g : option string) : LightValue :=
  mkLightValue lid g None None 1 None None.

Definition LightValue_with_color (v : LightValue) (c : HSV) : LightValue :=
  mkLightValue (light_id v) (group v) (Some c) None (intensity v)
    (envelope v) (modulator v).

Definition LightValue_with_color_ref (v : LightValue) (ref : PaletteRef)
    : LightValue :=
  mkLightValue (light_id v) (group v) None (Some ref) (intensity v)
    (envelope v) (modulator v).


Definition LightValue_with_envelope (v : LightValue) (e : Envelope)
    : LightValue :=
  mkLightValue (light_id v) (group v) (color v) (color_ref v) (intensity v)
    (Some e) (modulator v).

Definition LightValue_with_modulator (v : LightValue) (m : Modulator)
    : LightValue :=
  mkLightValue (light_id v) (group v) (color v) (color_ref v) (intensity v)
    (envelope v) (Some m).

Record LightHap := mkLightHap {
  whole : option TimeSpan;
  part : TimeSpan;
  hap_value : LightValue
}.

Global Instance LightHap_eq_dec : EqDecision LightHap.
Proof. solve_decision. Defined.

Definition LightHap_whole_or_part (h : LightHap) : TimeSpan :=
  match whole h with Some w => w | None => part h end.

Definition LightHap_with_value (h : LightHap) (v : LightValue) : LightHap :=
  mkLightHap (whole h) (part h) v.

Definition LightHap_with_part (h : LightHap) (p : TimeSpan) : LightHap :=
  mkLightHap (whole h) p (hap_value h).

Definition LightHap_shift (h : LightHap) (offset : Qc) : LightHap :=
  mkLightHap (option_map (fun w => TimeSpan_shift w offset) (whole h))
    (TimeSpan_shift (part h) offset) (hap_value h).

(** [hap.scale(factor)]: the times are multiplied by [Fraction(1) / factor],
    a [ZeroDivisionError] for the factor zero. *)
Definition LightHap_scale (h : LightHap) (factor : Qc) : option LightHap :=
  inv ← py_div 1 factor;
  Some (mkLightHap (option_map (fun w => TimeSpan_scale w inv) (whole h))
          (TimeSpan_scale (part h) inv) (hap_value h)).

Record LightContext := mkLightContext {
  num_lights : Z;
  groups : gmap string (list Z);
  cycle_beats : Qc;
  zones : gmap string (list Z);
  available_zones : list string
}.

(** [LightContext(num_lights, groups)]: [__post_init__] adds the group "all"
    when it is missing. *)
Definition LightContext_new (n : Z) (gs : gmap string (list Z)) : LightContext :=
  let gs' :=
    match gs !! "all" with
    | Some _ => gs
    | None => <["all" := py_range 0 n]> gs
    end in
  mkLightContext n gs' (of_Z 4) ∅ [].

Definition LightContext_resolve_group (ctx : LightContext) (name : string)
    : list Z :=
  default [] (groups ctx !! name).

(** [LightContext.default(num_lights)] *)
Definition LightContext_default (n : Z) : LightContext :=
  let half := (n / 2)%Z in
  LightContext_new n
    (<["all" := py_range 0 n]>
     (<["left" := py_range 0 half]>
      (<["right" := py_range half n]>
       (<["odd" := filter (fun i => Z.odd i = true) (py_range 0 n)]>
        (<["even" := filter (fun i => Z.even i = true) (py_range 0 n)]> ∅))))).

(** ** core/pattern.py: LightPattern

    A pattern is its query function; [None] is an exception raised by the
    query. *)

Definition LightPattern := TimeSpan -> LightContext -> option (list LightHap).

(** [pattern.query_cycle(cycle, context)] *)
Definition query_cycle (p : LightPattern) (cycle : Z) (ctx : LightContext)
    : option (list LightHap) :=
  p (mkTimeSpan (of_Z cycle) (of_Z (cycle + 1))) ctx.

(** *** fast, slow, early, late *)

Definition fast (factor : Qc) (self : LightPattern) : LightPattern :=
  let factor_frac := limit_denominator factor 1000 in
  fun span ctx =>
    let expanded :=
      mkTimeSpan (start span * factor_frac) (end_ span * factor_frac) in
    haps ← self expanded ctx;
    mapM (fun h => LightHap_scale h factor_frac) haps.

(** [slow(factor)] is [fast(1 / factor)]; building it divides by the
    factor. *)
Definition slow (factor : Qc) (self : LightPattern) : option LightPattern :=
  inv ← py_div 1 factor;
  Some (fast inv self).

Definition early (offset : Qc) (self : LightPattern) : LightPattern :=
  let offset_frac := limit_denominator offset 1000 in
  fun span ctx =>
    let shifted_span := TimeSpan_shift span offset_frac in
    haps ← self shifted_span ctx;
    Some (map (fun h => LightHap_shift h (- offset_frac)) haps).

Definition late (offset : Qc) (self : LightPattern) : LightPattern :=
  early (- offset) self.

(** ** dsl/constructors.py: light, stack

    [light] is given the event data that the parser makes of the notation:
    [(start, end, light_id, group)] for each slot that is not a rest. *)

Definition EventData : Type := Qc * Qc * option Z * option string.

Definition light (event_data : list EventData) : LightPattern :=
  fun span ctx =>
    let cycle_start := py_int (start span) in
    let cycle_end := (py_int (end_ span) + 1)%Z in
    Some
      (flat_map
         (fun cycle =>
            let cycle_offset := of_Z cycle in
            flat_map
              (fun '(s, e, lid, g) =>
                 let whole := mkTimeSpan (s + cycle_offset) (e + cycle_offset) in
                 match TimeSpan_intersection whole span with
                 | Some intersection =>
                     [mkLightHap (Some whole) intersection (LightValue_new lid g)]
                 | None => []
                 end)
              event_data)
         (py_range cycle_start cycle_end)).


(** The event data of the notations ["0"], ["0 1"] and ["all"]. *)
Definition notation_0 : list EventData := [(0, 1, Some 0%Z, None)].
Definition notation_0_1 : list EventData :=
  [(0, frac 1 2, Some 0%Z, None); (frac 1 2, 1, Some 1%Z, None)].
Definition notation_all : list EventData := [(0, 1, None, Some "all")].

(** The event [h] with its times divided by [k]. *)
Definition LightHap_compress (k : Qc) (h : LightHap) : LightHap :=
  mkLightHap (option_map (fun w => TimeSpan_scale w (1 / k)) (whole h))
    (TimeSpan_scale (part h) (1 / k)) (hap_value h).

(** ** core/envelope.py: the colour slots of an envelope *)

Definition Envelope_with_colors (e : Envelope) (flash fade : option HSV)
    : Envelope :=
  mkEnvelope (attack e) (decay e) (sustain e) (release e)
    (match flash with Some c => Some c | None => flash_color e end)
    (match fade with Some c => Some c | None => fade_color e end)
    (match flash with Some _ => None | None => flash_ref e end)
    (match fade with Some _ => None | None => fade_ref e end).

Definition Envelope_with_flash_ref (e : Envelope) (ref : PaletteRef)
    : Envelope :=
  mkEnvelope (attack e) (decay e) (sustain e) (release e)
    None (fade_color e) (Some ref) (fade_ref e).

Definition Envelope_with_fade_ref (e : Envelope) (ref : PaletteRef)
    : Envelope :=
  mkEnvelope (attack e) (decay e) (sustain e) (release e)
    (flash_color e) None (flash_ref e) (Some ref).

(** [a or b] on optional values that are true when present. *)
Definition py_or {A} (a b : option A) : option A :=
  match a with Some _ => a | None => b end.

Definition Envelope_merge (self : Envelope) (other : option Envelope)
    : Envelope :=
  match other with
  | None => self
  | Some other =>
      mkEnvelope
        (if bool_decide (attack self = 0) then attack other else attack self)
        (if bool_decide (decay self = 0) then decay other else decay self)
        (if bool_decide (sustain self = 1) then sustain other else sustain self)
        (if bool_decide (release self = 0) then release other else release self)
        (py_or (flash_color self) (flash_color other))
        (py_or (fade_color self) (fade_color other))
        (py_or (flash_ref self) (flash_ref other))
        (py_or (fade_ref self) (fade_ref other))
  end.

(** ** core/pattern.py: the value transforms

    A colour argument is a literal or a palette reference; a colour name is
    resolved to its literal before. *)

Inductive ColorArg :=
  | ColorHSV (c : HSV)
  | ColorRef (ref : PaletteRef).

Definition literal_of (a : option ColorArg) : option HSV :=
  match a with Some (ColorHSV c) => Some c | _ => None end.

Definition ref_of (a : option ColorArg) : option PaletteRef :=
  match a with Some (ColorRef r) => Some r | _ => None end.

Definition color_transform (c flash fade : option ColorArg)
    (self : LightPattern) : LightPattern :=
  let base_color := literal_of c in
  let base_ref := ref_of c in
  let flash_color := literal_of flash in
  let flash_ref := ref_of flash in
  let fade_color := literal_of fade in
  let fade_ref := ref_of fade in
  fun span ctx =>
    haps ← self span ctx;
    Some
      (map
         (fun h =>
            let new_value := hap_value h in
            let new_value :=
              match base_color, base_ref with
              | Some bc, _ => LightValue_with_color new_value bc
              | None, Some br => LightValue_with_color_ref new_value br
              | None, None => new_value
              end in
            let new_value :=
              match flash_color, fade_color, flash_ref, fade_ref with
              | None, None, None, None => new_value
              | _, _, _, _ =>
                  let env :=
                    default (Envelope_new 0 0 1 0) (envelope new_value) in
                  let env :=
                    match flash_color, fade_color with
                    | None, None => env
                    | _, _ => Envelope_with_colors env flash_color fade_color
                    end in
                  let env :=
                    match flash_ref with
                    | Some r => Envelope_with_flash_ref env r
                    | None => env
                    end in
                  let env :=
                    match fade_ref with
                    | Some r => Envelope_with_fade_ref env r
                    | None => env
                    end in
                  LightValue_with_envelope new_value env
              end in
            LightHap_with_value h new_value)
         haps).


(** [envelope(attack, decay, sustain, release)]; [fade=] is [decay]. *)
Definition envelope_transform (a d s r : Qc) (self : LightPattern)
    : LightPattern :=
  let env := Envelope_new a d s r in
  fun span ctx =>
    haps ← self span ctx;
    Some (map (fun h =>
                 let merged := Envelope_merge env (envelope (hap_value h)) in
                 LightHap_with_value h
                   (LightValue_with_envelope (hap_value h) merged))
              haps).

(** *** seq *)

(** A group name that is set and not the empty string. *)
Definition group_name (v : LightValue) : option string :=
  match group v with
  | Some g => if bool_decide (g = "") then None else Some g
  | None => None
  end.

(** [num_slots = 4; while num_slots < n: num_slots *= 2]; the loop doubles
    at most [n] times. *)
Fixpoint double_until (fuel : nat) (num_slots n : Z) : Z :=
  match fuel with
  | O => num_slots
  | S fuel' =>
      if (num_slots <? n)%Z then double_until fuel' (num_slots * 2)%Z n
      else num_slots
  end.

(** The number of slots for a group of [n] lights; [None] is the division
    by a zero [num_lights]. *)
Definition seq_num_slots (slots : option Z) (n : Z) (ctx : LightContext)
    : option Z :=
  match slots with
  | Some s =>
      if (num_lights ctx =? 0)%Z then None
      else Some (Z.max n (s * n / num_lights ctx))
  | None =>
      if (4 <? n)%Z then Some (double_until (Z.to_nat n) 4 n)
      else Some (Z.max 4 n)
  end.

(** The events of one physical group for one group-targeted event. *)
Definition seq_group_events (slots : option Z) (span : TimeSpan)
    (ctx : LightContext) (hap : LightHap) (lights : list Z)
    : option (list LightHap) :=
  match lights with
  | [] => Some []
  | _ :: _ =>
      let n := Z.of_nat (length lights) in
      num_slots ← seq_num_slots slots n ctx;
      let event_span := LightHap_whole_or_part hap in
      let event_duration := TimeSpan_duration event_span in
      let light_duration := event_duration / of_Z num_slots in
      let cycle_start := py_int (start event_span) in
      let base_slot := ((cycle_start * num_slots) mod n)%Z in
      Some
        (flat_map
           (fun slot =>
              let lid := nth (Z.to_nat ((base_slot + slot) mod n)) lights 0%Z in
              let light_start := start event_span + light_duration * of_Z slot in
              let light_end := light_start + light_duration in
              let light_whole := mkTimeSpan light_start light_end in
              match TimeSpan_intersection light_whole span with
              | Some intersection =>
                  let new_value :=
                    mkLightValue (Some lid) None (color (hap_value hap)) None
                      (intensity (hap_value hap)) (envelope (hap_value hap))
                      (modulator (hap_value hap)) in
                  [mkLightHap (Some light_whole) intersection new_value]
              | None => []
              end)
           (py_range 0 num_slots))
  end.

Definition seq_physical_groups (per_group : bool) (ctx : LightContext)
    (name : string) : list (list Z) :=
  if per_group && bool_decide (name = "all") then
    let strip := LightContext_resolve_group ctx "strip" in
    let lamps := LightContext_resolve_group ctx "lamps" in
    let ambient := LightContext_resolve_group ctx "ambient" in
    let physical_groups :=
      filter (fun g : list Z => g <> []) [strip; lamps; ambient] in
    match physical_groups with
    | [] => [LightContext_resolve_group ctx "all"]
    | _ :: _ => physical_groups
    end
  else [LightContext_resolve_group ctx name].

(** What [seq] puts into the result for one event of the source. *)
Definition seq_hap (slots : option Z) (per_group : bool) (span : TimeSpan)
    (ctx : LightContext) (hap : LightHap) : option (list LightHap) :=
  match group_name (hap_value hap), light_id (hap_value hap) with
  | Some name, None =>
      per_group_events ←
        mapM (seq_group_events slots span ctx hap)
             (seq_physical_groups per_group ctx name);
      Some (concat per_group_events)
  | _, _ => Some [hap]
  end.

Definition seq_transform (slots : option Z) (per_group : bool)
    (self : LightPattern) : LightPattern :=
  fun span ctx =>
    haps ← self span ctx;
    results ← mapM (seq_hap slots per_group span ctx) haps;
    Some (concat results).

(** *** pick *)

(** [min_n] and [max_n] are an [int] or a [float]. *)
Inductive Count :=
  | CountInt (n : Z)
  | CountFloat (x : Qc).

Definition resolve_count (value : Count) (total : Z) : Z :=
  match value with
  | CountFloat x =>
      if Qc_leb 0 x && Qc_leb x 1 then Z.max 1 (py_round (x * of_Z total))
      else py_int x
  | CountInt n => n
  end.

Section Pick.
Context `{PyRuntime}.

(** What [pick] puts into the result for one event of the source; [None] is
    the [ZeroDivisionError] of a zero hold or the [ValueError] of an empty
    [randint] range. *)
Definition pick_hap (min_n max_n : Count) (seed : option Z)
    (hold_frac : option Qc) (ctx : LightContext) (hap : LightHap)
    : option (list LightHap) :=
  match light_id (hap_value hap) with
  | Some _ => Some [hap]
  | None =>
      let lights :=
        match group_name (hap_value hap) with
        | Some name => LightContext_resolve_group ctx name
        | None => py_range 0 (num_lights ctx)
        end in
      match lights with
      | [] => Some []
      | _ :: _ =>
          let len := Z.of_nat (length lights) in
          let actual_min := resolve_count min_n len in
          let actual_max := resolve_count max_n len in
          let event_time := start (LightHap_whole_or_part hap) in
          seed_time ←
            match hold_frac with
            | Some hf =>
                q ← py_div event_time hf;
                Some (of_Z (py_floor q) * hf)
            | None => Some event_time
            end;
          let event_seed := (default 0%Z seed + py_hash seed_time)%Z in
          let g := Random event_seed in
          '(n, g') ← rng_randint g actual_min (Z.min actual_max len);
          let n := Z.max 1 (Z.min n len) in
          let selected := rng_sample g' lights (Z.to_nat n) in
          Some
            (map
               (fun lid =>
                  let new_value :=
                    mkLightValue (Some lid) None (color (hap_value hap)) None
                      (intensity (hap_value hap)) (envelope (hap_value hap))
                      (modulator (hap_value hap)) in
                  mkLightHap (whole hap) (part hap) new_value)
               selected)
      end
  end.

(** [pick(min_n, max_n, seed, hold)]; an omitted [max_n] is [min_n]. *)
Definition pick_transform (min_n max_n : Count) (seed : option Z)
    (hold : option Qc) (self : LightPattern) : LightPattern :=
  let hold_frac := option_map (fun h => limit_denominator h 1000) hold in
  fun span ctx =>
    haps ← self span ctx;
    results ← mapM (pick_hap min_n max_n seed hold_frac ctx) haps;
    Some (concat results).

End Pick.

(** ** lights/effects.py: RGB *)

Record RGB := mkRGB { rgb_r : Z; rgb_g : Z; rgb_b : Z }.

Global Instance RGB_eq_dec : EqDecision RGB.
Proof. solve_decision. Defined.

(** [colorsys.hsv_to_rgb(h, s, v)] *)
Definition hsv_to_rgb (h s v : Qc) : Qc * Qc * Qc :=
  if bool_decide (s = 0) then (v, v, v)
  else
    let i := py_int (h * of_Z 6) in
    let f := h * of_Z 6 - of_Z i in
    let p := v * (1 - s) in
    let q := v * (1 - s * f) in
    let t := v * (1 - s * (1 - f)) in
    let i := (i mod 6)%Z in
    if (i =? 0)%Z then (v, t, p)
    else if (i =? 1)%Z then (q, v, p)
    else if (i =? 2)%Z then (p, v, t)
    else if (i =? 3)%Z then (p, q, v)
    else if (i =? 4)%Z then (t, p, v)
    else (v, p, q).

Definition RGB_from_hsv (h s v : Qc) : RGB :=
  let '(r, g, b) := hsv_to_rgb (py_mod1 h) s v in
  mkRGB (py_int (r * of_Z 255)) (py_int (g * of_Z 255)) (py_int (b * of_Z 255)).

Definition RGB_black : RGB := mkRGB 0 0 0.

(** ** scheduler.py: PatternScheduler *)

Record ActiveEvent := mkActiveEvent {
  active_hap : LightHap;
  start_cycle : Qc
}.

Record PatternScheduler := mkPatternScheduler {
  pattern : LightPattern;
  context : LightContext;
  default_color : HSV;
  scheduler_cycle_beats : Qc;
  palette : option Palette;
  active_events : gmap Z ActiveEvent
}.

(** [PatternScheduler(pattern, context, default_color, cycle_beats, palette)] *)
Definition PatternScheduler_new (p : LightPattern) (ctx : LightContext)
    (dc : option HSV) (cb : Qc) (pal : option Palette) : PatternScheduler :=
  mkPatternScheduler p ctx (default named_red dc) cb pal ∅.

Definition set_palette (self : PatternScheduler) (pal : option Palette)
    : PatternScheduler :=
  mkPatternScheduler (pattern self) (context self) (default_color self)
    (scheduler_cycle_beats self) pal (active_events self).



(** A loop whose body may raise: the state when the loop is left, and how. *)
Inductive Outcome (S : Type) :=
  | Completed (s : S)
  | Raised (s : S).
Arguments Completed {S} s.
Arguments Raised {S} s.

Fixpoint for_each {I S} (body : I -> S -> Outcome S) (items : list I) (s : S)
    : Outcome S :=
  match items with
  | [] => Completed s
  | i :: rest =>
      match body i s with
      | Completed s' => for_each body rest s'
      | Raised s' => Raised s'
      end
  end.

(** [enumerate(xs)] *)
Definition enumerate {A} (xs : list A) : list (Z * A) :=
  imap (fun i x => (Z.of_nat i, x)) xs.

(** The local dictionaries of a frame and the scheduler's tracked events. *)
Record FrameState := mkFrameState {
  frame_colors : gmap Z RGB;
  frame_intensities : gmap Z Qc;
  frame_active : gmap Z ActiveEvent
}.

Section Scheduler.
Context `{PyRuntime}.

Definition resolve_color (self : PatternScheduler) (c : option HSV)
    (ref : option PaletteRef) (event_index : Z) (cycle_position : Qc)
    : option HSV :=
  match c with
  | Some c => Some c
  | None =>
      match ref, palette self with
      | Some r, Some pal => PaletteRef_resolve r pal event_index cycle_position
      | _, _ => Some (default_color self)
      end
  end.

(** A colour slot of the envelope: the literal, else the reference resolved
    against the active palette, else nothing. *)
Definition resolve_slot (self : PatternScheduler) (literal : option HSV)
    (ref : option PaletteRef) (event_index : Z) (cycle_position : Qc)
    : option (option HSV) :=
  match literal, ref, palette self with
  | None, Some r, Some pal =>
      c ← PaletteRef_resolve r pal event_index cycle_position; Some (Some c)
  | _, _, _ => Some literal
  end.

Definition get_envelope_color (self : PatternScheduler) (env : Envelope)
    (time_in_event : Qc) (base_color : HSV) (event_index : Z)
    (cycle_position : Qc) : option HSV :=
  flash ← resolve_slot self (flash_color env) (flash_ref env)
            event_index cycle_position;
  fade ← resolve_slot self (fade_color env) (fade_ref env)
           event_index cycle_position;
  if Qc_ltb time_in_event (attack env) then
    match flash, fade with
    | Some c, _ => Some c
    | None, Some c => Some c
    | None, None => Some base_color
    end
  else
    match fade, flash with
    | Some fd, Some fl =>
        let time_after_attack := time_in_event - attack env in
        if Qc_ltb 0 (decay env) && Qc_ltb time_after_attack (decay env) then
          Some (interpolate_hsv fl fd (time_after_attack / decay env))
        else Some fd
    | Some fd, None => Some fd
    | None, Some fl => Some fl
    | None, None => Some base_color
    end.

(** The intensity and the colour of an event [time_in_event] after its
    start; they depend neither on the light nor on the frame's
    dictionaries.  [None] is an exception of the palette resolution. *)
Definition render_event (self : PatternScheduler) (v : LightValue)
    (time_in_event current_time : Qc) (event_index : Z) (cycle_position : Qc)
    : option (Qc * HSV) :=
  base_color ← resolve_color self (color v) (color_ref v)
                 event_index cycle_position;
  '(envelope_intensity, c) ←
    match envelope v with
    | Some env =>
        c ← get_envelope_color self env time_in_event base_color
              event_index cycle_position;
        Some (Envelope_get_intensity env time_in_event, c)
    | None => Some (1, base_color)
    end;
  let modulator_intensity :=
    match modulator v with
    | Some m => Modulator_get_intensity m current_time
    | None => 1
    end in
  Some (intensity v * envelope_intensity * modulator_intensity, c).

(** HTP: the colour and the intensity are written when the light has no
    intensity recorded in this frame or the new one is strictly greater. *)
Definition htp_write (light : Z) (c : HSV) (i : Qc)
    (cs : gmap Z RGB) (ints : gmap Z Qc) : gmap Z RGB * gmap Z Qc :=
  match ints !! light with
  | Some recorded =>
      if Qc_ltb recorded i
      then (<[light := RGB_from_hsv (hue c) (saturation c) i]> cs,
            <[light := i]> ints)
      else (cs, ints)
  | None =>
      (<[light := RGB_from_hsv (hue c) (saturation c) i]> cs,
       <[light := i]> ints)
  end.

(** The lights an event names: its light, else the lights of its group. *)
Definition target_lights (ctx : LightContext) (v : LightValue) : list Z :=
  match light_id v with
  | Some l => [l]
  | None =>
      match group_name v with
      | Some name => LightContext_resolve_group ctx name
      | None => []
      end
  end.

(** The body of the inner loop of the first pass, for one light of one
    event of the query. *)
Definition first_pass_light (self : PatternScheduler) (cycle_position : Qc)
    (hap_idx : Z) (hap : LightHap) (light : Z) (fs : FrameState)
    : Outcome FrameState :=
  if (light <? 0)%Z || (num_lights (context self) <=? light)%Z then
    Completed fs
  else
    let current_time := cycle_position in
    let event_span := LightHap_whole_or_part hap in
    let event_start := start event_span in
    if TimeSpan_contains event_span cycle_position then
      let time_in_event := current_time - event_start in
      match render_event self (hap_value hap) time_in_event current_time
              hap_idx cycle_position with
      | None => Raised fs
      | Some (i, c) =>
          if Qc_ltb i (frac 1 100) then Completed fs
          else
            let '(cs, ints) :=
              htp_write light c i (frame_colors fs) (frame_intensities fs) in
            Completed
              (mkFrameState cs ints
                 (<[light := mkActiveEvent hap event_start]> (frame_active fs)))
      end
    else Completed fs.

Definition first_pass_hap (self : PatternScheduler) (cycle_position : Qc)
    (item : Z * LightHap) (fs : FrameState) : Outcome FrameState :=
  let '(hap_idx, hap) := item in
  for_each (first_pass_light self cycle_position hap_idx hap)
    (target_lights (context self) (hap_value hap)) fs.

Definition first_pass (self : PatternScheduler) (cycle_position : Qc)
    (haps : list LightHap) (fs : FrameState) : Outcome FrameState :=
  for_each (first_pass_hap self cycle_position) (enumerate haps) fs.

(** The second pass: the colours, the intensities and the lights whose
    tracked event has expired. *)
Definition TailState : Type := gmap Z RGB * gmap Z Qc * list Z.

Definition second_pass_light (self : PatternScheduler) (cycle_position : Qc)
    (item : Z * ActiveEvent) (ts : TailState) : Outcome TailState :=
  let '(light, active) := item in
  let '(cs, ints, expired) := ts in
  let current_time := cycle_position in
  match cs !! light with
  | Some _ => Completed ts
  | None =>
      let v := hap_value (active_hap active) in
      match envelope v with
      | None => Completed (cs, ints, expired ++ [light])
      | Some env =>
          let active_span := LightHap_whole_or_part (active_hap active) in
          let time_since_event_start := current_time - start active_span in
          let envelope_end_time := start active_span + attack env + decay env in
          if Qc_ltb current_time envelope_end_time
             && Qc_leb 0 time_since_event_start then
            match render_event self v time_since_event_start current_time
                    light cycle_position with
            | None => Raised ts
            | Some (i, c) =>
                if Qc_ltb i (frac 1 100) then
                  Completed (cs, ints, expired ++ [light])
                else
                  let '(cs', ints') := htp_write light c i cs ints in
                  Completed (cs', ints', expired)
            end
          else Completed (cs, ints, expired ++ [light])
      end
  end.

Definition second_pass (self : PatternScheduler) (cycle_position : Qc)
    (active : gmap Z ActiveEvent) (ts : TailState) : Outcome TailState :=
  for_each (second_pass_light self cycle_position) (map_to_list active) ts.

(** [for i in range(num_lights): if i not in colors: colors[i] = black] *)
Definition fill_black (n : Z) (cs : gmap Z RGB) : gmap Z RGB :=
  fold_left
    (fun acc i =>
       match acc !! i with Some _ => acc | None => <[i := RGB_black]> acc end)
    (py_range 0 n) cs.

Definition with_active (self : PatternScheduler)
    (active : gmap Z ActiveEvent) : PatternScheduler :=
  mkPatternScheduler (pattern self) (context self) (default_color self)
    (scheduler_cycle_beats self) (palette self) active.

(** The span that a frame at [cycle_position] queries. *)
Definition frame_query_span (cycle_position : Qc) : TimeSpan :=
  let query_margin := frac 1 50 in
  let query_start := py_max 0 (cycle_position - query_margin) in
  let query_end := cycle_position + query_margin in
  mkTimeSpan query_start query_end.

(** The two passes of a frame over the events [haps] of the query: the
    colours written (before the black fill) and the tracked events
    afterwards; [None] for the colours when a pass raised. *)
Definition frame_passes (self : PatternScheduler) (cycle_position : Qc)
    (haps : list LightHap) : option (gmap Z RGB) * gmap Z ActiveEvent :=
  match first_pass self cycle_position haps
          (mkFrameState ∅ ∅ (active_events self)) with
  | Raised fs => (None, frame_active fs)
  | Completed fs =>
      match second_pass self cycle_position (frame_active fs)
              (frame_colors fs, frame_intensities fs, []) with
      | Raised _ => (None, frame_active fs)
      | Completed (cs, _, expired) =>
          (Some cs, fold_left (fun m l => delete l m) expired (frame_active fs))
      end
  end.

(** [compute_colors(beat_position)]: the mapping returned, or [None] when
    the call raised, and the scheduler afterwards. *)
Definition compute_colors (self : PatternScheduler) (beat_position : Qc)
    : option (gmap Z RGB) * PatternScheduler :=
  match py_div beat_position (scheduler_cycle_beats self) with
  | None => (None, self)
  | Some cycle_position =>
      match pattern self (frame_query_span cycle_position) (context self) with
      | None => (None, self)
      | Some haps =>
          let '(written, active) := frame_passes self cycle_position haps in
          (fill_black (num_lights (context self)) <$> written,
           with_active self active)
      end
  end.

End Scheduler.

(** ** Group expansion: what [seq] and [pick] keep of the source event *)

(** [seq] expands the event: it names a group and no light. *)
Definition seq_expands (h : LightHap) : Prop :=
  is_Some (group_name (hap_value h)) /\ light_id (hap_value h) = None.

(** [pick] expands the event: it names no light. *)
Definition pick_expands (h : LightHap) : Prop :=
  light_id (hap_value h) = None.

(** [h'] is a per-light event made from [src]: it names a light and no
    group, it has the literal colour, the intensity, the envelope and the
    modulator of [src], and no palette reference. *)
Definition expanded_from (src h' : LightHap) : Prop :=
  is_Some (light_id (hap_value h')) /\
  group (hap_value h') = None /\
  color (hap_value h') = color (hap_value src) /\
  intensity (hap_value h') = intensity (hap_value src) /\
  envelope (hap_value h') = envelope (hap_value src) /\
  modulator (hap_value h') = modulator (hap_value src) /\
  color_ref (hap_value h') = None.

(** [palette.cycle] *)
Definition palette_cycle : PaletteRef := mkPaletteRef CYCLE 0 1 0.

(** [light("all").color(palette.cycle)] *)
Definition all_palette_cycle : LightPattern :=
  color_transform (Some (ColorRef palette_cycle)) None None (light notation_all).

(** Six lights: a strip of two and four lamps. *)
Definition six_lights : LightContext :=
  LightContext_new 6 (<["strip" := [0; 1]%Z]> (<["lamps" := [2; 3; 4; 5]%Z]> ∅)).

(** ** core/pattern.py: shuffle *)

(** The key of the sort before the shuffle:
    [(h.whole_or_part().start, h.value.light_id or 0)]. *)
Definition sort_key (h : LightHap) : Qc * Z :=
  (start (LightHap_whole_or_part h), default 0%Z (light_id (hap_value h))).

(** The order of Python on the key tuples. *)
Definition key_leb (a b : Qc * Z) : bool :=
  Qc_ltb (fst a) (fst b) || (bool_decide (fst a = fst b) && (snd a <=? snd b)%Z).

(** [list.sort(key=...)] is stable: events with equal keys keep their
    order.  Insertion from the right of the list is such a sort. *)
Fixpoint insert_sorted (h : LightHap) (l : list LightHap) : list LightHap :=
  match l with
  | [] => [h]
  | x :: l' =>
      if key_leb (sort_key h) (sort_key x) then h :: l
      else x :: insert_sorted h l'
  end.

Definition sort_haps (l : list LightHap) : list LightHap :=
  foldr insert_sorted [] l.

Section Shuffle.
Context `{PyRuntime}.

(** One turn of the loop over the cycles of [query_shuffle]. *)
Definition shuffle_cycle (seed : option Z) (self : LightPattern)
    (span : TimeSpan) (ctx : LightContext) (cycle : Z)
    : option (list LightHap) :=
  let full_cycle_span := mkTimeSpan (of_Z cycle) (of_Z (cycle + 1)) in
  cycle_haps ← self full_cycle_span ctx;
  if (length cycle_haps <=? 1)%nat then
    Some
      (flat_map
         (fun h =>
            match TimeSpan_intersection (part h) span with
            | Some intersection => [LightHap_with_part h intersection]
            | None => []
            end)
         cycle_haps)
  else
    let g :=
      Random (match seed with None => cycle | Some s => (s + cycle)%Z end) in
    let cycle_haps := sort_haps cycle_haps in
    let timings := map (fun h => (whole h, part h)) cycle_haps in
    let values := map hap_value cycle_haps in
    let values := rng_shuffle g values in
    Some
      (flat_map
         (fun '((w, p), v) =>
            match TimeSpan_intersection p span with
            | Some intersection => [mkLightHap w intersection v]
            | None => []
            end)
         (combine timings values)).

Definition shuffle_transform (seed : option Z) (self : LightPattern)
    : LightPattern :=
  fun span ctx =>
    let cycle_start := py_int (start span) in
    let cycle_end := (py_int (end_ span) + 1)%Z in
    results ←
      mapM (shuffle_cycle seed self span ctx) (py_range cycle_start cycle_end);
    Some (concat results).

End Shuffle.

(** The time slot of an event. *)
Definition timing (h : LightHap) : option TimeSpan * TimeSpan :=
  (whole h, part h).

(** The span of cycle [c]. *)
Definition cycle_span (c : Z) : TimeSpan :=
  mkTimeSpan (of_Z c) (of_Z (c + 1)).

(** The part of [h] is a non-empty span inside cycle [c]. *)
Definition part_inside (c : Z) (h : LightHap) : Prop :=
  of_Z c <= start (part h) /\ start (part h) < end_ (part h) /\
  end_ (part h) <= of_Z (c + 1).

(** What a query of the window [w] sees of the event [h]. *)
Definition seen_in (w : TimeSpan) (h : LightHap) : list LightHap :=
  match TimeSpan_intersection (part h) w with
  | Some intersection => [LightHap_with_part h intersection]
  | None => []
  end.

(** ** The frame seen from outside: what the scheduler is asked to blend *)

Section FrameCandidates.
Context `{PyRuntime}.







End FrameCandidates.


(** ** The scheduler in use: a sequence of calls on a new scheduler *)


Section SchedulerCalls.
Context `{PyRuntime}.



End SchedulerCalls.








(** ** The loops of the scheduler, for the proofs *)

(** The state of the loop, however it is left. *)
Definition final_state {S} (o : Outcome S) : S :=
  match o with Completed s => s | Raised s => s end.




(** A scheduler of six lights for [p], without palette. *)
Definition scheduler_of (p : LightPattern) : PatternScheduler :=
  PatternScheduler_new p six_lights None (of_Z 4) None.





(** The slots of a notation lie in the cycle [[0, 1)] and are not empty. *)
Definition event_data_wf (event_data : list EventData) : Prop :=
  Forall (fun '(s, e, _, _) => 0 <= s /\ s < e /\ e <= 1) event_data.

(** The events of [light(notation)] in cycle [c]. *)
Definition cycle_events (event_data : list EventData) (c : Z) : list LightHap :=
  map (fun '(s, e, lid, g) =>
         let whole := mkTimeSpan (s + of_Z c) (e + of_Z c) in
         mkLightHap (Some whole) whole (LightValue_new lid g))
      event_data.

(** The brightest channel. *)
Definition RGB_max (c : RGB) : Z := Z.max (rgb_r c) (Z.max (rgb_g c) (rgb_b c)).

(** ** The clock consumer over a run of clock messages *)

(** The state after the clock messages that arrive at the given times. *)
Definition run_clocks (times : list Qc) (s : ClockConsumer) : ClockConsumer :=
  fold_left (fun s now => handle_clock now s) times s.

(** What the loop publishes agrees with its counters. *)
Definition clock_consistent (s : ClockConsumer) : Prop :=
  (0 <= tick_count s < TICKS_PER_BEAT)%Z /\
  es_beat_position s = beat_position_of (beat_count s) (tick_count s) /\
  es_beat_count s = beat_count s.

(** ** core/pattern.py: rev *)

(** [mirror(t)] of [query_rev]: the time mirrored in the cycle that starts
    at [cycle_start]. *)
Definition mirror (cycle_start t : Qc) : Qc :=
  cycle_start + (1 - (t - cycle_start)).

(** [pattern.rev()]: each event is mirrored in the cycle of its part's
    start; the query span is passed on as it is. *)
Definition rev_transform (self : LightPattern) : LightPattern :=
  fun span ctx =>
    haps ← self span ctx;
    Some
      (map
         (fun h =>
            let cycle := py_int (start (part h)) in
            let cycle_start := of_Z cycle in
            let new_whole :=
              option_map
                (fun w => mkTimeSpan (mirror cycle_start (end_ w))
                                     (mirror cycle_start (start w)))
                (whole h) in
            let new_part :=
              mkTimeSpan (mirror cycle_start (end_ (part h)))
                         (mirror cycle_start (start (part h))) in
            mkLightHap new_whole new_part (hap_value h))
         haps).

(** The part of the event lies in one cycle, at or after cycle zero. *)
Definition in_a_cycle (h : LightHap) : Prop :=
  exists c : Z, (0 <= c)%Z /\ part_inside c h.

(** ** dsl/constructors.py: cat *)

(** [cat(p1, ..., pn)]: in cycle [c] plays the pattern [c % n], queried over
    the part of the span in that cycle moved to cycle zero.  Without a
    pattern it is [light("")], whose notation has no event. *)
Definition cat (patterns : list LightPattern) : LightPattern :=
  match patterns with
  | [] => light []
  | [p] => p
  | _ :: _ :: _ =>
      let n := Z.of_nat (length patterns) in
      fun span ctx =>
        let cycle_start := py_int (start span) in
        let cycle_end := (py_int (end_ span) + 1)%Z in
        results ←
          mapM
            (fun cycle =>
               let pattern_idx := (cycle mod n)%Z in
               let pattern :=
                 nth (Z.to_nat pattern_idx) patterns (light []) in
               let cycle_span :=
                 mkTimeSpan (of_Z cycle) (of_Z (cycle + 1)) in
               match TimeSpan_intersection cycle_span span with
               | Some intersection =>
                   let local_start := start intersection - of_Z cycle in
                   let local_end := end_ intersection - of_Z cycle in
                   let local_span := mkTimeSpan local_start local_end in
                   haps ← pattern local_span ctx;
                   Some (map (fun h => LightHap_shift h (of_Z cycle)) haps)
               | None => Some []
               end)
            (py_range cycle_start cycle_end);
        Some (concat results)
  end.

(** ** seq over a whole event *)

(** The event that [seq] makes for the slot [slot] of a group-targeted
    event, when the slot lies inside the query span. *)
Definition seq_slot (hap : LightHap) (lights : list Z) (num_slots slot : Z)
    : LightHap :=
  let event_span := LightHap_whole_or_part hap in
  let light_duration := TimeSpan_duration event_span / of_Z num_slots in
  let n := Z.of_nat (length lights) in
  let base_slot := ((py_int (start event_span) * num_slots) mod n)%Z in
  let lid := nth (Z.to_nat ((base_slot + slot) mod n)) lights 0%Z in
  let light_start := start event_span + light_duration * of_Z slot in
  let light_whole := mkTimeSpan light_start (light_start + light_duration) in
  mkLightHap (Some light_whole) light_whole
    (mkLightValue (Some lid) None (color (hap_value hap)) None
       (intensity (hap_value hap)) (envelope (hap_value hap))
       (modulator (hap_value hap))).

(** ** core/pattern.py: modulate *)

(** [pattern.modulate(wave, frequency, min_intensity, max_intensity,
    phase)]; the name of the waveform is looked up when the pattern is
    built. *)
Definition modulate_transform (w : WaveType)
    (freq min_i max_i ph : Qc) (self : LightPattern) : LightPattern :=
  let mod_ := mkModulator w freq min_i max_i ph 0 [] in
  fun span ctx =>
    haps ← self span ctx;
    Some
      (map
         (fun h =>
            let new_value :=
              match modulator (hap_value h) with
              | Some m =>
                  LightValue_with_modulator (hap_value h)
                    (Modulator_chain m mod_)
              | None => LightValue_with_modulator (hap_value h) mod_
              end in
            LightHap_with_value h new_value)
         haps).

(** The modulator as [chain] adds it to another one: as it is when it has
    no chain of its own; otherwise its chain followed by a copy of its own
    wave, built without the reference time. *)
Definition as_chained (other : Modulator) : Modulator :=
  match chain other with
  | [] => other
  | _ :: _ =>
      mkModulator (wave other) (frequency other) (min_intensity other)
        (max_intensity other) (phase other) 0 (chain other)
  end.

(** ** core/envelope.py: Envelope.get_color *)

Definition Envelope_get_color (e : Envelope) (time_in_event : Qc)
    (base_color : HSV) : HSV :=
  if Qc_ltb time_in_event (attack e) then
    match flash_color e, fade_color e with
    | Some c, _ => c
    | None, Some c => c
    | None, None => base_color
    end
  else
    match fade_color e with
    | Some fd =>
        match flash_color e with
        | Some fl =>
            if Qc_ltb 0 (decay e) then
              let time_after_attack := time_in_event - attack e in
              if Qc_ltb time_after_attack (decay e) then
                interpolate_hsv fl fd (time_after_attack / decay e)
              else fd
            else fd
        | None => fd
        end
    | None =>
        match flash_color e with
        | Some fl => fl
        | None => base_color
        end
    end.

(** The envelope with its two colour slots set to the given colours. *)
Definition with_resolved_colors (e : Envelope) (flash fade : option HSV)
    : Envelope :=
  mkEnvelope (attack e) (decay e) (sustain e) (release e) flash fade
    (flash_ref e) (fade_ref e).

(** ** palette.py: the accessor's random_blend *)

(** [palette.random_blend(period, fade)]: the fade is at most the period. *)
Definition random_blend (period fade : Qc) : PaletteRef :=
  mkPaletteRef RANDOM_BLEND 0 period (py_min fade period).


(** ** Events that name no palette reference *)

(** The value carries no palette reference, neither as its colour nor in
    its envelope. *)
Definition literal_only (v : LightValue) : Prop :=
  color_ref v = None /\
  forall env, envelope v = Some env ->
    flash_ref env = None /\ fade_ref env = None.

(** The colours and the intensities of a frame are recorded for the same
    lights. *)
Definition keys_agree (cs : gmap Z RGB) (ints : gmap Z Qc) : Prop :=
  forall l, is_Some (cs !! l) <-> is_Some (ints !! l).

(** ** dsl/parser.py: the mini notation

    What the parser takes from CPython's [str], [int] and [float] is a
    parameter: the character classes of [str.isspace], [str.isdigit],
    [str.isalpha] and [str.isalnum], [str.lower], and the conversions
    [int(s)] and [int(float(s))] with the exception they raise.  A Python
    string is a [string]; the tokenizer walks its list of characters. *)

(** The characters the tokenizer looks for. *)
Definition char_of (s : string) : Ascii.ascii :=
  match s with
  | String c _ => c
  | EmptyString => Ascii.zero
  end.

Definition ch_tilde : Ascii.ascii := Eval cbv in char_of "~".
Definition ch_star : Ascii.ascii := Eval cbv in char_of "*".
Definition ch_slash : Ascii.ascii := Eval cbv in char_of "/".
Definition ch_dot : Ascii.ascii := Eval cbv in char_of ".".
Definition ch_underscore : Ascii.ascii := Eval cbv in char_of "_".

(** The outcome of [int(float(s))]: the number, a [ValueError] (the text is
    no float) or another exception (the float is an infinity). *)
Inductive IntParse :=
  | Parsed (n : Z)
  | ValueError
  | OtherError.

Class PyText := {
  is_space : Ascii.ascii -> bool;
  is_digit : Ascii.ascii -> bool;
  is_alpha : Ascii.ascii -> bool;
  is_alnum : Ascii.ascii -> bool;
  (** a letter is alphanumeric *)
  is_alpha_alnum : forall c, is_alpha c = true -> is_alnum c = true;
  (** [s.lower()] *)
  str_lower : string -> string;
  (** [int(s)]; [None] is its [ValueError] *)
  str_int : string -> option Z;
  (** [int(float(s))] *)
  str_float_int : string -> IntParse
}.

Record ParsedEvent := mkParsedEvent {
  pe_start : Qc;
  pe_end : Qc;
  pe_light_id : option Z;
  pe_group : option string;
  pe_is_rest : bool
}.

Fixpoint take_while {A} (f : A -> bool) (l : list A) : list A :=
  match l with
  | [] => []
  | x :: l' => if f x then x :: take_while f l' else []
  end.

Fixpoint drop_while {A} (f : A -> bool) (l : list A) : list A :=
  match l with
  | [] => []
  | x :: l' => if f x then drop_while f l' else l
  end.

(** [s[1:]] *)
Definition str_tail (s : string) : string :=
  match s with
  | EmptyString => EmptyString
  | String _ rest => rest
  end.

(** [s.startswith('*')] *)
Definition starts_with_star (s : string) : bool :=
  match s with
  | String c _ => bool_decide (c = ch_star)
  | EmptyString => false
  end.

Section Parser.
Context `{PyText}.

(** [s.strip()] *)
Definition py_strip (s : list Ascii.ascii) : list Ascii.ascii :=
  rev (drop_while is_space (rev (drop_while is_space s))).

(** [s.isdigit()]: at least one character, and digits only. *)
Definition str_isdigit (s : string) : bool :=
  match String.list_ascii_of_string s with
  | [] => false
  | cs => forallb is_digit cs
  end.

(** [tokens and tokens[-1] != ' '] *)
Definition ends_with_token (tokens : list string) : bool :=
  match list.last tokens with
  | Some t => negb (bool_decide (t = " "))
  | None => false
  end.

(** The loop of [tokenize] on the characters from index [i] on; every turn
    moves [i] forward, so the number of characters left bounds the turns.
    A number or a word starts with the character that opened it: a digit is
    a digit and a letter is alphanumeric. *)
Fixpoint tokenize_loop (fuel : nat) (s : list Ascii.ascii) (tokens : list string)
    : list string :=
  match fuel, s with
  | O, _ => tokens
  | _, [] => tokens
  | S fuel', c :: rest =>
      if is_space c then
        tokenize_loop fuel' (drop_while is_space rest)
          (if ends_with_token tokens then tokens ++ [" "] else tokens)
      else if bool_decide (c = ch_tilde) then
        tokenize_loop fuel' rest (tokens ++ ["~"])
      else if (bool_decide (c = ch_star) || bool_decide (c = ch_slash))
              && negb (bool_decide (rest = [])) then
        let number :=
          take_while (fun d => is_digit d || bool_decide (d = ch_dot)) rest in
        match number with
        | [] => tokenize_loop fuel' rest (tokens ++ [String c EmptyString])
        | _ :: _ =>
            tokenize_loop fuel' (drop (length number) rest)
              (tokens ++ [String.string_of_list_ascii (c :: number)])
        end
      else if is_digit c then
        let number := take_while is_digit rest in
        tokenize_loop fuel' (drop (length number) rest)
          (tokens ++ [String.string_of_list_ascii (c :: number)])
      else if is_alpha c || bool_decide (c = ch_underscore) then
        let word :=
          take_while (fun d => is_alnum d || bool_decide (d = ch_underscore)) rest in
        tokenize_loop fuel' (drop (length word) rest)
          (tokens ++ [String.string_of_list_ascii (c :: word)])
      else tokenize_loop fuel' rest tokens
  end.

Definition tokenize (notation : string) : list string :=
  let s := py_strip (String.list_ascii_of_string notation) in
  let tokens := tokenize_loop (length s) s [] in
  match list.last tokens with
  | Some t => if bool_decide (t = " ") then removelast tokens else tokens
  | None => tokens
  end.

(** The loop of [split_by_space] with its two accumulators. *)
Fixpoint split_loop (tokens current : list string)
    (elements : list (list string)) : list (list string) :=
  match tokens with
  | [] =>
      match current with
      | [] => elements
      | _ :: _ => elements ++ [current]
      end
  | token :: rest =>
      if bool_decide (token = " ") then
        match current with
        | [] => split_loop rest [] elements
        | _ :: _ => split_loop rest [] (elements ++ [current])
        end
      else split_loop rest (current ++ [token]) elements
  end.

Definition split_by_space (tokens : list string) : list (list string) :=
  split_loop tokens [] [].

(** The repeat count of [parse_element]: [int(text)], and on its
    [ValueError] [int(float(text))], whose exceptions are not caught. *)
Definition repeat_count_of (text : string) : option Z :=
  match str_int text with
  | Some n => Some n
  | None =>
      match str_float_int text with
      | Parsed n => Some n
      | ValueError | OtherError => None
      end
  end.

(** The slots of an element in [parse_sequence]: the same conversions, but
    here the [ValueError] of the second one gives one slot. *)
Definition slots_of (element : list string) : option Z :=
  match element with
  | _ :: modifier :: _ =>
      if starts_with_star modifier then
        match str_int (str_tail modifier) with
        | Some n => Some n
        | None =>
            match str_float_int (str_tail modifier) with
            | Parsed n => Some n
            | ValueError => Some 1%Z
            | OtherError => None
            end
        end
      else Some 1%Z
  | _ => Some 1%Z
  end.

(** [parse_element(tokens, start, end)]; [None] is an exception. *)
Definition parse_element (tokens : list string) (start_ end' : Qc)
    : option (list ParsedEvent) :=
  match tokens with
  | [] => Some []
  | value_token :: more =>
      let is_rest := bool_decide (value_token = "~") in
      target ←
        (if is_rest then Some (None, None)
         else if str_isdigit value_token then
           n ← str_int value_token; Some (Some n, None)
         else Some (None, Some (str_lower value_token)));
      let single :=
        [mkParsedEvent start_ end' (fst target) (snd target) is_rest] in
      match more with
      | modifier :: _ =>
          if starts_with_star modifier then
            repeat_count ← repeat_count_of (str_tail modifier);
            if (0 <? repeat_count)%Z then
              let sub_duration := (end' - start_) / of_Z repeat_count in
              Some
                (map
                   (fun i =>
                      let sub_start := start_ + sub_duration * of_Z i in
                      mkParsedEvent sub_start (sub_start + sub_duration)
                        (fst target) (snd target) is_rest)
                   (py_range 0 repeat_count))
            else Some single
          else Some single
      | [] => Some single
      end
  end.

(** The second loop of [parse_sequence]: the elements with their slots are
    placed one after the other from [current_slot] on. *)
Fixpoint place_elements (start_ slot_duration : Qc) (current_slot : Z)
    (items : list (list string * Z)) : option (list ParsedEvent) :=
  match items with
  | [] => Some []
  | (element, slots) :: rest =>
      let slot_start := start_ + slot_duration * of_Z current_slot in
      let slot_end := slot_start + slot_duration * of_Z slots in
      events ← parse_element element slot_start slot_end;
      more ← place_elements start_ slot_duration (current_slot + slots) rest;
      Some (events ++ more)
  end.

(** [sum] of a list of integers. *)
Definition py_sum (l : list Z) : Z := fold_left Z.add l 0%Z.

(** [parse_sequence(tokens, start, end)]; [None] is an exception: a repeat
    count that is no number, or the division by a total of zero slots. *)
Definition parse_sequence (tokens : list string) (start_ end' : Qc)
    : option (list ParsedEvent) :=
  match split_by_space tokens with
  | [] => Some []
  | elements =>
      element_slots ← mapM slots_of elements;
      let total_slots := py_sum element_slots in
      slot_duration ← py_div (end' - start_) (of_Z total_slots);
      place_elements start_ slot_duration 0 (zip elements element_slots)
  end.

Definition parse_mini (notation : string) : option (list ParsedEvent) :=
  match tokenize notation with
  | [] => Some []
  | tokens => parse_sequence tokens 0 1
  end.

Definition parse_to_query_data (notation : string) : option (list EventData) :=
  events ← parse_mini notation;
  Some (map (fun e => (pe_start e, pe_end e, pe_light_id e, pe_group e))
          (filter (fun e => pe_is_rest e = false) events)).

(** [light(notation)] for a notation string: the notation is parsed when
    the pattern is built. *)
Definition light_of_notation (notation : string) : option LightPattern :=
  event_data ← parse_to_query_data notation;
  Some (light event_data).

End Parser.

(** The events follow one another from [s] to [e]: the first starts at
    [s], each one ends where the next starts, and the last ends at [e]. *)
Fixpoint chained (s e : Qc) (events : list ParsedEvent) : Prop :=
  match events with
  | [] => s = e
  | ev :: rest => pe_start ev = s /\ chained (pe_end ev) e rest
  end.

(** The element has one token: a value without a modifier. *)
Definition plain_element (element : list string) : Prop :=
  length element = 1%nat.

Section ParserErrors.
Context `{PyText}.

(** The exceptions of [parse_element], which depend on the tokens only: a
    value of digits that [int] rejects, or a repeat count that is no
    number. *)
Definition element_raises (element : list string) : bool :=
  match element with
  | [] => false
  | value_token :: more =>
      (negb (bool_decide (value_token = "~")) && str_isdigit value_token
       && bool_decide (str_int value_token = None))
      || match more with
         | modifier :: _ =>
             starts_with_star modifier
             && bool_decide (repeat_count_of (str_tail modifier) = None)
         | [] => false
         end
  end.

End ParserErrors.

(** ** An instance for ASCII text

    The character classes, [lower] and the two conversions on ASCII
    strings, to evaluate the parser on examples. *)

Definition ascii_between (lo hi : N) (c : Ascii.ascii) : bool :=
  (lo <=? Ascii.N_of_ascii c)%N && (Ascii.N_of_ascii c <=? hi)%N.

Definition ascii_is_space (c : Ascii.ascii) : bool :=
  ascii_between 9 13 c || ascii_between 28 32 c.

Definition ascii_is_digit (c : Ascii.ascii) : bool := ascii_between 48 57 c.

Definition ascii_is_alpha (c : Ascii.ascii) : bool :=
  ascii_between 65 90 c || ascii_between 97 122 c.

Definition ascii_is_alnum (c : Ascii.ascii) : bool :=
  ascii_is_alpha c || ascii_is_digit c.

Definition ascii_lower_char (c : Ascii.ascii) : Ascii.ascii :=
  if ascii_between 65 90 c
  then Ascii.ascii_of_N (Ascii.N_of_ascii c + 32)
  else c.

Fixpoint ascii_lower (s : string) : string :=
  match s with
  | EmptyString => EmptyString
  | String c rest => String (ascii_lower_char c) (ascii_lower rest)
  end.

(** The number written by a list of decimal digits. *)
Definition decimal_value (digits : list Ascii.ascii) : Z :=
  fold_left (fun acc c => (acc * 10 + Z.of_N (Ascii.N_of_ascii c - 48))%Z)
    digits 0%Z.

Definition ascii_int (s : string) : option Z :=
  match String.list_ascii_of_string s with
  | [] => None
  | cs => if forallb ascii_is_digit cs then Some (decimal_value cs) else None
  end.

(** [int(float(s))] for digits with at most one point: the digits before
    the point.  (The float of a text of up to fifteen digits is close
    enough to it for its whole part to be that of the text.) *)
Definition ascii_float_int (s : string) : IntParse :=
  let cs := String.list_ascii_of_string s in
  let whole_part := take_while ascii_is_digit cs in
  let after := drop (length whole_part) cs in
  match after with
  | [] => match whole_part with [] => ValueError | _ => Parsed (decimal_value whole_part) end
  | c :: fraction =>
      if bool_decide (c = ch_dot) && forallb ascii_is_digit fraction
         && negb (bool_decide (whole_part = []) && bool_decide (fraction = []))
      then Parsed (decimal_value whole_part)
      else ValueError
  end.

Definition ascii_text : PyText.
Proof.
  refine {| is_space := ascii_is_space;
            is_digit := ascii_is_digit;
            is_alpha := ascii_is_alpha;
            is_alnum := ascii_is_alnum;
            str_lower := ascii_lower;
            str_int := ascii_int;
            str_float_int := ascii_float_int |}.
  intros c Hc. unfold ascii_is_alnum. rewrite Hc. reflexivity.
Defined.
(* ===================================================================== *)
(** * Part II: properties                                                  *)
(* ===================================================================== *)

(** ** Comparisons and rounding *)

Lemma Qc_ltb_lt (x y : Qc) : Qc_ltb x y = true <-> x < y.
Proof. unfold Qc_ltb, Qclt, Qlt. apply Z.ltb_lt. Qed.

Lemma Qc_leb_le (x y : Qc) : Qc_leb x y = true <-> x <= y.
Proof. unfold Qc_leb, Qcle, Qle. apply Z.leb_le. Qed.

Lemma Qc_ltb_ge (x y : Qc) : Qc_ltb x y = false <-> y <= x.
Proof.
  unfold Qc_ltb, Qcle, Qle. rewrite Z.ltb_ge. reflexivity.
Qed.

Lemma Qc_leb_gt (x y : Qc) : Qc_leb x y = false <-> y < x.
Proof.
  unfold Qc_leb, Qclt, Qlt. rewrite Z.leb_gt. reflexivity.
Qed.

(** Case analysis on a comparison, leaving the order fact in the context. *)
Ltac case_ltb x y :=
  let H := fresh "Hcmp" in
  destruct (Qc_ltb x y) eqn:H;
  [apply Qc_ltb_lt in H | apply Qc_ltb_ge in H].

Ltac case_leb x y :=
  let H := fresh "Hcmp" in
  destruct (Qc_leb x y) eqn:H;
  [apply Qc_leb_le in H | apply Qc_leb_gt in H].

Lemma py_max_spec (a b : Qc) : a <= py_max a b /\ b <= py_max a b.
Proof.
  unfold py_max. case_ltb a b; split;
    auto using Qcle_refl, Qclt_le_weak.
Qed.

Lemma py_min_spec (a b : Qc) : py_min a b <= a /\ py_min a b <= b.
Proof.
  unfold py_min. case_ltb b a; split;
    auto using Qcle_refl, Qclt_le_weak.
Qed.

Lemma py_clamp_unit (x : Qc) :
  0 <= py_max 0 (py_min 1 x) /\ py_max 0 (py_min 1 x) <= 1.
Proof.
  split; [apply py_max_spec |].
  unfold py_max. case_ltb 0 (py_min 1 x).
  - apply py_min_spec.
  - discriminate.
Qed.

(** Goals about the order of [Qc] are sent to [Q], where [lra] and [nra]
    decide them. *)
Ltac qc2q :=
  unfold Qcle, Qclt, Qcdiv, Qcminus, Qcplus, Qcopp, Qcmult, Qcinv,
    of_Z, frac in *;
  cbn [this Q2Qc] in *;
  repeat match goal with
  | |- context [Qred ?q] => rewrite (Qred_correct q)
  | H : context [Qred ?q] |- _ => rewrite (Qred_correct q) in H
  end.

Lemma py_mod1_range (x : Qc) : 0 <= py_mod1 x /\ py_mod1 x < 1.
Proof.
  unfold py_mod1, py_floor.
  pose proof (Qfloor_le x) as Hlo.
  pose proof (Qlt_floor x) as Hhi.
  rewrite inject_Z_plus in Hhi.
  change (inject_Z 1) with 1%Q in Hhi.
  split; qc2q; lra.
Qed.

(** Closed comparisons and equalities between fractions, by evaluation. *)
Ltac qc_eval :=
  lazymatch goal with
  | |- @eq Qc _ _ => apply Qc_is_canon; vm_compute; reflexivity
  | |- Qclt _ _ => vm_compute; reflexivity
  | |- Qcle _ _ => vm_compute; discriminate
  | |- Qclt _ _ -> False => vm_compute; discriminate
  | |- Qcle _ _ -> False => vm_compute; intros Hc; apply Hc; reflexivity
  | |- ~ Qclt _ _ => vm_compute; discriminate
  | |- ~ Qcle _ _ => vm_compute; intros Hc; apply Hc; reflexivity
  end.

(** ** HSV values (C8) *)

(** C8, as stated, fails: the constructor of the NamedTuple stores what it is
    given, so [HSV(1.5, 2.0, -1.0)] has no component in the unit interval;
    and [dim], one of the program's own constructions, leaves it with a
    factor above one. *)
Lemma hsv_constructor_stores_unclamped :
  HSV_new (frac 3 2) 2 (-1) = mkHSV (frac 3 2) 2 (-1) /\
  ~ HSV_in_unit (HSV_new (frac 3 2) 2 (-1)) /\
  ~ HSV_in_unit (dim named_red 2).
Proof.
  split; [reflexivity |].
  split; intros (Hh & Hs & Hv).
  - destruct Hh as [_ Hh]. revert Hh. cbn. qc_eval.
  - destruct Hv as [_ Hv]. revert Hv. cbn. qc_eval.
Qed.

(** C8, amended: the constructor stores the components as given; it is the
    three update methods that normalise the component they set.  [with_hue]
    wraps the new hue into [0,1), [with_saturation] and [with_value] clamp the
    new component into [0,1], and each leaves the two other components as
    they were. *)
Theorem hsv_update_methods_normalise (c : HSV) (x : Qc) :
  (forall h s v, hue (HSV_new h s v) = h /\ saturation (HSV_new h s v) = s /\
                 value (HSV_new h s v) = v) /\
  (hue (HSV_with_hue c x) = py_mod1 x /\
   0 <= hue (HSV_with_hue c x) /\ hue (HSV_with_hue c x) < 1 /\
   saturation (HSV_with_hue c x) = saturation c /\
   value (HSV_with_hue c x) = value c) /\
  (0 <= saturation (HSV_with_saturation c x) /\
   saturation (HSV_with_saturation c x) <= 1 /\
   (0 <= x -> x <= 1 -> saturation (HSV_with_saturation c x) = x) /\
   hue (HSV_with_saturation c x) = hue c /\
   value (HSV_with_saturation c x) = value c) /\
  (0 <= value (HSV_with_value c x) /\
   value (HSV_with_value c x) <= 1 /\
   (0 <= x -> x <= 1 -> value (HSV_with_value c x) = x) /\
   hue (HSV_with_value c x) = hue c /\
   saturation (HSV_with_value c x) = saturation c).
Proof.
  assert (Hid : 0 <= x -> x <= 1 -> py_max 0 (py_min 1 x) = x).
  { intros H0 H1. unfold py_max, py_min.
    case_ltb x 1.
    - case_ltb 0 x; [reflexivity |]. apply Qcle_antisym; assumption.
    - assert (x = 1) as -> by (apply Qcle_antisym; assumption).
      reflexivity. }
  pose proof (py_mod1_range x) as [Hlo Hhi].
  pose proof (py_clamp_unit x) as [Hc0 Hc1].
  repeat split; cbn; auto.
Qed.

Lemma hsv_update_methods_normalise_witness :
  saturation (HSV_with_saturation named_red (frac 1 2)) = frac 1 2 /\
  value (HSV_with_value named_red (frac 1 2)) = frac 1 2.
Proof.
  destruct (hsv_update_methods_normalise named_red (frac 1 2))
    as (_ & _ & (_ & _ & Hs & _) & (_ & _ & Hv & _)).
  split; [apply Hs | apply Hv]; qc_eval.
Defined.

(** ** The envelope (C5) *)

(** C5.  For a time [tau >= 0] since the start of the event,
    [Envelope.get_intensity] is the piecewise function of the specification:
    during the attack it is 1.0 for an attack of at most 0.05 cycle and
    otherwise [tau / attack] bounded below by 0.1; during the decay it is the
    line from 1.0 to [sustain]; afterwards it is [sustain].  The release
    intensity goes linearly from [sustain] to 0 over [release] and is 0 from
    [release] on. *)
Theorem envelope_intensity_piecewise (e : Envelope) (tau : Qc) :
  0 <= tau ->
  (tau < attack e -> attack e <= frac 1 20 ->
     Envelope_get_intensity e tau = 1) /\
  (tau < attack e -> frac 1 20 < attack e ->
     frac 1 10 <= Envelope_get_intensity e tau /\
     (frac 1 10 <= tau / attack e ->
        Envelope_get_intensity e tau = tau / attack e) /\
     (tau / attack e <= frac 1 10 ->
        Envelope_get_intensity e tau = frac 1 10)) /\
  (attack e <= tau -> tau < attack e + decay e ->
     Envelope_get_intensity e tau =
       1 - (tau - attack e) / decay e * (1 - sustain e)) /\
  (0 <= decay e -> attack e + decay e <= tau ->
     Envelope_get_intensity e tau = sustain e) /\
  (tau < release e ->
     Envelope_get_release_intensity e tau =
       sustain e * (1 - tau / release e)) /\
  (release e <= tau -> Envelope_get_release_intensity e tau = 0).
Proof.
  intros Htau.
  assert (Hneg : Qc_ltb tau 0 = false) by (apply Qc_ltb_ge; exact Htau).
  repeat split.
  - intros Hlt Hshort. unfold Envelope_get_intensity. rewrite Hneg.
    apply Qc_ltb_lt in Hlt. rewrite Hlt.
    case_leb (attack e) 0; [reflexivity |].
    case_ltb (frac 1 20) (attack e); [| reflexivity].
    exfalso. qc2q. lra.
  - revert H H0. intros Hlt Hlong. unfold Envelope_get_intensity.
    rewrite Hneg. apply Qc_ltb_lt in Hlt. rewrite Hlt.
    case_leb (attack e) 0; [exfalso; qc2q; lra |].
    apply Qc_ltb_lt in Hlong. rewrite Hlong. apply py_max_spec.
  - revert H H0. intros Hlt Hlong Hge. unfold Envelope_get_intensity.
    rewrite Hneg. apply Qc_ltb_lt in Hlt. rewrite Hlt.
    case_leb (attack e) 0; [exfalso; qc2q; lra |].
    apply Qc_ltb_lt in Hlong. rewrite Hlong. unfold py_max.
    case_ltb (frac 1 10) (tau / attack e); [reflexivity |].
    apply Qcle_antisym; assumption.
  - revert H H0. intros Hlt Hlong Hle. unfold Envelope_get_intensity.
    rewrite Hneg. apply Qc_ltb_lt in Hlt. rewrite Hlt.
    case_leb (attack e) 0; [exfalso; qc2q; lra |].
    apply Qc_ltb_lt in Hlong. rewrite Hlong. unfold py_max.
    case_ltb (frac 1 10) (tau / attack e); [| reflexivity].
    exfalso. qc2q. lra.
  - intros Hge Hlt. unfold Envelope_get_intensity. rewrite Hneg.
    apply Qc_ltb_ge in Hge. rewrite Hge. apply Qc_ltb_ge in Hge.
    case_ltb (tau - attack e) (decay e); [| exfalso; qc2q; lra].
    case_leb (decay e) 0; [exfalso; qc2q; lra | reflexivity].
  - intros Hdec Hge. unfold Envelope_get_intensity. rewrite Hneg.
    case_ltb tau (attack e); [exfalso; qc2q; lra |].
    case_ltb (tau - attack e) (decay e); [exfalso; qc2q; lra | reflexivity].
  - intros Hlt. unfold Envelope_get_release_intensity.
    case_leb (release e) 0; [exfalso; qc2q; lra |].
    case_leb (release e) tau; [exfalso; qc2q; lra | reflexivity].
  - intros Hge. unfold Envelope_get_release_intensity.
    case_leb (release e) 0; [reflexivity |].
    apply Qc_leb_le in Hge. rewrite Hge. reflexivity.
Qed.

Lemma envelope_intensity_piecewise_witness :
  Envelope_get_intensity punch_fade (frac 1 40) = 1 /\
  Envelope_get_intensity flash_fade (frac 1 20) = frac 1 20 / frac 1 10 /\
  Envelope_get_intensity flash_fade (frac 1 200) = frac 1 10 /\
  Envelope_get_intensity flash_fade (frac 6 10) =
    1 - (frac 6 10 - frac 1 10) / 1 * (1 - frac 1 2) /\
  Envelope_get_intensity flash_fade 2 = frac 1 2 /\
  Envelope_get_release_intensity flash_fade (frac 1 4) =
    frac 1 2 * (1 - frac 1 4 / frac 1 2) /\
  Envelope_get_release_intensity flash_fade 2 = 0.
Proof.
  refine (conj _ (conj _ (conj _ (conj _ (conj _ (conj _ _)))))).
  - apply (envelope_intensity_piecewise punch_fade (frac 1 40)); cbn; qc_eval.
  - apply (envelope_intensity_piecewise flash_fade (frac 1 20)); cbn; qc_eval.
  - apply (envelope_intensity_piecewise flash_fade (frac 1 200)); cbn; qc_eval.
  - apply (envelope_intensity_piecewise flash_fade (frac 6 10)); cbn; qc_eval.
  - apply (envelope_intensity_piecewise flash_fade 2); cbn; qc_eval.
  - apply (envelope_intensity_piecewise flash_fade (frac 1 4)); cbn; qc_eval.
  - apply (envelope_intensity_piecewise flash_fade 2); cbn; qc_eval.
Defined.

(** ** The clock consumer (C7) *)

(** C7, as stated, fails for "continue": in the middle of beat 5 the message
    puts the beat count back to 1 and the published position to 0, it does
    not leave them as they were. *)
Lemma continue_resets_beat_and_position :
  let s := handle_message (of_Z 1001) MsgContinue mid_bar_two in
  beat_count mid_bar_two = 5%Z /\ es_beat_position mid_bar_two = frac 9 2 /\
  tick_count s = 0%Z /\
  beat_count s <> beat_count mid_bar_two /\
  es_beat_count s <> es_beat_count mid_bar_two /\
  es_beat_position s <> es_beat_position mid_bar_two.
Proof.
  cbn. repeat split; try discriminate.
Qed.

(** C7, amended: "start" resets ticks to 0, beats to 1 and the published
    position to 0; "stop" changes nothing; "continue" does what "start" does
    (ticks 0, beats 1, published position 0); "song-position" at [pos]
    sixteenth notes sets [beat_count = pos/4 + 1] and
    [tick_count = (pos mod 4) * 6] and publishes the position that goes with
    them. *)
Theorem midi_special_messages (now : Qc) (s : ClockConsumer) (pos : Z) :
  (let s' := handle_message now MsgStart s in
   tick_count s' = 0%Z /\ beat_count s' = 1%Z /\
   es_beat_position s' = 0 /\ es_beat_count s' = 1%Z) /\
  handle_message now MsgStop s = s /\
  (let s' := handle_message now MsgContinue s in
   s' = handle_message now MsgStart s /\
   tick_count s' = 0%Z /\ beat_count s' = 1%Z /\
   es_beat_position s' = 0 /\ es_beat_count s' = 1%Z) /\
  (let s' := handle_message now (MsgSongpos pos) s in
   beat_count s' = (pos / 4 + 1)%Z /\
   tick_count s' = (pos mod 4 * 6)%Z /\
   es_beat_count s' = (pos / 4 + 1)%Z /\
   es_beat_position s' =
     of_Z (pos / 4) + of_Z (pos mod 4 * 6) / of_Z 24).
Proof.
  repeat split.
  cbn. unfold beat_position_of. cbn.
  replace (pos / 4 + 1 - 1)%Z with (pos / 4)%Z by lia.
  reflexivity.
Qed.

(** ** Gamma conversion (C9) *)

Section GammaFacts.
Local Open Scope R_scope.

Lemma clamp01_range (v : R) : 0 <= clamp01 v <= 1.
Proof.
  unfold clamp01, Rmax, Rmin.
  destruct (Rle_dec 1 v); destruct (Rle_dec 0 _); lra.
Qed.

Lemma py_pow_nonneg (x y : R) : 0 <= py_pow x y.
Proof.
  unfold py_pow. destruct (Req_dec_T x 0); [lra |].
  left. apply exp_pos.
Qed.

Lemma py_pow_le_1 (x y : R) : 0 <= x <= 1 -> 0 <= y -> py_pow x y <= 1.
Proof.
  intros [Hx0 Hx1] Hy. unfold py_pow. destruct (Req_dec_T x 0); [lra |].
  assert (Hpos : 0 < x) by lra.
  unfold Rpower. rewrite <- exp_0.
  destruct (Rle_lt_or_eq_dec _ _ Hx1) as [Hlt | ->].
  - destruct (Rle_lt_or_eq_dec _ _ Hy) as [Hy' | <-].
    + left. apply exp_increasing.
      assert (ln x < 0) by (rewrite <- ln_1; apply ln_increasing; lra).
      nra.
    + right. f_equal. lra.
  - rewrite ln_1. right. f_equal. lra.
Qed.

Lemma py_int_R_floor (x : R) (n : Z) :
  IZR n <= x < IZR n + 1 -> 0 <= x -> py_int_R x = n.
Proof.
  intros [Hlo Hhi] Hx. unfold py_int_R.
  destruct (Rle_dec 0 x); [| contradiction].
  symmetry. apply Int_part_spec. lra.
Qed.

Lemma pow5_lt_inv (a y : R) : 0 <= a -> 0 <= y -> a ^ 5 < y ^ 5 -> a < y.
Proof.
  intros Ha Hy H. destruct (Rlt_le_dec a y) as [| Hle]; [assumption |].
  exfalso. pose proof (pow_incr y a 5 (conj Hy Hle)). lra.
Qed.

(** [0.5 ** 2.2] is the fifth root of [0.5 ** 11]. *)
Lemma half_gamma_pow5 : (Rpower (1 / 2) gamma_default) ^ 5 = (1 / 2) ^ 11.
Proof.
  unfold gamma_default.
  rewrite <- Rpower_pow by apply exp_pos.
  rewrite Rpower_mult.
  replace (22 / 10 * INR 5) with (INR 11) by (simpl; lra).
  rewrite Rpower_pow by lra. reflexivity.
Qed.

Lemma half_gamma_bounds :
  14262 + 1 / 2 < py_pow (clamp01 (1 / 2)) gamma_default * 65535 < 14263.
Proof.
  assert (Hc : clamp01 (1 / 2) = 1 / 2).
  { unfold clamp01, Rmax, Rmin.
    destruct (Rle_dec 1 (1 / 2)); [lra |]. destruct (Rle_dec 0 (1 / 2)); lra. }
  rewrite Hc. unfold py_pow. destruct (Req_dec_T (1 / 2) 0); [lra |].
  pose proof half_gamma_pow5 as H.
  assert (Hpos : 0 < Rpower (1 / 2) gamma_default) by apply exp_pos.
  split.
  - assert ((14262 + 1 / 2) / 65535 < Rpower (1 / 2) gamma_default).
    { apply pow5_lt_inv; [lra | lra |]. rewrite H. lra. }
    lra.
  - assert (Rpower (1 / 2) gamma_default < 14263 / 65535).
    { apply pow5_lt_inv; [lra | lra |]. rewrite H. lra. }
    lra.
Qed.

(** C9, as stated, fails: for the channel value 0.5 the scaled power is
    between 14262.5 and 14263, the code emits 14262, and 14262 is not an
    integer nearest to it (that is 14263). *)
Lemma gamma_half_is_truncated :
  channel16 (1 / 2) gamma_default = 14262%Z /\
  ~ nearest_integer (channel16 (1 / 2) gamma_default)
      (py_pow (clamp01 (1 / 2)) gamma_default * 65535) /\
  nearest_integer 14263 (py_pow (clamp01 (1 / 2)) gamma_default * 65535).
Proof.
  pose proof half_gamma_bounds as [Hlo Hhi].
  assert (Hv : channel16 (1 / 2) gamma_default = 14262%Z).
  { unfold channel16. apply py_int_R_floor; lra. }
  split; [exact Hv |]. rewrite Hv. unfold nearest_integer. split.
  - intros Hn. unfold Rabs in Hn. destruct (Rcase_abs _) in Hn; lra.
  - unfold Rabs. destruct (Rcase_abs _); lra.
Qed.

(** C9, amended: the emitted channel is the clamped value raised to the
    power gamma and scaled to 65535, truncated to the integer below (not
    rounded to the nearest); with the default gamma it lies in 0..65535. *)
Theorem gamma_channel_is_floor (v gamma : R) :
  (IZR (channel16 v gamma) <= py_pow (clamp01 v) gamma * 65535 /\
   py_pow (clamp01 v) gamma * 65535 < IZR (channel16 v gamma) + 1) /\
  (0 <= channel16 v gamma_default <= 65535)%Z /\
  (forall r g b, rgb_to_rgb16 r g b gamma =
     (channel16 r gamma, channel16 g gamma, channel16 b gamma)).
Proof.
  assert (Hfloor : forall g : R,
    IZR (channel16 v g) <= py_pow (clamp01 v) g * 65535 /\
    py_pow (clamp01 v) g * 65535 < IZR (channel16 v g) + 1).
  { intros g. unfold channel16, py_int_R.
    pose proof (py_pow_nonneg (clamp01 v) g) as Hp.
    destruct (Rle_dec 0 _) as [_ | Hn]; [| exfalso; apply Hn; lra].
    pose proof (base_Int_part (py_pow (clamp01 v) g * 65535)). lra. }
  split; [apply Hfloor |]. split; [| reflexivity].
  destruct (Hfloor gamma_default) as [Hlo Hhi].
  pose proof (py_pow_nonneg (clamp01 v) gamma_default) as Hp0.
  assert (Hp1 : py_pow (clamp01 v) gamma_default <= 1).
  { apply py_pow_le_1; [apply clamp01_range | unfold gamma_default; lra]. }
  split.
  - apply le_IZR. assert (-1 < IZR (channel16 v gamma_default)) by lra.
    apply lt_IZR in H. apply IZR_le. lia.
  - apply le_IZR. lra.
Qed.

End GammaFacts.

(** ** Shuffling *)

Lemma list_insert_Permutation {A} (l : list A) (i : nat) (a b : A) :
  l !! i = Some a -> <[i := b]> l ≡ₚ b :: delete i l.
Proof.
  intros Hi. pose proof (lookup_lt_Some _ _ _ Hi) as Hlt.
  rewrite insert_take_drop by exact Hlt.
  rewrite delete_take_drop.
  symmetry. apply Permutation_middle.
Qed.

Lemma list_swap_Permutation {A} (l : list A) (i j : nat) :
  list_swap l i j ≡ₚ l.
Proof.
  unfold list_swap.
  destruct (l !! i) as [a |] eqn:Hi; [| reflexivity].
  destruct (l !! j) as [b |] eqn:Hj; [| reflexivity].
  destruct (decide (i = j)) as [-> | Hne].
  - rewrite list_insert_insert_eq.
    assert (a = b) as -> by congruence.
    rewrite list_insert_id by exact Hj. reflexivity.
  - assert (Hj' : <[i := b]> l !! j = Some b).
    { rewrite list_lookup_insert_ne by exact Hne. exact Hj. }
    etransitivity; [apply (list_insert_Permutation _ j b a Hj') |].
    etransitivity; [| symmetry; apply (delete_Permutation l i a Hi)].
    apply Permutation_cons; [reflexivity |].
    apply (Permutation_cons_inv (a := b)).
    etransitivity; [symmetry; apply (delete_Permutation _ j b Hj') |].
    apply (list_insert_Permutation l i a b Hi).
Qed.

Lemma list_swap_length {A} (l : list A) (i j : nat) :
  length (list_swap l i j) = length l.
Proof. apply Permutation_length, list_swap_Permutation. Qed.

Section ShuffleFacts.
Context `{PyRuntime}.

Lemma shuffle_loop_Permutation {A} (i : nat) :
  forall (g : rng) (x : list A), shuffle_loop g i x ≡ₚ x.
Proof.
  induction i as [| i IH]; intros g x; cbn; [reflexivity |].
  destruct (randbelow g (S (S i))) as [j g'].
  rewrite IH. apply list_swap_Permutation.
Qed.

Lemma rng_shuffle_Permutation {A} (g : rng) (x : list A) :
  rng_shuffle g x ≡ₚ x.
Proof. apply shuffle_loop_Permutation. Qed.

Lemma rng_shuffle_length {A} (g : rng) (x : list A) :
  length (rng_shuffle g x) = length x.
Proof. apply Permutation_length, rng_shuffle_Permutation. Qed.





End ShuffleFacts.

(** ** Truncation and floor *)

Lemma of_Z_le (a b : Z) : (a <= b)%Z <-> of_Z a <= of_Z b.
Proof. unfold Qcle. qc2q. rewrite Zle_Qle. reflexivity. Qed.

Lemma of_Z_lt (a b : Z) : (a < b)%Z <-> of_Z a < of_Z b.
Proof. unfold Qclt. qc2q. rewrite Zlt_Qlt. reflexivity. Qed.

Lemma py_floor_unique (x : Qc) (k : Z) :
  of_Z k <= x -> x < of_Z (k + 1) -> py_floor x = k.
Proof.
  intros Hlo Hhi. unfold py_floor.
  pose proof (Qfloor_le x) as Hf1. pose proof (Qlt_floor x) as Hf2.
  qc2q. rewrite inject_Z_plus in Hhi, Hf2.
  change (inject_Z 1) with 1%Q in Hhi, Hf2.
  assert (Qfloor x < k + 1)%Z.
  { rewrite Zlt_Qlt, inject_Z_plus. change (inject_Z 1) with 1%Q. lra. }
  assert (k < Qfloor x + 1)%Z.
  { rewrite Zlt_Qlt, inject_Z_plus. change (inject_Z 1) with 1%Q. lra. }
  lia.
Qed.

Lemma py_int_floor (x : Qc) : 0 <= x -> py_int x = py_floor x.
Proof.
  intros Hx. unfold py_int, py_floor, Qfloor. destruct x as [[n d] Hc].
  cbn in *. apply Z.quot_div_nonneg; [| lia].
  unfold Qcle, Qle in Hx. cbn in Hx.
  change (Qred 0) with 0%Q in Hx. cbn in Hx. lia.
Qed.

Lemma py_int_window (x : Qc) (k : Z) :
  (0 <= k)%Z -> of_Z k <= x -> x < of_Z (k + 1) -> py_int x = k.
Proof.
  intros Hk Hlo Hhi. rewrite py_int_floor.
  - apply py_floor_unique; assumption.
  - apply Qcle_trans with (of_Z k); [| exact Hlo].
    apply (of_Z_le 0 k). exact Hk.
Qed.


(** ** Palette resolution (C6) *)


Section PaletteFacts.
Context `{PyRuntime}.





End PaletteFacts.


(** ** Time scaling (C4) *)

Lemma limit_denominator_small (x : Qc) (m : Z) :
  (Z.pos (Qden x) <= m)%Z -> limit_denominator x m = x.
Proof.
  intros Hd. unfold limit_denominator.
  rewrite (proj2 (Z.leb_le _ _) Hd). reflexivity.
Qed.

Lemma Qc_pos_num (k : Qc) : 0 < k -> (0 < Qnum k)%Z.
Proof.
  unfold Qclt, Qlt. change (this 0) with 0%Q. cbn. lia.
Qed.

Lemma Qc_pos_neq_0 (k : Qc) : 0 < k -> k <> 0.
Proof. intros Hk ->. revert Hk. qc_eval. Qed.

(** The denominator of [1 / k] is the numerator of [k]. *)
Lemma Qc_inv_den (k : Qc) : 0 < k -> Z.pos (Qden (1 / k)%Qc) = Qnum k.
Proof.
  intros Hk. pose proof (Qc_pos_num k Hk) as Hn.
  unfold Qcdiv. rewrite Qcmult_1_l. unfold Qcinv. cbn [this Q2Qc].
  destruct k as [[n d] Hc]. cbn [this Qnum Qden] in *.
  destruct n as [| n | n]; try lia.
  assert (Hg : Z.gcd (Z.pos n) (Z.pos d) = 1%Z).
  { apply (proj1 (Qred_iff (Z.pos n # d))). exact Hc. }
  assert (Hr : Qred (/ (Z.pos n # d)) = (Z.pos d # n)).
  { apply Qred_iff. cbn. rewrite Z.gcd_comm. exact Hg. }
  rewrite Hr. reflexivity.
Qed.

Lemma LightHap_scale_Some (h : LightHap) (k : Qc) :
  k <> 0 -> LightHap_scale h k = Some (LightHap_compress k h).
Proof.
  intros Hk. unfold LightHap_scale, py_div.
  rewrite bool_decide_eq_false_2 by exact Hk. reflexivity.
Qed.

Lemma mapM_scale (haps : list LightHap) (k : Qc) :
  k <> 0 ->
  mapM (fun h => LightHap_scale h k) haps = Some (map (LightHap_compress k) haps).
Proof.
  intros Hk. induction haps as [| h haps IH]; [reflexivity |].
  cbn. rewrite LightHap_scale_Some by exact Hk. cbn.
  cbn in IH. rewrite IH. reflexivity.
Qed.

Lemma TimeSpan_scale_scale (s : TimeSpan) (a b : Qc) :
  TimeSpan_scale (TimeSpan_scale s a) b = TimeSpan_scale s (a * b).
Proof.
  destruct s as [x y]. unfold TimeSpan_scale. cbn. f_equal; ring.
Qed.

Lemma TimeSpan_scale_1 (s : TimeSpan) : TimeSpan_scale s 1 = s.
Proof.
  destruct s as [x y]. unfold TimeSpan_scale. cbn. f_equal; ring.
Qed.

Lemma LightHap_compress_inverse (k : Qc) (h : LightHap) :
  k <> 0 -> LightHap_compress (1 / k) (LightHap_compress k h) = h.
Proof.
  intros Hk. destruct h as [w p v]. unfold LightHap_compress. cbn.
  assert (Hone : 1 / k * (1 / (1 / k)) = 1).
  { field. split; [exact Hk | discriminate]. }
  f_equal.
  - destruct w as [w |]; cbn; [| reflexivity].
    rewrite TimeSpan_scale_scale, Hone, TimeSpan_scale_1. reflexivity.
  - rewrite TimeSpan_scale_scale, Hone, TimeSpan_scale_1. reflexivity.
Qed.

(** C4, as stated, fails: the factor goes through
    [limit_denominator(1000)].  For [k = 1001] the reciprocal becomes
    [1/1000], and over [[0, 1)] the round trip of [light("0")] returns two
    events where the pattern has one; for [k = 1/5000] the factor becomes
    zero, [p.fast(k)] has no event at all and neither has the round trip. *)
Lemma fast_round_trip_fails_beyond_1000 :
  let ctx := LightContext_default 6 in
  let span := mkTimeSpan 0 1 in
  limit_denominator (1 / of_Z 1001) 1000 = frac 1 1000 /\
  length <$> fast (1 / of_Z 1001) (fast (of_Z 1001) (light notation_0)) span ctx
    = Some 2%nat /\
  length <$> light notation_0 span ctx = Some 1%nat /\
  fast (1 / of_Z 1001) (fast (of_Z 1001) (light notation_0)) span ctx
    <> light notation_0 span ctx /\
  limit_denominator (frac 1 5000) 1000 = 0 /\
  fast (frac 1 5000) (light notation_0) span ctx = Some [] /\
  fast (1 / frac 1 5000) (fast (frac 1 5000) (light notation_0)) span ctx
    = Some [].
Proof.
  cbv zeta.
  split; [apply (bool_decide_unpack _); vm_compute; exact I |].
  split; [vm_compute; reflexivity |].
  split; [vm_compute; reflexivity |].
  split.
  { intros Heq. apply (f_equal (fmap length)) in Heq.
    vm_compute in Heq. discriminate. }
  split; [apply (bool_decide_unpack _); vm_compute; exact I |].
  split; vm_compute; reflexivity.
Qed.

(** C4, amended: for a rational factor [k > 0] whose numerator and
    denominator are at most 1000 (so that [limit_denominator(1000)] leaves
    [k] and [1/k] as they are), [p.fast(k).fast(1/k)] returns over every
    span what [p] returns; [slow(k)] is [fast(1/k)]; and over [[0, 1)] the
    events of [p.fast(k)] are the events of [p] over [[0, k)] with their
    times divided by [k]. *)
Theorem fast_round_trip (p : LightPattern) (k : Qc) (span : TimeSpan)
    (ctx : LightContext) :
  0 < k -> (Qnum k <= 1000)%Z -> (Z.pos (Qden k) <= 1000)%Z ->
  fast (1 / k) (fast k p) span ctx = p span ctx /\
  slow k p = Some (fast (1 / k) p) /\
  fast k p (mkTimeSpan 0 1) ctx =
    (haps ← p (mkTimeSpan 0 k) ctx; Some (map (LightHap_compress k) haps)).
Proof.
  intros Hk Hnum Hden.
  pose proof (Qc_pos_neq_0 k Hk) as Hne.
  assert (Hinv : 1 / k <> 0).
  { apply Qc_pos_neq_0. unfold Qcdiv. rewrite Qcmult_1_l.
    apply Qcinv_pos. exact Hk. }
  assert (Hl1 : limit_denominator k 1000 = k)
    by (apply limit_denominator_small; exact Hden).
  assert (Hl2 : limit_denominator (1 / k) 1000 = 1 / k).
  { apply limit_denominator_small. rewrite Qc_inv_den by exact Hk. exact Hnum. }
  split; [| split].
  - unfold fast. rewrite Hl1, Hl2. cbn [start end_].
    assert (Hspan : mkTimeSpan (start span * (1 / k) * k)
                      (end_ span * (1 / k) * k) = span).
    { destruct span as [s e]. cbn. f_equal; field; exact Hne. }
    rewrite Hspan.
    destruct (p span ctx) as [haps |]; [| reflexivity].
    cbn [mbind option_bind].
    rewrite (mapM_scale haps k Hne). cbn [mbind option_bind].
    rewrite (mapM_scale _ (1 / k) Hinv).
    f_equal. rewrite map_map. rewrite <- (map_id haps) at 2.
    apply map_ext. intros h. apply LightHap_compress_inverse. exact Hne.
  - unfold slow, py_div. rewrite bool_decide_eq_false_2 by exact Hne.
    reflexivity.
  - unfold fast. rewrite Hl1. cbn [start end_].
    rewrite Qcmult_0_l, Qcmult_1_l.
    destruct (p (mkTimeSpan 0 k) ctx) as [haps |]; [| reflexivity].
    cbn [mbind option_bind]. apply mapM_scale. exact Hne.
Qed.

Lemma fast_round_trip_witness :
  let ctx := LightContext_default 6 in
  let span := mkTimeSpan (frac 1 3) (frac 5 2) in
  fast (1 / frac 3 2) (fast (frac 3 2) (light notation_0_1)) span ctx =
    light notation_0_1 span ctx /\
  slow (frac 3 2) (light notation_0_1) =
    Some (fast (1 / frac 3 2) (light notation_0_1)).
Proof.
  cbv zeta.
  pose proof (fast_round_trip (light notation_0_1) (frac 3 2)
                (mkTimeSpan (frac 1 3) (frac 5 2)) (LightContext_default 6))
    as Hrt.
  destruct Hrt as (H1 & H2 & _).
  - qc_eval.
  - vm_compute. discriminate.
  - vm_compute. discriminate.
  - split; [exact H1 | exact H2].
Defined.

(** ** Group expansion (C10) *)

Lemma mapM_concat_elem {A B} (f : A -> option (list B)) (l : list A)
    (rs : list (list B)) (y : B) :
  mapM f l = Some rs -> y ∈ concat rs ->
  exists x out, x ∈ l /\ f x = Some out /\ y ∈ out.
Proof.
  intros Hm Hy. apply mapM_Some in Hm.
  induction Hm as [| x out l rs Hx Hrest IH]; cbn in Hy.
  - inversion Hy.
  - apply elem_of_app in Hy as [Hy | Hy].
    + exists x, out. split; [left | split; assumption].
    + destruct (IH Hy) as (x' & out' & Hin & Hf & Hy').
      exists x', out'. split; [right; exact Hin | split; assumption].
Qed.

Lemma seq_group_events_expanded (slots : option Z) (span : TimeSpan)
    (ctx : LightContext) (hap : LightHap) (lights : list Z)
    (out : list LightHap) :
  seq_group_events slots span ctx hap lights = Some out ->
  Forall (expanded_from hap) out.
Proof.
  unfold seq_group_events. destruct lights as [| l0 lights].
  { intros [= <-]. constructor. }
  destruct (seq_num_slots slots _ ctx) as [num_slots |]; [| discriminate].
  cbn [mbind option_bind]. intros [= <-].
  apply Forall_forall. intros h' Hin.
  apply in_flat_map in Hin as (slot & _ & Hin).
  destruct (TimeSpan_intersection _ span) as [inter |]; [| destruct Hin].
  destruct Hin as [<- | []].
  unfold expanded_from. cbn. repeat split; eauto.
Qed.

Lemma seq_hap_spec (slots : option Z) (per_group : bool) (span : TimeSpan)
    (ctx : LightContext) (hap : LightHap) (out : list LightHap) :
  seq_hap slots per_group span ctx hap = Some out ->
  (~ seq_expands hap /\ out = [hap]) \/
  (seq_expands hap /\ Forall (expanded_from hap) out).
Proof.
  unfold seq_hap, seq_expands.
  destruct (group_name (hap_value hap)) as [name |] eqn:Hg.
  - destruct (light_id (hap_value hap)) as [l |] eqn:Hl.
    + intros [= <-]. left. split; [| reflexivity]. intros [_ Hn]. discriminate.
    + destruct (mapM _ _) as [per_group_events |] eqn:Hm; [| discriminate].
      cbn [mbind option_bind]. intros [= <-]. right.
      split; [split; [eauto | reflexivity] |].
      apply Forall_forall. intros h' Hin. apply list_elem_of_In in Hin.
      destruct (mapM_concat_elem _ _ _ _ Hm Hin) as (lights & o & _ & Hf & Ho).
      apply seq_group_events_expanded in Hf.
      rewrite Forall_forall in Hf. apply Hf, list_elem_of_In, Ho.
  - intros [= <-]. left. split; [| reflexivity].
    intros [[x Hx] _]. discriminate.
Qed.

Section PickFacts.
Context `{PyRuntime}.

Lemma pick_hap_spec (min_n max_n : Count) (seed : option Z)
    (hold_frac : option Qc) (ctx : LightContext) (hap : LightHap)
    (out : list LightHap) :
  pick_hap min_n max_n seed hold_frac ctx hap = Some out ->
  (~ pick_expands hap /\ out = [hap]) \/
  (pick_expands hap /\
   Forall (fun h' => expanded_from hap h' /\ whole h' = whole hap /\
                     part h' = part hap) out).
Proof.
  unfold pick_hap, pick_expands.
  destruct (light_id (hap_value hap)) as [l |] eqn:Hl.
  { intros [= <-]. left. split; [discriminate | reflexivity]. }
  intros Hout. right. split; [reflexivity |].
  destruct (match group_name (hap_value hap) with
            | Some name => LightContext_resolve_group ctx name
            | None => py_range 0 (num_lights ctx)
            end) as [| l0 lights].
  { injection Hout as <-. constructor. }
  destruct (match hold_frac with
            | Some hf => _
            | None => _
            end) as [seed_time |]; [| discriminate].
  cbn [mbind option_bind] in Hout.
  destruct (rng_randint _ _ _) as [[n g'] |]; [| discriminate].
  cbn [mbind option_bind] in Hout. injection Hout as <-.
  apply Forall_forall. intros h' Hin. apply list_elem_of_In in Hin.
  apply list_elem_of_fmap in Hin as (lid & -> & _).
  unfold expanded_from. cbn. repeat split; eauto.
Qed.

(** C10.  Every event that [seq()] or [pick()] returns is either an event of
    the source that the transform does not expand, unchanged, or a per-light
    event made from a source event: it has the source's literal colour,
    intensity, envelope and modulator, and [color_ref = None] whatever the
    source's [color_ref] was.  A source event with a palette reference has
    no literal colour, so the events made from it resolve to the scheduler's
    default colour at render time, with any palette. *)
Theorem group_expansion_drops_color_ref (p : LightPattern)
    (slots : option Z) (per_group : bool)
    (min_n max_n : Count) (seed : option Z) (hold : option Qc)
    (span : TimeSpan) (ctx : LightContext) (haps : list LightHap) :
  p span ctx = Some haps ->
  (forall out, seq_transform slots per_group p span ctx = Some out ->
     Forall (fun h' =>
               (h' ∈ haps /\ ~ seq_expands h') \/
               (exists src, src ∈ haps /\ seq_expands src /\
                            expanded_from src h')) out) /\
  (forall out, pick_transform min_n max_n seed hold p span ctx = Some out ->
     Forall (fun h' =>
               (h' ∈ haps /\ ~ pick_expands h') \/
               (exists src, src ∈ haps /\ pick_expands src /\
                            expanded_from src h' /\
                            whole h' = whole src /\ part h' = part src)) out) /\
  (forall src h' ref,
     expanded_from src h' -> color_ref (hap_value src) = Some ref ->
     color (hap_value src) = None ->
     color_ref (hap_value h') = None /\
     forall sched event_index cycle_position,
       resolve_color sched (color (hap_value h')) (color_ref (hap_value h'))
         event_index cycle_position = Some (default_color sched)).
Proof.
  intros Hp. split; [| split].
  - intros out. unfold seq_transform. rewrite Hp. cbn [mbind option_bind].
    destruct (mapM _ haps) as [results |] eqn:Hm; [| discriminate].
    cbn [mbind option_bind]. intros [= <-].
    apply Forall_forall. intros h' Hin. apply list_elem_of_In in Hin.
    destruct (mapM_concat_elem _ _ _ _ Hm Hin) as (src & o & Hsrc & Hf & Ho).
    destruct (seq_hap_spec _ _ _ _ _ _ Hf) as [[Hn ->] | [He Hall]].
    + apply list_elem_of_singleton in Ho as ->. left. split; assumption.
    + right. exists src. split; [exact Hsrc | split; [exact He |]].
      rewrite Forall_forall in Hall. apply Hall, list_elem_of_In, Ho.
  - intros out. unfold pick_transform. rewrite Hp. cbn [mbind option_bind].
    destruct (mapM _ haps) as [results |] eqn:Hm; [| discriminate].
    cbn [mbind option_bind]. intros [= <-].
    apply Forall_forall. intros h' Hin. apply list_elem_of_In in Hin.
    destruct (mapM_concat_elem _ _ _ _ Hm Hin) as (src & o & Hsrc & Hf & Ho).
    destruct (pick_hap_spec _ _ _ _ _ _ _ Hf) as [[Hn ->] | [He Hall]].
    + apply list_elem_of_singleton in Ho as ->. left. split; assumption.
    + right. exists src. split; [exact Hsrc | split; [exact He |]].
      rewrite Forall_forall in Hall. apply Hall, list_elem_of_In, Ho.
  - intros src h' ref (_ & _ & Hc & _ & _ & _ & Hr) Hsrc_ref Hsrc_col.
    split; [exact Hr |]. intros sched event_index cycle_position.
    rewrite Hc, Hsrc_col, Hr. reflexivity.
Qed.

End PickFacts.

(** [light("all").color(palette.cycle).seq()] on six lights, over the first
    eighth of a cycle: the first slot of each of the two physical groups. *)
Lemma group_expansion_drops_color_ref_witness :
  let span := mkTimeSpan 0 (frac 1 8) in
  exists haps out,
    all_palette_cycle span six_lights = Some haps /\
    seq_transform None true all_palette_cycle span six_lights = Some out /\
    length haps = 1%nat /\ length out = 2%nat /\
    Forall (fun h' =>
              (h' ∈ haps /\ ~ seq_expands h') \/
              (exists src, src ∈ haps /\ seq_expands src /\
                           expanded_from src h')) out.
Proof.
  cbv zeta.
  destruct (all_palette_cycle (mkTimeSpan 0 (frac 1 8)) six_lights)
    as [haps |] eqn:Hp; [| vm_compute in Hp; discriminate].
  destruct (seq_transform None true all_palette_cycle
              (mkTimeSpan 0 (frac 1 8)) six_lights)
    as [out |] eqn:Hs; [| vm_compute in Hs; discriminate].
  exists haps, out.
  split; [reflexivity |]. split; [reflexivity |].
  split.
  { apply (f_equal (fmap length)) in Hp. vm_compute in Hp.
    injection Hp as Hp. symmetry. exact Hp. }
  split.
  { apply (f_equal (fmap length)) in Hs. vm_compute in Hs.
    injection Hs as Hs. symmetry. exact Hs. }
  exact (proj1 (group_expansion_drops_color_ref (H := lcg_runtime)
                  all_palette_cycle None true (CountInt 1) (CountInt 1)
                  None None (mkTimeSpan 0 (frac 1 8)) six_lights haps Hp)
           out Hs).
Defined.

(** ** Shuffle (C3) *)

Lemma insert_sorted_Permutation (h : LightHap) (l : list LightHap) :
  insert_sorted h l ≡ₚ h :: l.
Proof.
  induction l as [| x l IH]; cbn; [reflexivity |].
  destruct (key_leb _ _); [reflexivity |].
  rewrite IH. apply perm_swap.
Qed.

Lemma sort_haps_Permutation (l : list LightHap) : sort_haps l ≡ₚ l.
Proof.
  induction l as [| h l IH]; cbn; [reflexivity |].
  rewrite insert_sorted_Permutation, IH. reflexivity.
Qed.

Lemma py_max_l (a b : Qc) : b <= a -> py_max a b = a.
Proof.
  intros Hle. unfold py_max. case_ltb a b; [| reflexivity].
  exfalso. qc2q. lra.
Qed.

Lemma py_min_l (a b : Qc) : a <= b -> py_min a b = a.
Proof.
  intros Hle. unfold py_min. case_ltb b a; [| reflexivity].
  exfalso. qc2q. lra.
Qed.

Lemma intersection_inside (c : Z) (h : LightHap) :
  part_inside c h ->
  TimeSpan_intersection (part h) (cycle_span c) = Some (part h).
Proof.
  intros (Hlo & Hne & Hhi). unfold TimeSpan_intersection, cycle_span.
  cbn [start end_].
  rewrite py_max_l by exact Hlo. rewrite py_min_l by exact Hhi.
  rewrite (proj2 (Qc_ltb_lt _ _) Hne). destruct (part h); reflexivity.
Qed.

Lemma intersection_before (c : Z) (h : LightHap) (w : TimeSpan) :
  part_inside c h -> end_ w <= of_Z c ->
  TimeSpan_intersection (part h) w = None.
Proof.
  intros (Hlo & Hne & Hhi) Hw. unfold TimeSpan_intersection.
  pose proof (py_max_spec (start (part h)) (start w)) as [Hm _].
  pose proof (py_min_spec (end_ (part h)) (end_ w)) as [_ Hn].
  rewrite (proj2 (Qc_ltb_ge _ _)); [reflexivity |].
  apply Qcle_trans with (end_ w); [exact Hn |].
  apply Qcle_trans with (of_Z c); [exact Hw |].
  apply Qcle_trans with (start (part h)); assumption.
Qed.

Lemma seen_in_cycle (c : Z) (l : list LightHap) :
  Forall (part_inside c) l -> flat_map (seen_in (cycle_span c)) l = l.
Proof.
  induction 1 as [| h l Hh _ IH]; cbn; [reflexivity |].
  unfold seen_in at 1. rewrite intersection_inside by exact Hh.
  cbn. rewrite IH. destruct h; reflexivity.
Qed.

Lemma seen_in_before (c : Z) (w : TimeSpan) (l : list LightHap) :
  Forall (part_inside c) l -> end_ w <= of_Z c -> flat_map (seen_in w) l = [].
Proof.
  intros Hall Hw. induction Hall as [| h l Hh _ IH]; cbn; [reflexivity |].
  unfold seen_in at 1. rewrite (intersection_before c) by assumption.
  exact IH.
Qed.

(** The events of a cycle with their values reassigned. *)
Lemma combine_timings_values (sorted : list LightHap) (values : list LightValue)
    (span : TimeSpan) :
  length values = length sorted ->
  let assigned :=
    map (fun '((w, p), v) => mkLightHap w p v)
        (combine (map (fun h => (whole h, part h)) sorted) values) in
  flat_map
    (fun '((w, p), v) =>
       match TimeSpan_intersection p span with
       | Some intersection => [mkLightHap w intersection v]
       | None => []
       end)
    (combine (map (fun h => (whole h, part h)) sorted) values)
  = flat_map (seen_in span) assigned /\
  map timing assigned = map timing sorted /\
  map hap_value assigned = values.
Proof.
  revert values. induction sorted as [| h sorted IH]; intros [| v values] Hlen;
    cbn in Hlen; try discriminate; cbn zeta.
  - repeat split.
  - injection Hlen as Hlen. destruct (IH values Hlen) as (Hf & Ht & Hv).
    cbn [map combine flat_map]. rewrite Hf, Ht, Hv.
    split; [| split; reflexivity].
    unfold seen_in at 2. cbn [part].
    destruct (TimeSpan_intersection (part h) span); reflexivity.
Qed.

Lemma Forall_part_inside_timing (c : Z) (l l' : list LightHap) :
  map timing l' ≡ₚ map timing l ->
  Forall (part_inside c) l -> Forall (part_inside c) l'.
Proof.
  intros Hperm Hall.
  assert (Hl : Forall (fun t : option TimeSpan * TimeSpan =>
                         of_Z c <= start (snd t) /\ start (snd t) < end_ (snd t) /\
                         end_ (snd t) <= of_Z (c + 1)) (map timing l)).
  { apply Forall_map. exact Hall. }
  rewrite <- Hperm in Hl. apply Forall_map in Hl. exact Hl.
Qed.

Section ShuffleCycle.
Context `{PyRuntime}.

(** One cycle of the shuffle: the events [assigned] of the cycle with their
    values permuted, of which a query sees what falls into its span. *)
Lemma shuffle_cycle_spec (seed : option Z) (p : LightPattern)
    (ctx : LightContext) (c : Z) (haps : list LightHap) :
  p (cycle_span c) ctx = Some haps ->
  exists assigned,
    map timing assigned = map timing (sort_haps haps) /\
    map hap_value assigned ≡ₚ map hap_value haps /\
    forall span,
      shuffle_cycle seed p span ctx c = Some (flat_map (seen_in span) assigned).
Proof.
  intros Hp. unfold shuffle_cycle. fold (cycle_span c). rewrite Hp.
  cbn [mbind option_bind].
  destruct (length haps <=? 1)%nat eqn:Hlen.
  - exists haps. split; [| split; [reflexivity | reflexivity]].
    destruct haps as [| h [| h' haps]]; try reflexivity.
    cbn in Hlen. discriminate.
  - set (g := Random _).
    set (values := rng_shuffle g (map hap_value (sort_haps haps))).
    assert (Hl : length values = length (sort_haps haps)).
    { unfold values. rewrite rng_shuffle_length, length_map. reflexivity. }
    pose proof (fun span => combine_timings_values (sort_haps haps) values span Hl)
      as Hc.
    cbn zeta in Hc.
    eexists. split; [apply (Hc (cycle_span c)) |].
    split.
    + rewrite (proj2 (proj2 (Hc (cycle_span c)))). unfold values.
      rewrite rng_shuffle_Permutation.
      apply Permutation_map, sort_haps_Permutation.
    + intros span. f_equal. apply (Hc span).
Qed.

End ShuffleCycle.

Lemma of_Z_this (c : Z) : this (of_Z c) = inject_Z c.
Proof.
  unfold of_Z. cbn [this Q2Qc]. apply Qred_identity.
  cbn. apply Z.gcd_1_r.
Qed.

Lemma py_int_of_Z (c : Z) : py_int (of_Z c) = c.
Proof. unfold py_int. rewrite of_Z_this. cbn. apply Z.quot_1_r. Qed.

Lemma py_range_one (c : Z) : py_range c (c + 1) = [c].
Proof.
  unfold py_range. replace (c + 1 - c)%Z with 1%Z by lia.
  change (Z.to_nat 1) with 1%nat. cbn [seq map].
  f_equal. lia.
Qed.

Lemma py_range_two (c : Z) : py_range c (c + 1 + 1) = [c; (c + 1)%Z].
Proof.
  unfold py_range. replace (c + 1 + 1 - c)%Z with 2%Z by lia.
  change (Z.to_nat 2) with 2%nat. cbn [seq map].
  replace (c + Z.of_nat 0)%Z with c by lia. reflexivity.
Qed.

Lemma mapM_cons_Some {A B} (f : A -> option B) (x : A) (l : list A)
    (y : B) (k : list B) :
  f x = Some y -> mapM f l = Some k -> mapM f (x :: l) = Some (y :: k).
Proof. intros Hx Hl. cbn. rewrite Hx. cbn. cbn in Hl. rewrite Hl. reflexivity. Qed.

Section ShuffleFactsC3.
Context `{PyRuntime}.

(** C3, amended.  Let the events of [p] over cycle [c] and over cycle [c+1]
    have non-empty parts inside the cycle queried (patterns keep the part of
    an event inside the query span).  Then the query of [p.shuffle()] over
    cycle [c] returns events with the whole/part timings of [p]'s events,
    in the order of the sort by start time, and with a permutation of their
    values; and for [c >= 0] the query of any window inside cycle [c] returns
    what falls into the window of these same events: every window sees the
    same assignment of values to time slots. *)
Theorem shuffle_keeps_slots (seed : option Z) (p : LightPattern)
    (ctx : LightContext) (c : Z) (haps next : list LightHap) :
  p (cycle_span c) ctx = Some haps -> Forall (part_inside c) haps ->
  p (cycle_span (c + 1)) ctx = Some next -> Forall (part_inside (c + 1)) next ->
  exists out,
    shuffle_transform seed p (cycle_span c) ctx = Some out /\
    map timing out = map timing (sort_haps haps) /\
    map timing out ≡ₚ map timing haps /\
    map hap_value out ≡ₚ map hap_value haps /\
    ((0 <= c)%Z ->
     forall w, of_Z c <= start w -> start w < end_ w -> end_ w <= of_Z (c + 1) ->
       shuffle_transform seed p w ctx = Some (flat_map (seen_in w) out)).
Proof.
  intros Hp Hin Hn Hnin.
  destruct (shuffle_cycle_spec seed p ctx c haps Hp) as (out & Ht & Hv & Hc).
  destruct (shuffle_cycle_spec seed p ctx (c + 1) next Hn)
    as (out' & Ht' & _ & Hc').
  assert (Htp : map timing out ≡ₚ map timing haps).
  { rewrite Ht. apply Permutation_map, sort_haps_Permutation. }
  assert (Hout : Forall (part_inside c) out)
    by (apply (Forall_part_inside_timing c haps); assumption).
  assert (Hout' : Forall (part_inside (c + 1)) out').
  { apply (Forall_part_inside_timing (c + 1) next); [| exact Hnin].
    rewrite Ht'. apply Permutation_map, sort_haps_Permutation. }
  exists out. split; [| split; [exact Ht | split; [exact Htp | split; [exact Hv |]]]].
  - unfold shuffle_transform. cbn [cycle_span start end_].
    rewrite !py_int_of_Z, py_range_two.
    rewrite (mapM_cons_Some _ c [(c + 1)%Z] _ _ (Hc (cycle_span c))
               (mapM_cons_Some _ (c + 1)%Z [] _ _ (Hc' (cycle_span c)) eq_refl)).
    cbn [mbind option_bind concat]. f_equal.
    rewrite (seen_in_cycle c out Hout).
    rewrite (seen_in_before (c + 1) (cycle_span c) out' Hout')
      by apply Qcle_refl.
    rewrite app_nil_r. reflexivity.
  - intros Hc0 w Hlo Hne Hhi. unfold shuffle_transform.
    assert (Hs : py_int (start w) = c).
    { apply py_int_window; [exact Hc0 | exact Hlo |].
      apply Qclt_le_trans with (end_ w); assumption. }
    rewrite Hs.
    destruct (Qcle_lt_or_eq _ _ Hhi) as [Hlt | Heq].
    + assert (He : py_int (end_ w) = c).
      { apply py_int_window; [exact Hc0 | | exact Hlt].
        apply Qclt_le_weak. apply Qcle_lt_trans with (start w); assumption. }
      rewrite He, py_range_one.
      rewrite (mapM_cons_Some _ c [] _ _ (Hc w) eq_refl).
      cbn [mbind option_bind concat]. rewrite app_nil_r. reflexivity.
    + rewrite Heq, py_int_of_Z, py_range_two.
      rewrite (mapM_cons_Some _ c [(c + 1)%Z] _ _ (Hc w)
                 (mapM_cons_Some _ (c + 1)%Z [] _ _ (Hc' w) eq_refl)).
      cbn [mbind option_bind concat]. f_equal.
      rewrite (seen_in_before (c + 1) w out' Hout')
        by (rewrite Heq; apply Qcle_refl).
      rewrite app_nil_r. reflexivity.
Qed.

End ShuffleFactsC3.

(** The parts of a concrete list of events lie inside a cycle. *)
Ltac solve_part_inside :=
  repeat first
    [ apply Forall_nil
    | apply Forall_cons; [unfold part_inside; cbn [part start end_];
                          repeat split; qc_eval |] ].

(** C3, as stated, fails for a cycle before zero: [int()] rounds a negative
    time up, so the query of the window [[-1/2, -1/4)] of cycle [-1] looks at
    cycle 0 and returns nothing, while the query of the full cycle [-1]
    assigns a value to the slot [[-1/2, 0)].  The window [[-1, -1/4)] of the
    same cycle starts on the cycle, is looked up in cycle [-1] and does see
    that slot over [[-1/2, -1/4)]: two windows of one cycle that do not
    observe the same assignment.  Such windows are queried: a frame at beat 0
    of [p.shuffle().late(0.25)] queries [p.shuffle()] over [[-1/4, -23/100)]
    and gets no event. *)
Lemma shuffle_window_before_zero :
  let p := light notation_0_1 in
  let ctx := LightContext_default 6 in
  let w := mkTimeSpan (frac (-1) 2) (frac (-1) 4) in
  let w' := mkTimeSpan (of_Z (-1)) (frac (-1) 4) in
  exists haps next out out',
    p (cycle_span (-1)) ctx = Some haps /\ Forall (part_inside (-1)) haps /\
    p (cycle_span 0) ctx = Some next /\ Forall (part_inside 0) next /\
    (of_Z (-1) <= start w /\ start w < end_ w /\ end_ w <= of_Z 0) /\
    (of_Z (-1) <= start w' /\ start w' < end_ w' /\ end_ w' <= of_Z 0) /\
    shuffle_transform (H := lcg_runtime) None p (cycle_span (-1)) ctx = Some out /\
    shuffle_transform (H := lcg_runtime) None p w ctx = Some [] /\
    flat_map (seen_in w) out <> [] /\
    shuffle_transform (H := lcg_runtime) None p w' ctx = Some out' /\
    Exists (fun h => part h = w) out' /\
    late (frac 1 4) (shuffle_transform (H := lcg_runtime) None p)
      (frame_query_span 0) ctx = Some [].
Proof.
  cbv zeta. eexists _, _, _, _.
  split; [vm_compute; reflexivity |].
  split; [solve_part_inside |].
  split; [vm_compute; reflexivity |].
  split; [solve_part_inside |].
  split; [cbn [start end_]; repeat split; qc_eval |].
  split; [cbn [start end_]; repeat split; qc_eval |].
  split; [vm_compute; reflexivity |].
  split; [vm_compute; reflexivity |].
  split; [vm_compute; discriminate |].
  split; [vm_compute; reflexivity |].
  split; [apply (bool_decide_unpack _); vm_compute; exact I |].
  vm_compute. reflexivity.
Qed.

Lemma shuffle_keeps_slots_witness :
  let p := light notation_0_1 in
  let ctx := LightContext_default 6 in
  let w := mkTimeSpan (frac 1 4) (frac 3 4) in
  exists haps out,
    p (cycle_span 0) ctx = Some haps /\
    shuffle_transform (H := lcg_runtime) None p (cycle_span 0) ctx = Some out /\
    map timing out ≡ₚ map timing haps /\
    map hap_value out ≡ₚ map hap_value haps /\
    shuffle_transform (H := lcg_runtime) None p w ctx
      = Some (flat_map (seen_in w) out) /\
    length (flat_map (seen_in w) out) = 2%nat.
Proof.
  cbv zeta.
  destruct (light notation_0_1 (cycle_span 0) (LightContext_default 6))
    as [haps |] eqn:Hp; [| vm_compute in Hp; discriminate].
  destruct (light notation_0_1 (cycle_span (0 + 1)) (LightContext_default 6))
    as [next |] eqn:Hn; [| vm_compute in Hn; discriminate].
  assert (Hin : Forall (part_inside 0) haps).
  { vm_compute in Hp. injection Hp as <-. solve_part_inside. }
  assert (Hnin : Forall (part_inside (0 + 1)) next).
  { vm_compute in Hn. injection Hn as <-. solve_part_inside. }
  destruct (shuffle_keeps_slots (H := lcg_runtime) None (light notation_0_1)
              (LightContext_default 6) 0 haps next Hp Hin Hn Hnin)
    as (out & Hout & _ & Ht & Hv & Hw).
  exists haps, out.
  split; [reflexivity |]. split; [exact Hout |].
  split; [exact Ht |]. split; [exact Hv |].
  assert (Hwin : shuffle_transform (H := lcg_runtime) None (light notation_0_1)
                   (mkTimeSpan (frac 1 4) (frac 3 4)) (LightContext_default 6)
                 = Some (flat_map (seen_in (mkTimeSpan (frac 1 4) (frac 3 4))) out)).
  { apply Hw; [lia | | |]; cbn [start end_]; qc_eval. }
  split; [exact Hwin |].
  apply (f_equal (fmap length)) in Hwin. vm_compute in Hwin.
  injection Hwin as Hwin. symmetry. exact Hwin.
Defined.

(** ** Loops that may raise *)



Lemma for_each_invariant {I S} (P : S -> Prop) (body : I -> S -> Outcome S)
    (items : list I) (s : S) :
  (forall i s, i ∈ items -> P s -> P (final_state (body i s))) ->
  P s -> P (final_state (for_each body items s)).
Proof.
  revert s. induction items as [| i items IH]; intros s Hstep Hs; cbn;
    [exact Hs |].
  pose proof (Hstep i s ltac:(left) Hs) as Hi.
  destruct (body i s) as [s' | s']; cbn in Hi; [| exact Hi].
  apply IH; [| exact Hi]. intros j t Hj. apply Hstep. right. exact Hj.
Qed.


(** ** The first pass, flattened *)

Section FirstPass.
Context `{PyRuntime}.


End FirstPass.

(** ** Highest takes precedence (C1) *)




Lemma htp_write_other (l l' : Z) (c : HSV) (i : Qc) (cs cs' : gmap Z RGB)
    (ints ints' : gmap Z Qc) :
  htp_write l c i cs ints = (cs', ints') -> l' <> l ->
  cs' !! l' = cs !! l' /\ ints' !! l' = ints !! l'.
Proof.
  unfold htp_write. intros Hw Hne.
  destruct (ints !! l) as [m |]; [destruct (Qc_ltb m i) |];
    injection Hw as <- <-; rewrite ?lookup_insert_ne by congruence; auto.
Qed.


Section HTP.
Context `{PyRuntime}.






End HTP.

(** ** The second pass and the black fill *)

Section SecondPass.
Context `{PyRuntime}.




End SecondPass.

Lemma elem_of_py_range (a b l : Z) : l ∈ py_range a b <-> (a <= l < b)%Z.
Proof.
  unfold py_range. rewrite list_elem_of_fmap. split.
  - intros (i & -> & Hi). apply elem_of_seq in Hi. lia.
  - intros Hl. exists (Z.to_nat (l - a)). split; [lia |].
    apply elem_of_seq. lia.
Qed.


Section ComputeColors.
Context `{PyRuntime}.



End ComputeColors.



(** ** Totality of the frame (C2) *)

Lemma lookup_fold_delete {A} (expired : list Z) (m : gmap Z A) (l : Z) (x : A) :
  fold_left (fun m l => delete l m) expired m !! l = Some x -> m !! l = Some x.
Proof.
  revert m. induction expired as [| e expired IH]; intros m; cbn; [auto |].
  intros Hl. apply IH in Hl. apply lookup_delete_Some in Hl as [_ Hl]. exact Hl.
Qed.

Section Totality.
Context `{PyRuntime}.









End Totality.

Section Returns.
Context `{PyRuntime}.















End Returns.



(** ** Further facts about the embedded functions *)

(** The doubling loop of [seq] reaches the size of the group. *)
Lemma double_until_reaches (fuel : nat) (s n : Z) :
  (0 < s)%Z -> (n <= s * 2 ^ Z.of_nat fuel)%Z ->
  (n <= double_until fuel s n)%Z.
Proof.
  revert s. induction fuel as [| fuel IH]; intros s Hs Hn.
  - cbn in *. lia.
  - cbn [double_until]. destruct (s <? n)%Z eqn:Hlt.
    + apply IH; [lia |].
      rewrite Nat2Z.inj_succ, Z.pow_succ_r in Hn by lia. lia.
    + apply Z.ltb_ge in Hlt. exact Hlt.
Qed.

Lemma seq_num_slots_covers (n : Z) (ctx : LightContext) (num_slots : Z) :
  (0 < n)%Z -> seq_num_slots None n ctx = Some num_slots -> (n <= num_slots)%Z.
Proof.
  intros Hn. unfold seq_num_slots. destruct (4 <? n)%Z; intros [= <-]; [| lia].
  apply double_until_reaches; [lia |].
  assert (Z.of_nat (Z.to_nat n) < 2 ^ Z.of_nat (Z.to_nat n))%Z
    by (apply Z.pow_gt_lin_r; lia).
  lia.
Qed.

(** The order on the keys is total, and the sort puts the events in it. *)
Lemma key_leb_total (a b : Qc * Z) : key_leb a b = false -> key_leb b a = true.
Proof.
  unfold key_leb. destruct a as [a1 a2], b as [b1 b2]. cbn [fst snd].
  intros Hf. apply orb_false_iff in Hf as [Hlt Heq].
  apply Qc_ltb_ge in Hlt.
  destruct (Qcle_lt_or_eq _ _ Hlt) as [Hlt' | ->].
  - rewrite (proj2 (Qc_ltb_lt _ _) Hlt'). reflexivity.
  - rewrite bool_decide_eq_true_2 in Heq by reflexivity.
    rewrite bool_decide_eq_true_2 by reflexivity. cbn in Heq.
    apply Z.leb_gt in Heq.
    rewrite (proj2 (Z.leb_le _ _)) by lia. apply orb_true_r.
Qed.

Lemma key_leb_trans (a b c : Qc * Z) :
  key_leb a b = true -> key_leb b c = true -> key_leb a c = true.
Proof.
  unfold key_leb. destruct a as [a1 a2], b as [b1 b2], c as [c1 c2].
  cbn [fst snd]. intros Hab Hbc.
  apply orb_true_iff in Hab as [Hab | Hab];
    apply orb_true_iff in Hbc as [Hbc | Hbc].
  - apply Qc_ltb_lt in Hab, Hbc.
    rewrite (proj2 (Qc_ltb_lt _ _)); [reflexivity |].
    apply Qclt_trans with b1; assumption.
  - apply andb_true_iff in Hbc as [Hbc _]. apply bool_decide_eq_true in Hbc.
    subst c1. rewrite Hab. reflexivity.
  - apply andb_true_iff in Hab as [Hab _]. apply bool_decide_eq_true in Hab.
    subst b1. rewrite Hbc. reflexivity.
  - apply andb_true_iff in Hab as [Hab1 Hab2].
    apply andb_true_iff in Hbc as [Hbc1 Hbc2].
    apply bool_decide_eq_true in Hab1, Hbc1. subst b1 c1.
    rewrite bool_decide_eq_true_2 by reflexivity.
    apply Z.leb_le in Hab2, Hbc2.
    rewrite (proj2 (Z.leb_le _ _)) by lia. apply orb_true_r.
Qed.

Lemma insert_sorted_sorted (h : LightHap) (l : list LightHap) :
  StronglySorted (fun a b => key_leb (sort_key a) (sort_key b) = true) l ->
  StronglySorted (fun a b => key_leb (sort_key a) (sort_key b) = true)
    (insert_sorted h l).
Proof.
  induction 1 as [| x l Hl IH Hx]; cbn.
  - constructor; constructor.
  - destruct (key_leb (sort_key h) (sort_key x)) eqn:Hhx.
    + constructor; [constructor; assumption |].
      constructor; [exact Hhx |].
      eapply List.Forall_impl; [| exact Hx]. cbn. intros y Hy.
      eapply key_leb_trans; eassumption.
    + constructor; [exact IH |].
      apply key_leb_total in Hhx.
      eapply Permutation_Forall;
        [symmetry; apply insert_sorted_Permutation |].
      constructor; assumption.
Qed.

Lemma sort_haps_sorted (l : list LightHap) :
  StronglySorted (fun a b => key_leb (sort_key a) (sort_key b) = true)
    (sort_haps l).
Proof.
  induction l as [| h l IH]; cbn; [constructor |].
  apply insert_sorted_sorted, IH.
Qed.

(** [light(notation)] over whole cycles, and [fast] by a whole number. *)
Lemma flat_map_nil_on {A B} (f : A -> list B) (l : list A) :
  Forall (fun a => f a = []) l -> flat_map f l = [].
Proof.
  induction 1 as [| a l Ha _ IH]; cbn; [reflexivity |].
  rewrite Ha, IH. reflexivity.
Qed.

Lemma flat_map_map_on {A B} (f : A -> list B) (g : A -> B) (l : list A) :
  Forall (fun a => f a = [g a]) l -> flat_map f l = map g l.
Proof.
  induction 1 as [| a l Ha _ IH]; cbn; [reflexivity |].
  rewrite Ha, IH. reflexivity.
Qed.

Lemma py_range_snoc (n : Z) :
  (0 <= n)%Z -> py_range 0 (n + 1) = py_range 0 n ++ [n].
Proof.
  intros Hn. unfold py_range.
  replace (Z.to_nat (n + 1 - 0)) with (S (Z.to_nat (n - 0))) by lia.
  rewrite seq_S, map_app. cbn [map]. repeat f_equal. lia.
Qed.

Lemma of_Z_succ (c : Z) : of_Z (c + 1) = of_Z c + 1.
Proof.
  apply Qc_is_canon. qc2q. rewrite inject_Z_plus. reflexivity.
Qed.

Lemma flat_map_ext_on {A B} (f g : A -> list B) (l : list A) :
  Forall (fun a => f a = g a) l -> flat_map f l = flat_map g l.
Proof.
  induction 1 as [| a l Ha _ IH]; cbn; [reflexivity |].
  rewrite Ha, IH. reflexivity.
Qed.

Lemma light_cycle_inside (event_data : list EventData) (n c : Z) :
  event_data_wf event_data -> (0 <= c < n)%Z ->
  flat_map
    (fun '(s, e, lid, g) =>
       let whole := mkTimeSpan (s + of_Z c) (e + of_Z c) in
       match TimeSpan_intersection whole (mkTimeSpan 0 (of_Z n)) with
       | Some intersection =>
           [mkLightHap (Some whole) intersection (LightValue_new lid g)]
       | None => []
       end)
    event_data
  = cycle_events event_data c.
Proof.
  intros Hwf Hc. unfold cycle_events. apply flat_map_map_on.
  eapply List.Forall_impl; [| exact Hwf].
  intros [[[s e] lid] g] (Hs & Hse & He). cbv zeta.
  unfold TimeSpan_intersection. cbn [start end_].
  assert (H0 : 0 <= of_Z c).
  { apply (proj1 (of_Z_le 0 c)). lia. }
  assert (H1 : of_Z c + 1 <= of_Z n).
  { rewrite <- of_Z_succ. apply (proj1 (of_Z_le (c + 1) n)). lia. }
  assert (Hlo : 0 <= s + of_Z c) by (revert Hs H0; qc2q; lra).
  assert (Hhi : e + of_Z c <= of_Z n) by (revert He H1; qc2q; lra).
  rewrite (py_max_l _ _ Hlo), (py_min_l _ _ Hhi).
  rewrite (proj2 (Qc_ltb_lt _ _)) by (revert Hse; qc2q; lra).
  reflexivity.
Qed.

Lemma light_cycle_outside (event_data : list EventData) (n : Z) :
  event_data_wf event_data -> (0 <= n)%Z ->
  flat_map
    (fun '(s, e, lid, g) =>
       let whole := mkTimeSpan (s + of_Z n) (e + of_Z n) in
       match TimeSpan_intersection whole (mkTimeSpan 0 (of_Z n)) with
       | Some intersection =>
           [mkLightHap (Some whole) intersection (LightValue_new lid g)]
       | None => []
       end)
    event_data
  = [].
Proof.
  intros Hwf Hn. apply flat_map_nil_on.
  eapply List.Forall_impl; [| exact Hwf].
  intros [[[s e] lid] g] (Hs & Hse & He). cbv zeta.
  unfold TimeSpan_intersection. cbn [start end_].
  assert (H0 : 0 <= of_Z n).
  { apply (proj1 (of_Z_le 0 n)). lia. }
  assert (Hlo : 0 <= s + of_Z n) by (revert Hs H0; qc2q; lra).
  rewrite (py_max_l _ _ Hlo).
  replace (Qc_ltb (s + of_Z n) (py_min (e + of_Z n) (of_Z n))) with false;
    [reflexivity |].
  symmetry. apply Qc_ltb_ge.
  eapply Qcle_trans; [apply (proj2 (py_min_spec _ _)) |].
  revert Hs. qc2q. lra.
Qed.

(** Over the cycles [[0, n)], [light(notation)] returns the slots of the
    notation once in each cycle, in the order of the cycles. *)
Lemma light_whole_cycles (event_data : list EventData) (n : Z)
    (ctx : LightContext) :
  event_data_wf event_data -> (0 <= n)%Z ->
  light event_data (mkTimeSpan 0 (of_Z n)) ctx =
    Some (flat_map (cycle_events event_data) (py_range 0 n)).
Proof.
  intros Hwf Hn. unfold light. cbn [start end_]. cbv zeta.
  rewrite py_int_of_Z. change (py_int 0) with 0%Z.
  rewrite py_range_snoc by exact Hn.
  rewrite flat_map_app. cbn [flat_map].
  pose proof (light_cycle_outside event_data n Hwf Hn) as Hout.
  cbv zeta in Hout. rewrite Hout, !app_nil_r.
  f_equal. apply flat_map_ext_on.
  apply List.Forall_forall. intros c Hc.
  apply list_elem_of_In, elem_of_py_range in Hc.
  pose proof (light_cycle_inside event_data n c Hwf Hc) as Hin.
  cbv zeta in Hin. exact Hin.
Qed.

(** For a whole number [k] from 1 to 1000, the cycle [[0, 1)] of
    [light(notation).fast(k)] holds [k] copies of the slots of the notation,
    the copy [c] moved to cycle [c] and all times divided by [k]. *)
Lemma fast_light_copies (event_data : list EventData) (k : Z)
    (ctx : LightContext) :
  event_data_wf event_data -> (1 <= k <= 1000)%Z ->
  fast (of_Z k) (light event_data) (mkTimeSpan 0 1) ctx =
    Some (flat_map
            (fun c => map (LightHap_compress (of_Z k))
                        (cycle_events event_data c))
            (py_range 0 k)).
Proof.
  intros Hwf Hk.
  assert (Hpos : 0 < of_Z k).
  { apply (proj1 (of_Z_lt 0 k)). lia. }
  assert (Hl : limit_denominator (of_Z k) 1000 = of_Z k).
  { apply limit_denominator_small. rewrite of_Z_this. cbn. lia. }
  unfold fast. rewrite Hl. cbn [start end_].
  rewrite Qcmult_0_l, Qcmult_1_l.
  rewrite light_whole_cycles by (assumption || lia).
  cbn [mbind option_bind].
  rewrite (mapM_scale _ (of_Z k) (Qc_pos_neq_0 _ Hpos)).
  f_equal. clear. induction (py_range 0 k) as [| c cs IH]; cbn.
  - reflexivity.
  - rewrite map_app, IH. reflexivity.
Qed.

(** [int()] on times and channels that are not negative. *)
Lemma py_int_mono (x y : Qc) : 0 <= x -> x <= y -> (py_int x <= py_int y)%Z.
Proof.
  intros Hx Hxy.
  rewrite !py_int_floor
    by first [assumption | apply Qcle_trans with x; assumption].
  unfold py_floor. apply Qfloor_resp_le. exact Hxy.
Qed.

Lemma py_int_fraction (x : Qc) :
  0 <= x -> 0 <= x - of_Z (py_int x) /\ x - of_Z (py_int x) < 1.
Proof.
  intros Hx. rewrite py_int_floor by exact Hx. apply py_mod1_range.
Qed.

(** The channels of [colorsys.hsv_to_rgb] lie between zero and the value,
    and one of them is the value. *)
Lemma hsv_to_rgb_bounds (h s v : Qc) :
  0 <= h -> 0 <= s -> s <= 1 -> 0 <= v ->
  let '(r, g, b) := hsv_to_rgb h s v in
  (0 <= r /\ r <= v) /\ (0 <= g /\ g <= v) /\ (0 <= b /\ b <= v) /\
  (r = v \/ g = v \/ b = v).
Proof.
  intros Hh Hs0 Hs1 Hv. unfold hsv_to_rgb.
  destruct (bool_decide (s = 0)).
  { repeat split; try exact Hv; try apply Qcle_refl. left. reflexivity. }
  cbv zeta.
  assert (Hx : 0 <= h * of_Z 6)
    by (revert Hh; qc2q; change (inject_Z 6) with 6%Q; lra).
  destruct (py_int_fraction _ Hx) as [Hf0 Hf1].
  set (f := h * of_Z 6 - of_Z (py_int (h * of_Z 6))) in *.
  clearbody f.
  assert (Hp : 0 <= v * (1 - s) /\ v * (1 - s) <= v).
  { revert Hs0 Hs1 Hv. qc2q. intros. split; nra. }
  assert (Hq : 0 <= v * (1 - s * f) /\ v * (1 - s * f) <= v).
  { revert Hs0 Hs1 Hv Hf0 Hf1. qc2q. intros.
    assert (0 <= this s * this f)%Q by nra.
    assert (this s * this f <= 1)%Q by nra.
    split; nra. }
  assert (Ht : 0 <= v * (1 - s * (1 - f)) /\ v * (1 - s * (1 - f)) <= v).
  { revert Hs0 Hs1 Hv Hf0 Hf1. qc2q. intros.
    assert (0 <= this s * (1 - this f))%Q by nra.
    assert (this s * (1 - this f) <= 1)%Q by nra.
    split; nra. }
  assert (Hvv : 0 <= v /\ v <= v) by (split; [exact Hv | apply Qcle_refl]).
  repeat match goal with |- context [if ?b then _ else _] => destruct b end;
    (split; [assumption |]; split; [assumption |]; split; [assumption |]);
    auto.
Qed.

(** The brightest channel of [RGB.from_hsv(h, s, v)] is [int(v * 255)]: the
    intensity that wins a light is the brightness that the light shows. *)
Lemma RGB_from_hsv_brightest (h s v : Qc) :
  0 <= s -> s <= 1 -> 0 <= v ->
  RGB_max (RGB_from_hsv h s v) = py_int (v * of_Z 255).
Proof.
  intros Hs0 Hs1 Hv. unfold RGB_from_hsv.
  pose proof (hsv_to_rgb_bounds (py_mod1 h) s v
                (proj1 (py_mod1_range h)) Hs0 Hs1 Hv) as Hb.
  destruct (hsv_to_rgb (py_mod1 h) s v) as [[r g] b].
  destruct Hb as ((Hr0 & Hr) & (Hg0 & Hg) & (Hb0 & Hb) & Hmax).
  assert (Hscale : forall c, 0 <= c -> c <= v ->
            (py_int (c * of_Z 255) <= py_int (v * of_Z 255))%Z).
  { intros c Hc0 Hcv. apply py_int_mono.
    - revert Hc0. qc2q. change (inject_Z 255) with 255%Q. lra.
    - revert Hcv. qc2q. change (inject_Z 255) with 255%Q. lra. }
  pose proof (Hscale r Hr0 Hr). pose proof (Hscale g Hg0 Hg).
  pose proof (Hscale b Hb0 Hb).
  unfold RGB_max. cbn [rgb_r rgb_g rgb_b].
  destruct Hmax as [-> | [-> | ->]]; lia.
Qed.

(** ** Time spans *)

Lemma TimeSpan_contains_spec (s : TimeSpan) (t : Qc) :
  TimeSpan_contains s t = true <-> start s <= t /\ t < end_ s.
Proof.
  unfold TimeSpan_contains. rewrite andb_true_iff, Qc_leb_le, Qc_ltb_lt.
  reflexivity.
Qed.

Lemma py_max_comm (a b : Qc) : py_max a b = py_max b a.
Proof.
  unfold py_max. case_ltb a b; case_ltb b a; try reflexivity.
  - exfalso. qc2q. lra.
  - apply Qcle_antisym; assumption.
Qed.

Lemma py_min_comm (a b : Qc) : py_min a b = py_min b a.
Proof.
  unfold py_min. case_ltb a b; case_ltb b a; try reflexivity.
  - exfalso. qc2q. lra.
  - apply Qcle_antisym; assumption.
Qed.

Lemma py_max_lub (a b t : Qc) : py_max a b <= t <-> a <= t /\ b <= t.
Proof.
  unfold py_max. case_ltb a b; split; intros; try tauto.
  - split; [| assumption]. qc2q. lra.
  - split; [assumption |]. qc2q. lra.
Qed.

Lemma py_min_glb (a b t : Qc) : t < py_min a b <-> t < a /\ t < b.
Proof.
  unfold py_min. case_ltb b a; split; intros; try tauto.
  - split; [| assumption]. qc2q. lra.
  - split; [assumption |]. qc2q. lra.
Qed.

(** X1.  [TimeSpan.intersection] is the set intersection of two half-open
    spans: when it returns a span, a time is in that span exactly when it is
    in both; when it returns [None], no time is in both.  The result does
    not depend on the order of the two spans. *)
Theorem TimeSpan_intersection_is_overlap (s other : TimeSpan) (t : Qc) :
  match TimeSpan_intersection s other with
  | Some i =>
      start i < end_ i /\
      TimeSpan_contains i t = TimeSpan_contains s t && TimeSpan_contains other t
  | None => TimeSpan_contains s t && TimeSpan_contains other t = false
  end /\
  TimeSpan_intersection s other = TimeSpan_intersection other s.
Proof.
  split.
  - assert (Hboth : TimeSpan_contains s t && TimeSpan_contains other t = true
                    <-> py_max (start s) (start other) <= t /\
                        t < py_min (end_ s) (end_ other)).
    { rewrite andb_true_iff, !TimeSpan_contains_spec, py_max_lub, py_min_glb.
      tauto. }
    unfold TimeSpan_intersection.
    case_ltb (py_max (start s) (start other)) (py_min (end_ s) (end_ other)).
    + split; [cbn; assumption |].
      apply eq_true_iff_eq. rewrite Hboth, TimeSpan_contains_spec. cbn.
      reflexivity.
    + apply not_true_is_false. rewrite Hboth. intros [Hlo Hhi].
      revert Hcmp Hlo Hhi. clear.
      generalize (py_max (start s) (start other)),
                 (py_min (end_ s) (end_ other)).
      intros a b. qc2q. lra.
  - unfold TimeSpan_intersection.
    rewrite (py_max_comm (start s)), (py_min_comm (end_ s)). reflexivity.
Qed.

Lemma py_max_plus (a b o : Qc) : py_max (a + o) (b + o) = py_max a b + o.
Proof.
  unfold py_max. case_ltb a b; case_ltb (a + o) (b + o); try reflexivity;
    exfalso; qc2q; lra.
Qed.

Lemma py_min_plus (a b o : Qc) : py_min (a + o) (b + o) = py_min a b + o.
Proof.
  unfold py_min. case_ltb b a; case_ltb (b + o) (a + o); try reflexivity;
    exfalso; qc2q; lra.
Qed.

Lemma Qc_ltb_plus (a b o : Qc) : Qc_ltb (a + o) (b + o) = Qc_ltb a b.
Proof.
  case_ltb a b; case_ltb (a + o) (b + o); try reflexivity; exfalso; qc2q; lra.
Qed.

Lemma TimeSpan_intersection_shift (s other : TimeSpan) (o : Qc) :
  TimeSpan_intersection (TimeSpan_shift s o) (TimeSpan_shift other o) =
    option_map (fun i => TimeSpan_shift i o) (TimeSpan_intersection s other).
Proof.
  unfold TimeSpan_intersection, TimeSpan_shift. cbn [start end_].
  rewrite py_max_plus, py_min_plus, Qc_ltb_plus.
  destruct (Qc_ltb _ _); reflexivity.
Qed.

Lemma TimeSpan_shift_shift (s : TimeSpan) (a b : Qc) :
  TimeSpan_shift (TimeSpan_shift s a) b = TimeSpan_shift s (a + b).
Proof.
  destruct s as [x y]. unfold TimeSpan_shift. cbn. f_equal; ring.
Qed.

Lemma TimeSpan_shift_0 (s : TimeSpan) : TimeSpan_shift s 0 = s.
Proof.
  destruct s as [x y]. unfold TimeSpan_shift. cbn. f_equal; ring.
Qed.

(** ** Shifting a pattern in time *)

Lemma LightHap_shift_shift (h : LightHap) (a b : Qc) :
  LightHap_shift (LightHap_shift h a) b = LightHap_shift h (a + b).
Proof.
  destruct h as [[w |] p v]; unfold LightHap_shift; cbn;
    rewrite ?TimeSpan_shift_shift; reflexivity.
Qed.

Lemma LightHap_shift_0 (h : LightHap) : LightHap_shift h 0 = h.
Proof.
  destruct h as [[w |] p v]; unfold LightHap_shift; cbn;
    rewrite ?TimeSpan_shift_0; reflexivity.
Qed.

Lemma map_shift_back (haps : list LightHap) (a b : Qc) :
  a + b = 0 ->
  map (fun h => LightHap_shift h b) (map (fun h => LightHap_shift h a) haps)
    = haps.
Proof.
  intros Hab. rewrite map_map. rewrite <- (map_id haps) at 2.
  apply map_ext. intros h. rewrite LightHap_shift_shift, Hab.
  apply LightHap_shift_0.
Qed.

Lemma limit_denominator_opp_small (o : Qc) :
  (Z.pos (Qden o) <= 1000)%Z -> limit_denominator (- o) 1000 = - o.
Proof.
  intros Hd. apply limit_denominator_small.
  destruct o as [[n d] Hc]. cbn in *.
  replace (Qred (- (n # d))) with (- (n # d))%Q; [exact Hd |].
  symmetry. apply Qred_identity. unfold Qopp. cbn.
  apply Qred_identity2 in Hc. cbn in Hc.
  rewrite Z.gcd_opp_l. exact Hc.
Qed.

(** X2.  For an offset whose denominator is at most 1000 (so that
    [limit_denominator(1000)] keeps it), [late(o)] undoes [early(o)] and
    [early(o)] undoes [late(o)] over every span, and the events of
    [p.late(o)] over a span are the events of [p] over the span moved back
    by [o], moved forward by [o]. *)
Theorem early_late_round_trip (p : LightPattern) (o : Qc) (span : TimeSpan)
    (ctx : LightContext) :
  (Z.pos (Qden o) <= 1000)%Z ->
  late o (early o p) span ctx = p span ctx /\
  early o (late o p) span ctx = p span ctx /\
  late o p span ctx =
    (haps ← p (TimeSpan_shift span (- o)) ctx;
     Some (map (fun h => LightHap_shift h o) haps)).
Proof.
  intros Hd.
  pose proof (limit_denominator_small o 1000 Hd) as Hl.
  pose proof (limit_denominator_opp_small o Hd) as Hl'.
  assert (Hoo : - - o = o) by ring.
  unfold late, early. rewrite Hl, Hl', Hoo.
  repeat split.
  - rewrite TimeSpan_shift_shift.
    replace (- o + o) with 0 by ring. rewrite TimeSpan_shift_0.
    destruct (p span ctx) as [haps |]; [| reflexivity]. cbn.
    f_equal. apply map_shift_back. ring.
  - rewrite TimeSpan_shift_shift.
    replace (o + - o) with 0 by ring. rewrite TimeSpan_shift_0.
    destruct (p span ctx) as [haps |]; [| reflexivity]. cbn.
    f_equal. apply map_shift_back. ring.
Qed.

Lemma early_late_round_trip_witness :
  let p := light notation_0_1 in
  let span := mkTimeSpan (frac 1 3) (frac 5 2) in
  late (frac 1 4) (early (frac 1 4) p) span (LightContext_default 6)
    = p span (LightContext_default 6).
Proof.
  cbv zeta.
  apply (early_late_round_trip (light notation_0_1) (frac 1 4)
           (mkTimeSpan (frac 1 3) (frac 5 2)) (LightContext_default 6)).
  vm_compute. discriminate.
Defined.

(** ** Scaling a pattern in time *)

Lemma LightHap_compress_compress (a b : Qc) (h : LightHap) :
  a <> 0 -> b <> 0 ->
  LightHap_compress a (LightHap_compress b h) = LightHap_compress (a * b) h.
Proof.
  intros Ha Hb. destruct h as [w p v]. unfold LightHap_compress. cbn.
  assert (Hk : 1 / b * (1 / a) = 1 / (a * b)) by (field; split; assumption).
  f_equal.
  - destruct w as [w |]; cbn; [| reflexivity].
    rewrite TimeSpan_scale_scale, Hk. reflexivity.
  - rewrite TimeSpan_scale_scale, Hk. reflexivity.
Qed.

(** X3.  Speeding up twice is speeding up by the product: for factors [a]
    and [b] that are not zero and that [limit_denominator(1000)] keeps, as
    it keeps their product, [p.fast(b).fast(a)] returns over every span what
    [p.fast(a * b)] returns. *)
Theorem fast_fast (p : LightPattern) (a b : Qc) (span : TimeSpan)
    (ctx : LightContext) :
  a <> 0 -> b <> 0 ->
  (Z.pos (Qden a) <= 1000)%Z -> (Z.pos (Qden b) <= 1000)%Z ->
  (Z.pos (Qden (a * b)%Qc) <= 1000)%Z ->
  fast a (fast b p) span ctx = fast (a * b) p span ctx.
Proof.
  intros Ha Hb Hda Hdb Hdab. unfold fast.
  rewrite !limit_denominator_small by assumption. cbn [start end_].
  rewrite <- !Qcmult_assoc.
  destruct (p _ ctx) as [haps |]; [| reflexivity].
  cbn [mbind option_bind].
  rewrite (mapM_scale haps b Hb). cbn [mbind option_bind].
  rewrite (mapM_scale _ a Ha).
  assert (Hab : a * b <> 0).
  { intros H0. apply Qcmult_integral in H0. tauto. }
  rewrite (mapM_scale haps (a * b) Hab). f_equal.
  rewrite map_map. apply map_ext. intros h.
  apply LightHap_compress_compress; assumption.
Qed.

Lemma fast_fast_witness :
  let p := light notation_0_1 in
  let span := mkTimeSpan (frac 1 3) (frac 5 2) in
  fast 2 (fast (frac 3 2) p) span (LightContext_default 6)
    = fast (2 * frac 3 2) p span (LightContext_default 6).
Proof.
  cbv zeta.
  apply (fast_fast (light notation_0_1) 2 (frac 3 2)); vm_compute; discriminate.
Defined.

Lemma light_empty_span (event_data : list EventData) (ctx : LightContext) :
  light event_data (mkTimeSpan 0 0) ctx = Some [].
Proof.
  unfold light. cbn [start end_]. change (py_int 0) with 0%Z.
  change (py_range 0 (0 + 1)) with [0%Z]. cbn [flat_map].
  rewrite app_nil_r. f_equal. apply flat_map_nil_on.
  apply List.Forall_forall. intros [[[s e] lid] g] _.
  unfold TimeSpan_intersection. cbn [start end_].
  replace (Qc_ltb (py_max (s + of_Z 0) 0) (py_min (e + of_Z 0) 0)) with false;
    [reflexivity |].
  symmetry. apply Qc_ltb_ge.
  apply Qcle_trans with 0.
  - apply (proj2 (py_min_spec _ _)).
  - apply (proj2 (py_max_spec _ _)).
Qed.

(** X4.  The factor zero.  [slow(0)] raises when the pattern is built (it
    divides by the factor).  [fast(0)] queries the pattern over the empty
    span [[0, 0)] whatever the span asked for, and raises as soon as that
    query returns an event, since the event's times are then divided by
    zero; a [light(...)] pattern has no event there, so its [fast(0)] is
    silent over every span. *)
Theorem fast_slow_zero (p : LightPattern) (span : TimeSpan)
    (ctx : LightContext) :
  slow 0 p = None /\
  fast 0 p span ctx =
    match p (mkTimeSpan 0 0) ctx with
    | Some [] => Some []
    | _ => None
    end /\
  (forall event_data, fast 0 (light event_data) span ctx = Some []).
Proof.
  assert (Hl : limit_denominator 0 1000 = 0) by reflexivity.
  assert (Hf : forall q : LightPattern,
             fast 0 q span ctx =
               match q (mkTimeSpan 0 0) ctx with
               | Some [] => Some []
               | _ => None
               end).
  { intros q. unfold fast. rewrite Hl. cbn [start end_].
    rewrite !Qcmult_0_r.
    destruct (q (mkTimeSpan 0 0) ctx) as [[| h haps] |]; reflexivity. }
  split; [reflexivity |]. split; [apply Hf |].
  intros event_data. rewrite Hf, light_empty_span. reflexivity.
Qed.

(** ** Reversal *)

Lemma mirror_mirror (c t : Qc) : mirror c (mirror c t) = t.
Proof. unfold mirror. ring. Qed.

Lemma mirror_cycle (c : Z) (h : LightHap) :
  (0 <= c)%Z -> part_inside c h ->
  py_int (start (part h)) = c /\
  py_int (mirror (of_Z c) (end_ (part h))) = c.
Proof.
  intros Hc (Hlo & Hne & Hhi). rewrite of_Z_succ in Hhi. split.
  - apply py_int_window; [exact Hc | exact Hlo |].
    rewrite of_Z_succ. revert Hne Hhi. qc2q. lra.
  - apply py_int_window; [exact Hc | |]; rewrite ?of_Z_succ; unfold mirror;
      revert Hlo Hne Hhi; qc2q; lra.
Qed.

(** X5.  [rev()] mirrors every event in its own cycle and is its own
    inverse: where the events of [p] have their parts inside a cycle at or
    after cycle zero, [p.rev().rev()] returns the events of [p]; an event of
    [p.rev()] has the value and the length of the event it mirrors, lies in
    the same cycle, and starts as far after the cycle's start as the
    original ends before the cycle's end. *)
Theorem rev_involution (p : LightPattern) (span : TimeSpan)
    (ctx : LightContext) (haps : list LightHap) :
  p span ctx = Some haps -> Forall in_a_cycle haps ->
  rev_transform (rev_transform p) span ctx = Some haps /\
  exists out,
    rev_transform p span ctx = Some out /\
    Forall2
      (fun h h' =>
         hap_value h' = hap_value h /\
         TimeSpan_duration (part h') = TimeSpan_duration (part h) /\
         forall c, (0 <= c)%Z -> part_inside c h ->
           part_inside c h' /\
           start (part h') - of_Z c = of_Z (c + 1) - end_ (part h))
      haps out.
Proof.
  intros Hp Hin. unfold rev_transform. rewrite Hp. cbn [mbind option_bind].
  split.
  - f_equal. rewrite map_map. rewrite <- (map_id haps) at 2.
    apply map_ext_Forall. eapply List.Forall_impl; [| exact Hin].
    intros h (c & Hc & Hh). cbn [part whole hap_value start end_].
    destruct (mirror_cycle c h Hc Hh) as [-> ->].
    destruct h as [w pt v]. cbn. rewrite !mirror_mirror.
    destruct w as [[ws we] |], pt as [ps pe]; cbn;
      rewrite ?mirror_mirror; reflexivity.
  - eexists. split; [reflexivity |].
    apply Forall2_fmap_r, Forall_Forall2_diag.
    apply List.Forall_forall. intros h _. cbn [part hap_value start end_].
    split; [reflexivity |]. split.
    + unfold TimeSpan_duration, mirror. cbn. ring.
    + intros c Hc Hh. destruct (mirror_cycle c h Hc Hh) as [-> _].
      destruct Hh as (Hlo & Hne & Hhi). rewrite of_Z_succ in *.
      unfold part_inside, mirror. cbn [part start end_].
      rewrite of_Z_succ.
      split; [| ring].
      repeat split; revert Hlo Hne Hhi; qc2q; lra.
Qed.

Lemma rev_involution_witness :
  let p := light notation_0_1 in
  let span := mkTimeSpan (frac 1 3) (frac 5 2) in
  rev_transform (rev_transform p) span (LightContext_default 6)
    = p span (LightContext_default 6).
Proof.
  cbv zeta.
  destruct (light notation_0_1 (mkTimeSpan (frac 1 3) (frac 5 2))
              (LightContext_default 6)) as [haps |] eqn:Hq;
    [| vm_compute in Hq; discriminate].
  apply (rev_involution _ _ _ haps Hq).
  vm_compute in Hq. injection Hq as <-.
  repeat constructor.
  - exists 0%Z. split; [lia |]. unfold part_inside. cbn [part start end_].
    repeat split; qc_eval.
  - exists 0%Z. split; [lia |]. unfold part_inside. cbn [part start end_].
    repeat split; qc_eval.
  - exists 1%Z. split; [lia |]. unfold part_inside. cbn [part start end_].
    repeat split; qc_eval.
  - exists 1%Z. split; [lia |]. unfold part_inside. cbn [part start end_].
    repeat split; qc_eval.
  - exists 2%Z. split; [lia |]. unfold part_inside. cbn [part start end_].
    repeat split; qc_eval.
Defined.

(** ** Concatenation *)

Lemma py_int_end_of_window (c : Z) (e : Qc) :
  (0 <= c)%Z -> of_Z c < e -> e <= of_Z (c + 1) ->
  py_int e = c \/ (e = of_Z (c + 1) /\ py_int e = (c + 1)%Z).
Proof.
  intros Hc Hlo Hhi.
  destruct (Qcle_lt_or_eq _ _ Hhi) as [Hlt | ->].
  - left. apply py_int_window; [exact Hc | | exact Hlt].
    apply Qclt_le_weak. exact Hlo.
  - right. split; [reflexivity | apply py_int_of_Z].
Qed.

Lemma cat_cycle_of_window (c : Z) (w : TimeSpan) :
  of_Z c <= start w -> start w < end_ w -> end_ w <= of_Z (c + 1) ->
  TimeSpan_intersection (mkTimeSpan (of_Z c) (of_Z (c + 1))) w = Some w.
Proof.
  intros Hlo Hne Hhi. unfold TimeSpan_intersection. cbn [start end_].
  assert (Hmax : py_max (of_Z c) (start w) = start w).
  { unfold py_max. case_ltb (of_Z c) (start w); [reflexivity |].
    apply Qcle_antisym; assumption. }
  assert (Hmin : py_min (of_Z (c + 1)) (end_ w) = end_ w).
  { unfold py_min. case_ltb (end_ w) (of_Z (c + 1)); [reflexivity |].
    apply Qcle_antisym; assumption. }
  rewrite Hmax, Hmin, (proj2 (Qc_ltb_lt _ _) Hne).
  destruct w; reflexivity.
Qed.

Lemma cat_next_cycle_of_window (c : Z) (w : TimeSpan) :
  end_ w <= of_Z (c + 1) ->
  TimeSpan_intersection (mkTimeSpan (of_Z (c + 1)) (of_Z (c + 1 + 1))) w = None.
Proof.
  intros Hhi. unfold TimeSpan_intersection. cbn [start end_].
  replace (Qc_ltb _ _) with false; [reflexivity |].
  symmetry. apply Qc_ltb_ge.
  apply Qcle_trans with (end_ w); [apply (proj2 (py_min_spec _ _)) |].
  apply Qcle_trans with (of_Z (c + 1)); [exact Hhi |].
  apply (proj1 (py_max_spec _ _)).
Qed.

(** X6.  [cat] plays its patterns in turn, one per cycle.  For two patterns
    or more and a window inside cycle [c >= 0], the events of
    [cat(p_0, ..., p_{n-1})] are those of the pattern [c mod n], queried
    over the window moved to cycle zero and moved back to cycle [c].  With
    one pattern [cat] is that pattern, and with none it has no event. *)
Theorem cat_plays_in_turn (p0 p1 : LightPattern) (rest : list LightPattern)
    (c : Z) (w : TimeSpan) (ctx : LightContext) :
  let patterns := p0 :: p1 :: rest in
  let p := nth (Z.to_nat (c mod Z.of_nat (length patterns))) patterns p0 in
  (0 <= c)%Z ->
  of_Z c <= start w -> start w < end_ w -> end_ w <= of_Z (c + 1) ->
  cat patterns w ctx =
    (haps ← p (TimeSpan_shift w (- of_Z c)) ctx;
     Some (map (fun h => LightHap_shift h (of_Z c)) haps)) /\
  cat [p0] = p0 /\
  (forall span, cat [] span ctx = Some []).
Proof.
  intros patterns p Hc Hlo Hne Hhi.
  split; [| split; [reflexivity |]].
  - assert (Hidx : (Z.to_nat (c mod Z.of_nat (length patterns))
                    < length patterns)%nat).
    { assert (0 <= c mod Z.of_nat (length patterns)
              < Z.of_nat (length patterns))%Z
        by (apply Z.mod_pos_bound; cbn; lia).
      lia. }
    assert (Hp : nth (Z.to_nat (c mod Z.of_nat (length patterns)))
                   patterns (light []) = p).
    { apply nth_indep. exact Hidx. }
    assert (Hstart : py_int (start w) = c).
    { apply py_int_window; [exact Hc | exact Hlo |].
      revert Hne Hhi. generalize (of_Z (c + 1)). intros. qc2q. lra. }
    assert (Hbody :
      (let cycle_span := mkTimeSpan (of_Z c) (of_Z (c + 1)) in
       match TimeSpan_intersection cycle_span w with
       | Some intersection =>
           haps ← nth (Z.to_nat (c mod Z.of_nat (length patterns)))
                    patterns (light [])
                    (mkTimeSpan (start intersection - of_Z c)
                                (end_ intersection - of_Z c)) ctx;
           Some (map (fun h => LightHap_shift h (of_Z c)) haps)
       | None => Some []
       end) =
      (haps ← p (TimeSpan_shift w (- of_Z c)) ctx;
       Some (map (fun h => LightHap_shift h (of_Z c)) haps))).
    { cbv zeta. rewrite (cat_cycle_of_window c w Hlo Hne Hhi), Hp.
      reflexivity. }
    cbv zeta in Hbody.
    assert (Hlo' : of_Z c < end_ w).
    { revert Hlo Hne. generalize (of_Z c). intros. qc2q. lra. }
    change (cat patterns w ctx) with (cat (p0 :: p1 :: rest) w ctx).
    unfold cat. fold patterns. cbv zeta. rewrite Hstart.
    destruct (py_int_end_of_window c (end_ w) Hc Hlo' Hhi)
      as [-> | [_ ->]].
    + rewrite py_range_one. cbn [mapM]. rewrite Hbody.
      destruct (p (TimeSpan_shift w (- of_Z c)) ctx) as [haps |];
        [| reflexivity].
      cbn. rewrite app_nil_r. reflexivity.
    + rewrite py_range_two. cbn [mapM]. rewrite Hbody.
      rewrite (cat_next_cycle_of_window c w Hhi).
      destruct (p (TimeSpan_shift w (- of_Z c)) ctx) as [haps |];
        [| reflexivity].
      cbn. rewrite app_nil_r. reflexivity.
  - intros span. unfold cat, light. f_equal.
    apply flat_map_nil_on. apply List.Forall_forall. reflexivity.
Qed.

Lemma cat_plays_in_turn_witness :
  let ctx := LightContext_default 6 in
  let w := mkTimeSpan (frac 13 4) (frac 15 4) in
  cat [light notation_0; light notation_0_1] w ctx =
    (haps ← light notation_0_1 (TimeSpan_shift w (- of_Z 3)) ctx;
     Some (map (fun h => LightHap_shift h (of_Z 3)) haps)).
Proof.
  cbv zeta.
  apply (cat_plays_in_turn (light notation_0) (light notation_0_1) [] 3
           (mkTimeSpan (frac 13 4) (frac 15 4)) (LightContext_default 6)).
  - lia.
  - cbn [start end_]. qc_eval.
  - cbn [start end_]. qc_eval.
  - cbn [start end_]. qc_eval.
Defined.

(** ** The events of [light(notation)] *)



(** X8.  Speeding a notation up by a whole number repeats it: for [k] from
    1 to 1000 and a notation whose slots lie in [[0, 1]] and are not empty,
    the cycle [[0, 1)] of [light(notation).fast(k)] holds [k] copies of the
    slots, copy [c] being the slots of cycle [c] with all times divided by
    [k]. *)
Theorem fast_repeats_notation (event_data : list EventData) (k : Z)
    (ctx : LightContext) :
  event_data_wf event_data -> (1 <= k <= 1000)%Z ->
  fast (of_Z k) (light event_data) (mkTimeSpan 0 1) ctx =
    Some (flat_map
            (fun c => map (LightHap_compress (of_Z k))
                        (cycle_events event_data c))
            (py_range 0 k)) /\
  length <$> fast (of_Z k) (light event_data) (mkTimeSpan 0 1) ctx =
    Some (Z.to_nat k * length event_data)%nat.
Proof.
  intros Hwf Hk.
  rewrite (fast_light_copies event_data k ctx Hwf Hk).
  split; [reflexivity |]. cbn [fmap option_fmap option_map]. f_equal.
  unfold py_range. replace (Z.to_nat (k - 0)) with (Z.to_nat k) by lia.
  generalize (Z.to_nat k). clear. intros n.
  generalize 0%nat. induction n as [| n IH]; intros a; cbn; [reflexivity |].
  rewrite length_app, length_map, IH. unfold cycle_events.
  rewrite length_map. reflexivity.
Qed.

Lemma fast_repeats_notation_witness :
  length <$> fast (of_Z 4) (light notation_0_1) (mkTimeSpan 0 1)
               (LightContext_default 6) = Some 8%nat.
Proof.
  apply (fast_repeats_notation notation_0_1 4 (LightContext_default 6)).
  - repeat constructor; qc_eval.
  - lia.
Defined.

(** ** The clock consumer *)

Lemma beat_position_of_first : beat_position_of 1 0 = 0.
Proof. apply (bool_decide_unpack _). vm_compute. exact I. Qed.

(** X9.  What the clock consumer publishes agrees with its counters.  After
    a clock, start, continue or song-position message the tick counter is in
    [0 .. 23], the published beat position is
    [(beat_count - 1) + tick_count / 24] and the published beat count is the
    counter; a stop message, or a message of another type, changes
    nothing. *)
Theorem clock_publishes_counters (now : Qc) (msg : MidiMessage)
    (s : ClockConsumer) :
  (0 <= tick_count s < TICKS_PER_BEAT)%Z ->
  (msg <> MsgStop -> msg <> MsgOther ->
   clock_consistent (handle_message now msg s)) /\
  (msg = MsgStop \/ msg = MsgOther -> handle_message now msg s = s) /\
  (clock_consistent s -> clock_consistent (handle_message now msg s)).
Proof.
  intros Ht. unfold TICKS_PER_BEAT in Ht.
  assert (Hmain : msg <> MsgStop -> msg <> MsgOther ->
                  clock_consistent (handle_message now msg s)).
  { intros H1 H2. unfold clock_consistent, TICKS_PER_BEAT.
    destruct msg as [| | | | pos |]; try congruence; cbn [handle_message].
    - unfold handle_clock, TICKS_PER_BEAT.
      destruct (24 <=? tick_count s + 1)%Z eqn:Hwrap.
      + destruct (pending_reset s); cbn;
          (split; [lia |]); split; reflexivity.
      + apply Z.leb_gt in Hwrap. cbn.
        split; [lia |]. split; reflexivity.
    - cbn. split; [lia |]. split; reflexivity.
    - cbn. split; [lia |]. split; reflexivity.
    - unfold handle_songpos, TICKS_PER_BEAT. cbn.
      change (24 / 4)%Z with 6%Z.
      pose proof (Z.mod_pos_bound pos 4 ltac:(lia)).
      split; [lia |]. split; reflexivity. }
  split; [exact Hmain |]. split.
  - intros [-> | ->]; reflexivity.
  - intros Hs.
    destruct msg; try exact Hs; apply Hmain; discriminate.
Qed.

Lemma clock_publishes_counters_witness :
  clock_consistent (handle_message (of_Z 1001) MsgClock mid_bar_two).
Proof.
  destruct (clock_publishes_counters (of_Z 1001) MsgClock mid_bar_two)
    as [Hmsg _].
  - unfold TICKS_PER_BEAT. cbn. lia.
  - apply Hmsg; discriminate.
Defined.

Lemma of_Z_add (a b : Z) : of_Z (a + b) = of_Z a + of_Z b.
Proof. apply Qc_is_canon. qc2q. rewrite inject_Z_plus. reflexivity. Qed.

Lemma of_Z_mul (a b : Z) : of_Z (a * b) = of_Z a * of_Z b.
Proof. apply Qc_is_canon. qc2q. rewrite inject_Z_mult. reflexivity. Qed.

Lemma of_Z_neq_0 (a : Z) : a <> 0%Z -> of_Z a <> 0.
Proof.
  intros Ha H0. apply Ha. change 0 with (of_Z 0) in H0.
  apply Z.le_antisymm; apply (proj2 (of_Z_le _ _)); rewrite H0;
    apply Qcle_refl.
Qed.

Lemma beat_position_of_next (b t : Z) :
  beat_position_of (b + 1) t = beat_position_of b t + 1.
Proof.
  unfold beat_position_of. replace (b + 1 - 1)%Z with (b - 1 + 1)%Z by lia.
  rewrite of_Z_add. change (of_Z 1) with 1. ring.
Qed.

(** A run of clock messages that does not reach the end of the beat only
    counts ticks. *)
Lemma run_clocks_ticks (times : list Qc) (s : ClockConsumer) :
  (tick_count s + Z.of_nat (length times) < TICKS_PER_BEAT)%Z ->
  let s' := run_clocks times s in
  tick_count s' = (tick_count s + Z.of_nat (length times))%Z /\
  beat_count s' = beat_count s /\
  pending_reset s' = pending_reset s /\
  pattern_request s' = pattern_request s /\
  (times <> [] ->
   es_beat_position s' =
     beat_position_of (beat_count s)
       (tick_count s + Z.of_nat (length times))).
Proof.
  unfold TICKS_PER_BEAT. revert s.
  induction times as [| now times IH]; intros s Hlen; cbv zeta.
  - cbn. repeat split; try lia. congruence.
  - cbn [length] in Hlen.
    change (run_clocks (now :: times) s)
      with (run_clocks times (handle_clock now s)).
    assert (Hstep : handle_clock now s =
      mkClockConsumer (tick_count s + 1) (beat_count s) (last_beat_time s)
        (current_bpm s) (pending_reset s) (ui_bar s) (ui_beat s)
        (beat_position_of (beat_count s) (tick_count s + 1)) (current_bpm s)
        (beat_count s) (es_queued_pattern_index s) (es_queue_target_bar s)
        (pattern_request s)).
    { unfold handle_clock, TICKS_PER_BEAT.
      destruct (24 <=? tick_count s + 1)%Z eqn:Hw; [| reflexivity].
      apply Z.leb_le in Hw. lia. }
    rewrite Hstep. set (s1 := mkClockConsumer _ _ _ _ _ _ _ _ _ _ _ _ _).
    destruct (IH s1) as (Ht & Hb & Hp & Hr & Hpos); [cbn; lia |].
    rewrite Ht, Hb, Hp, Hr. cbn [s1 tick_count beat_count pending_reset
                                 pattern_request length].
    repeat split; try lia.
    intros _. destruct times as [| now' times].
    + cbn. f_equal; lia.
    + rewrite Hpos by discriminate. cbn [s1 tick_count beat_count length].
      f_equal; lia.
Qed.

Lemma run_clocks_app (a b : list Qc) (s : ClockConsumer) :
  run_clocks (a ++ b) s = run_clocks b (run_clocks a s).
Proof. unfold run_clocks. apply fold_left_app. Qed.

(** X10.  Twenty-four clock messages are one beat: from any state with the
    tick counter in [0 .. 23] and no synchronisation pending, twenty-four
    clock messages bring the tick counter back to where it was, add one to
    the beat counter and move the published beat position forward by
    exactly one beat. *)
Theorem one_beat_is_24_clocks (times : list Qc) (s : ClockConsumer) :
  (0 <= tick_count s < TICKS_PER_BEAT)%Z -> pending_reset s = false ->
  length times = 24%nat ->
  let s' := run_clocks times s in
  tick_count s' = tick_count s /\
  beat_count s' = (beat_count s + 1)%Z /\
  es_beat_position s' =
    beat_position_of (beat_count s) (tick_count s) + 1.
Proof.
  unfold TICKS_PER_BEAT. intros Ht Hp Hlen.
  set (k := Z.to_nat (23 - tick_count s)).
  assert (Hsplit : times = take k times ++ drop k times)
    by (symmetry; apply take_drop).
  destruct (drop k times) as [| now rest] eqn:Hdrop.
  { apply (f_equal length) in Hdrop. rewrite length_drop in Hdrop.
    cbn in Hdrop. lia. }
  assert (Hk : length (take k times) = k) by (rewrite length_take; lia).
  assert (Hrest : Z.of_nat (length rest) = tick_count s).
  { apply (f_equal length) in Hdrop. rewrite length_drop in Hdrop.
    cbn in Hdrop. lia. }
  cbv zeta. rewrite Hsplit, run_clocks_app.
  destruct (run_clocks_ticks (take k times) s) as (Ht1 & Hb1 & Hp1 & _ & _).
  { unfold TICKS_PER_BEAT. rewrite Hk. lia. }
  rewrite Hk in Ht1.
  set (s1 := run_clocks (take k times) s) in *.
  change (run_clocks (now :: rest) s1)
    with (run_clocks rest (handle_clock now s1)).
  assert (Hwrap : exists s2, handle_clock now s1 = s2 /\
            tick_count s2 = 0%Z /\ beat_count s2 = (beat_count s + 1)%Z /\
            pending_reset s2 = false /\
            es_beat_position s2 = beat_position_of (beat_count s + 1) 0).
  { eexists. split; [reflexivity |].
    unfold handle_clock, TICKS_PER_BEAT.
    replace (24 <=? tick_count s1 + 1)%Z with true
      by (symmetry; apply Z.leb_le; lia).
    rewrite Hp1, Hp, Hb1. cbn. repeat split. }
  destruct Hwrap as (s2 & -> & Ht2 & Hb2 & Hp2 & Hpos2).
  destruct (run_clocks_ticks rest s2) as (Ht3 & Hb3 & _ & _ & Hpos3).
  { unfold TICKS_PER_BEAT. lia. }
  rewrite Ht3, Hb3, Ht2, Hb2, Hrest. split; [lia |]. split; [reflexivity |].
  rewrite <- beat_position_of_next.
  destruct rest as [| now' rest'].
  - cbn in Hrest. cbn [run_clocks fold_left]. rewrite Hpos2, <- Hrest.
    reflexivity.
  - rewrite Hpos3 by discriminate. rewrite Hb2, Ht2, Hrest. reflexivity.
Qed.

Lemma one_beat_is_24_clocks_witness :
  let s' := run_clocks (repeat (of_Z 1001) 24) mid_bar_two in
  tick_count s' = 12%Z /\ beat_count s' = 6%Z.
Proof.
  destruct (one_beat_is_24_clocks (repeat (of_Z 1001) 24) mid_bar_two)
    as (Ht & Hb & _).
  - unfold TICKS_PER_BEAT. cbn. lia.
  - reflexivity.
  - reflexivity.
  - split; [exact Ht | exact Hb].
Defined.

(** X11.  A synchronisation that is pending takes effect exactly on the next
    beat boundary.  With the tick counter at [t] in [0 .. 23], the first
    [23 - t] clock messages change neither the beat counter nor the pending
    request; the clock message after them sets the counters to tick 0 of
    beat 1, publishes the beat position 0 and clears the request. *)
Theorem pending_sync_waits_for_the_beat (times : list Qc) (now : Qc)
    (s : ClockConsumer) :
  (0 <= tick_count s < TICKS_PER_BEAT)%Z -> pending_reset s = true ->
  Z.of_nat (length times) = (23 - tick_count s)%Z ->
  (forall n,
     beat_count (run_clocks (take n times) s) = beat_count s /\
     pending_reset (run_clocks (take n times) s) = true) /\
  let s' := run_clocks (times ++ [now]) s in
  tick_count s' = 0%Z /\ beat_count s' = 1%Z /\ pending_reset s' = false /\
  es_beat_position s' = 0 /\ es_beat_count s' = 1%Z.
Proof.
  unfold TICKS_PER_BEAT. intros Ht Hp Hlen. split.
  - intros n.
    destruct (run_clocks_ticks (take n times) s) as (_ & Hb & Hp' & _).
    { unfold TICKS_PER_BEAT. rewrite length_take. lia. }
    rewrite Hb, Hp', Hp. split; reflexivity.
  - cbv zeta. rewrite run_clocks_app.
    destruct (run_clocks_ticks times s) as (Ht1 & _ & Hp1 & _).
    { unfold TICKS_PER_BEAT. lia. }
    set (s1 := run_clocks times s) in *.
    change (run_clocks [now] s1) with (handle_clock now s1).
    unfold handle_clock, TICKS_PER_BEAT.
    replace (24 <=? tick_count s1 + 1)%Z with true
      by (symmetry; apply Z.leb_le; lia).
    rewrite Hp1, Hp. cbn. repeat split.
Qed.

Lemma pending_sync_waits_for_the_beat_witness :
  let s :=
    mkClockConsumer 20 7 (of_Z 1000) (of_Z 120) true 2 3 (frac 41 6)
      (of_Z 120) 7 None None None in
  let s' := run_clocks (repeat (of_Z 1001) 3 ++ [of_Z 1002]) s in
  beat_count s' = 1%Z /\ es_beat_position s' = 0.
Proof.
  cbv zeta.
  destruct (pending_sync_waits_for_the_beat (repeat (of_Z 1001) 3) (of_Z 1002)
    (mkClockConsumer 20 7 (of_Z 1000) (of_Z 120) true 2 3 (frac 41 6)
       (of_Z 120) 7 None None None)) as (_ & _ & Hb & _ & Hpos & _).
  - unfold TICKS_PER_BEAT. cbn. lia.
  - reflexivity.
  - reflexivity.
  - split; [exact Hb | exact Hpos].
Defined.

(** X12.  A queued pattern change is applied only on the first beat of a
    bar at or after its target bar, and only once.  Whenever a clock message
    asks the engine for a pattern, a pattern index and a target bar were
    queued, the message started beat 1 of a bar not before the target, the
    index asked for is the queued one, and the queue is empty afterwards.
    Conversely a clock message that starts such a bar, with no
    synchronisation pending, does ask for the queued pattern. *)
Theorem queued_pattern_starts_on_a_bar (now : Qc) (s : ClockConsumer) :
  let s' := handle_clock now s in
  (pattern_request s' <> pattern_request s ->
   exists idx target,
     es_queued_pattern_index s = Some idx /\
     es_queue_target_bar s = Some target /\
     pattern_request s' = Some idx /\
     tick_count s' = 0%Z /\ ui_beat s' = 1%Z /\ (target <= ui_bar s')%Z /\
     es_queued_pattern_index s' = None /\ es_queue_target_bar s' = None) /\
  (forall idx target,
     es_queued_pattern_index s = Some idx ->
     es_queue_target_bar s = Some target ->
     tick_count s = 23%Z -> pending_reset s = false ->
     (beat_count s mod 4 = 0)%Z -> (target <= beat_count s / 4 + 1)%Z ->
     pattern_request s' = Some idx /\
     es_queued_pattern_index s' = None /\ es_queue_target_bar s' = None).
Proof.
  cbv zeta. unfold handle_clock, TICKS_PER_BEAT. split.
  - destruct (24 <=? tick_count s + 1)%Z; [| cbn; congruence].
    destruct (pending_reset s); [cbn; congruence |].
    destruct ((beat_count s + 1 - 1) mod 4 + 1 =? 1)%Z eqn:Hbeat;
      [| cbn; congruence].
    destruct (es_queued_pattern_index s) as [idx |]; [| cbn; congruence].
    destruct (es_queue_target_bar s) as [target |]; [| cbn; congruence].
    destruct (target <=? (beat_count s + 1 - 1) / 4 + 1)%Z eqn:Hbar;
      [| cbn; congruence].
    intros _. exists idx, target. cbn.
    apply Z.eqb_eq in Hbeat. apply Z.leb_le in Hbar.
    repeat split; try reflexivity; assumption.
  - intros idx target -> -> Ht Hp Hmod Hbar.
    rewrite Ht, Hp. cbn [Z.leb Z.add Z.compare Pos.compare Pos.compare_cont
                         Pos.add Pos.succ].
    replace (beat_count s + 1 - 1)%Z with (beat_count s) by lia.
    rewrite Hmod. cbn [Z.add Z.eqb Pos.eqb].
    rewrite (proj2 (Z.leb_le _ _) Hbar). cbn. repeat split.
Qed.

Lemma queued_pattern_starts_on_a_bar_witness :
  let s :=
    mkClockConsumer 23 8 (of_Z 1000) (of_Z 120) false 2 4 (frac 191 24)
      (of_Z 120) 8 (Some 5%Z) (Some 3%Z) None in
  pattern_request (handle_clock (of_Z 1001) s) = Some 5%Z.
Proof.
  cbv zeta.
  apply (queued_pattern_starts_on_a_bar (of_Z 1001)
    (mkClockConsumer 23 8 (of_Z 1000) (of_Z 120) false 2 4 (frac 191 24)
       (of_Z 120) 8 (Some 5%Z) (Some 3%Z) None) ) with (target := 3%Z);
    reflexivity || (cbn; lia).
Defined.

(** A song-position message at [pos] sixteenth notes publishes the
    beat position [pos / 4] exactly, and shows the bar and the beat in the
    bar that go with it: the beat is one of 1 .. 4 and
    [4 * (bar - 1) + beat] is the beat counter. *)
Theorem songpos_is_a_quarter_of_pos (pos : Z) (s : ClockConsumer) :
  let s' := handle_songpos pos s in
  es_beat_position s' = of_Z pos / of_Z 4 /\
  (1 <= ui_beat s' <= 4)%Z /\
  (4 * (ui_bar s' - 1) + ui_beat s')%Z = beat_count s'.
Proof.
  cbv zeta. unfold handle_songpos, TICKS_PER_BEAT. cbn.
  change (24 / 4)%Z with 6%Z.
  pose proof (Z.mod_pos_bound (pos / 4 + 1 - 1) 4 ltac:(lia)) as Hb.
  pose proof (Z.div_mod (pos / 4 + 1 - 1) 4 ltac:(lia)) as Hdm.
  split; [| split; lia].
  unfold beat_position_of, TICKS_PER_BEAT.
  replace (pos / 4 + 1 - 1)%Z with (pos / 4)%Z by lia.
  rewrite (Z.div_mod pos 4) at 3 by lia.
  rewrite of_Z_add, !of_Z_mul.
  assert (H4 : of_Z 4 <> 0) by (apply of_Z_neq_0; lia).
  assert (H24 : of_Z 24 <> 0) by (apply of_Z_neq_0; lia).
  assert (H6 : of_Z 6 * of_Z 4 = of_Z 24) by (rewrite <- of_Z_mul; reflexivity).
  rewrite <- H6. field. split; [exact H4 |].
  apply of_Z_neq_0. lia.
Qed.

(** ** The light context *)

Lemma py_range_split (a b c : Z) :
  (a <= b <= c)%Z -> py_range a b ++ py_range b c = py_range a c.
Proof.
  intros Habc. unfold py_range.
  replace (Z.to_nat (c - a)) with (Z.to_nat (b - a) + Z.to_nat (c - b))%nat
    by lia.
  rewrite seq_app, map_app. f_equal. cbn [Nat.add].
  replace (seq (Z.to_nat (b - a)) (Z.to_nat (c - b)))
    with ((fun x => Z.to_nat (b - a) + x)%nat <$> seq 0 (Z.to_nat (c - b)))
    by (rewrite fmap_add_seq; f_equal; lia).
  change (map ?f (?g <$> ?l)) with (f <$> (g <$> l)).
  rewrite <- list_fmap_compose. apply list_fmap_ext. intros _ i _. cbn. lia.
Qed.

(** A context always knows the group "all": the constructor adds it,
    as all the lights in order, when the groups given lack it, and keeps the
    one given otherwise.  A name that is no group resolves to the empty
    list, never to an error.  In the default context, "left" followed by
    "right" is "all". *)
Theorem context_groups (n : Z) (gs : gmap string (list Z)) (name : string) :
  (LightContext_resolve_group (LightContext_new n gs) "all" =
     match gs !! "all" with Some l => l | None => py_range 0 n end) /\
  (name <> "all" ->
   LightContext_resolve_group (LightContext_new n gs) name =
     default [] (gs !! name)) /\
  (let ctx := LightContext_default n in
   LightContext_resolve_group ctx "all" = py_range 0 n /\
   LightContext_resolve_group ctx "left" ++
     LightContext_resolve_group ctx "right" = py_range 0 n /\
   (name ∉ ["all"; "left"; "right"; "odd"; "even"] ->
    LightContext_resolve_group ctx name = [])).
Proof.
  split; [| split].
  - unfold LightContext_resolve_group, LightContext_new.
    destruct (gs !! "all") as [l |] eqn:Hall; cbn [groups].
    + rewrite Hall. reflexivity.
    + rewrite lookup_insert_eq. reflexivity.
  - intros Hname. unfold LightContext_resolve_group, LightContext_new.
    destruct (gs !! "all"); cbn [groups]; [reflexivity |].
    rewrite lookup_insert_ne by congruence. reflexivity.
  - cbv zeta. unfold LightContext_default, LightContext_resolve_group,
      LightContext_new.
    rewrite lookup_insert_eq. cbn [groups].
    split; [rewrite lookup_insert_eq; reflexivity |]. split.
    + rewrite lookup_insert_ne by discriminate. rewrite lookup_insert_eq.
      rewrite !lookup_insert_ne by discriminate. rewrite lookup_insert_eq.
      cbn [default]. unfold Datatypes.id.
      destruct (Z_le_gt_dec 0 n) as [Hn | Hn].
      * apply py_range_split.
        pose proof (Z.div_pos n 2 Hn ltac:(lia)).
        pose proof (Z.div_le_upper_bound n 2 n ltac:(lia) ltac:(lia)). lia.
      * assert (n / 2 < 0)%Z by (apply Z.div_lt_upper_bound; lia).
        assert (n <= n / 2)%Z by (apply Z.div_le_lower_bound; lia).
        unfold py_range.
        replace (Z.to_nat (n / 2 - 0)) with 0%nat by lia.
        replace (Z.to_nat (n - n / 2)) with 0%nat by lia.
        replace (Z.to_nat (n - 0)) with 0%nat by lia. reflexivity.
    + intros Hname. rewrite !not_elem_of_cons in Hname.
      destruct Hname as (H1 & H2 & H3 & H4 & H5 & _).
      rewrite !lookup_insert_ne by congruence. reflexivity.
Qed.

Lemma context_groups_witness :
  LightContext_resolve_group (LightContext_default 6) "front" = [].
Proof.
  apply (context_groups 6 ∅ "front"). vm_compute.
  intros Hin. repeat (inversion Hin as [| ? ? ? Hin']; subst; clear Hin;
                      rename Hin' into Hin).
Defined.

(** ** seq over a whole event *)

Lemma seq_num_slots_ge (slots : option Z) (n : Z) (ctx : LightContext)
    (num_slots : Z) :
  (0 < n)%Z -> seq_num_slots slots n ctx = Some num_slots ->
  (n <= num_slots)%Z.
Proof.
  intros Hn. destruct slots as [s |].
  - unfold seq_num_slots. destruct (num_lights ctx =? 0)%Z; [discriminate |].
    intros [= <-]. lia.
  - apply seq_num_slots_covers. exact Hn.
Qed.

Lemma Qc_mul_pos (a b : Qc) : 0 < a -> 0 < b -> 0 < a * b.
Proof. qc2q. intros. nra. Qed.

Lemma Qc_mul_nonneg (a b : Qc) : 0 <= a -> 0 <= b -> 0 <= a * b.
Proof. qc2q. intros. nra. Qed.

Lemma Qc_mul_le_l (d a b : Qc) : 0 <= d -> a <= b -> d * a <= d * b.
Proof. qc2q. intros. nra. Qed.

Lemma slot_inside (s e lo hi : Qc) (N slot : Z) :
  s < e -> lo <= s -> e <= hi -> (0 <= slot < N)%Z ->
  let d := (e - s) / of_Z N in
  lo <= s + d * of_Z slot /\
  s + d * of_Z slot < s + d * of_Z slot + d /\
  s + d * of_Z slot + d <= hi.
Proof.
  intros Hse Hlo Hhi Hslot d.
  assert (HN : 0 < of_Z N) by (apply (proj1 (of_Z_lt 0 N)); lia).
  assert (HN0 : of_Z N <> 0) by (apply Qc_pos_neq_0; exact HN).
  assert (Hd : 0 < d).
  { unfold d, Qcdiv. apply Qc_mul_pos.
    - revert Hse. qc2q. lra.
    - apply Qcinv_pos. exact HN. }
  assert (HdN : d * of_Z N = e - s) by (unfold d; field; exact HN0).
  assert (Hs0 : 0 <= of_Z slot) by (apply (proj1 (of_Z_le 0 slot)); lia).
  assert (Hs1 : of_Z slot + 1 <= of_Z N).
  { rewrite <- of_Z_succ. apply (proj1 (of_Z_le _ _)). lia. }
  assert (Hm0 : 0 <= d * of_Z slot).
  { apply Qc_mul_nonneg; [apply Qclt_le_weak; exact Hd | exact Hs0]. }
  assert (Hm1 : d * (of_Z slot + 1) <= d * of_Z N).
  { apply Qc_mul_le_l; [apply Qclt_le_weak; exact Hd | exact Hs1]. }
  rewrite HdN in Hm1.
  replace (d * (of_Z slot + 1)) with (d * of_Z slot + d) in Hm1 by ring.
  revert Hm0 Hm1 Hd Hlo Hhi.
  generalize (d * of_Z slot). generalize d. clear. intros d x.
  qc2q. intros. repeat split; lra.
Qed.


Lemma seq_group_events_whole (slots : option Z) (span : TimeSpan)
    (ctx : LightContext) (hap : LightHap) (lights : list Z) (num_slots : Z) :
  lights <> [] ->
  seq_num_slots slots (Z.of_nat (length lights)) ctx = Some num_slots ->
  start (LightHap_whole_or_part hap) < end_ (LightHap_whole_or_part hap) ->
  start span <= start (LightHap_whole_or_part hap) ->
  end_ (LightHap_whole_or_part hap) <= end_ span ->
  seq_group_events slots span ctx hap lights =
    Some (map (seq_slot hap lights num_slots) (py_range 0 num_slots)).
Proof.
  intros Hne Hslots Hdur Hlo Hhi. unfold seq_group_events.
  destruct lights as [| l0 lights]; [congruence |].
  rewrite Hslots. cbn [mbind option_bind]. f_equal.
  apply flat_map_map_on. apply List.Forall_forall. intros slot Hslot.
  apply list_elem_of_In, elem_of_py_range in Hslot.
  pose proof (slot_inside _ _ _ _ num_slots slot Hdur Hlo Hhi Hslot)
    as (H1 & H2 & H3).
  cbv zeta in H1, H2, H3 |- *. unfold TimeSpan_intersection.
  cbn [start end_]. unfold TimeSpan_duration.
  rewrite (py_max_l _ _ H1), (py_min_l _ _ H3).
  rewrite (proj2 (Qc_ltb_lt _ _) H2). reflexivity.
Qed.

(** X13.  [seq()] over a whole event gives every light of the group a
    turn.  For an event that names a group of [n >= 1] lights and lies
    inside the query span, [seq(per_group=False)] replaces it by one event
    per slot: the number of slots is at least [n], the slots follow one
    another from the start of the event to its end, and
    slot [i] lights the light [(base + i) mod n] of the group, so that every
    light of the group is lit in some slot. *)
Theorem seq_gives_every_light_a_turn (slots : option Z) (span : TimeSpan)
    (ctx : LightContext) (hap : LightHap) (name : string) (num_slots : Z) :
  let lights := LightContext_resolve_group ctx name in
  let event_span := LightHap_whole_or_part hap in
  group_name (hap_value hap) = Some name ->
  light_id (hap_value hap) = None ->
  lights <> [] ->
  seq_num_slots slots (Z.of_nat (length lights)) ctx = Some num_slots ->
  start event_span < end_ event_span ->
  start span <= start event_span -> end_ event_span <= end_ span ->
  seq_hap slots false span ctx hap =
    Some (map (seq_slot hap lights num_slots) (py_range 0 num_slots)) /\
  (Z.of_nat (length lights) <= num_slots)%Z /\
  (forall l, l ∈ lights ->
     exists slot, (0 <= slot < num_slots)%Z /\
       light_id (hap_value (seq_slot hap lights num_slots slot)) = Some l) /\
  start (part (seq_slot hap lights num_slots 0)) = start event_span /\
  end_ (part (seq_slot hap lights num_slots (num_slots - 1)))
    = end_ event_span /\
  (forall slot,
     end_ (part (seq_slot hap lights num_slots slot)) =
       start (part (seq_slot hap lights num_slots (slot + 1)))).
Proof.
  intros lights event_span Hg Hl Hne Hslots Hdur Hlo Hhi.
  assert (Hn : (0 < Z.of_nat (length lights))%Z).
  { destruct lights; [congruence | cbn; lia]. }
  pose proof (seq_num_slots_ge _ _ _ _ Hn Hslots) as HN.
  assert (HN0 : of_Z num_slots <> 0) by (apply of_Z_neq_0; lia).
  split; [| split; [exact HN | split; [| split; [| split]]]].
  - unfold seq_hap. rewrite Hg, Hl. unfold seq_physical_groups.
    cbn [andb mapM]. fold lights.
    rewrite (seq_group_events_whole slots span ctx hap lights num_slots
               Hne Hslots Hdur Hlo Hhi).
    cbn. rewrite app_nil_r. reflexivity.
  - intros l Hin. apply list_elem_of_lookup in Hin as [j Hj].
    pose proof (lookup_lt_Some _ _ _ Hj) as Hjlt.
    set (n := Z.of_nat (length lights)) in *.
    set (base := ((py_int (start event_span) * num_slots) mod n)%Z).
    exists ((Z.of_nat j - base) mod n)%Z.
    pose proof (Z.mod_pos_bound (Z.of_nat j - base) n Hn) as Hb.
    split; [lia |].
    unfold seq_slot. cbn [hap_value light_id]. fold event_span n base.
    f_equal.
    replace ((base + (Z.of_nat j - base) mod n) mod n)%Z with (Z.of_nat j).
    + rewrite Nat2Z.id. apply nth_lookup_Some with (d := 0%Z) in Hj.
      exact Hj.
    + rewrite Zplus_mod_idemp_r.
      replace (base + (Z.of_nat j - base))%Z with (Z.of_nat j) by lia.
      symmetry. apply Z.mod_small. lia.
  - unfold seq_slot. cbn [part start]. change (of_Z 0) with 0.
    rewrite Qcmult_0_r, Qcplus_0_r. reflexivity.
  - unfold seq_slot. cbn [part end_]. fold event_span.
    replace (of_Z (num_slots - 1)) with (of_Z num_slots - 1).
    + unfold TimeSpan_duration. field. exact HN0.
    + replace num_slots with (num_slots - 1 + 1)%Z at 1 by lia.
      rewrite of_Z_succ. ring.
  - intros slot. unfold seq_slot. cbn [part start end_].
    rewrite of_Z_succ. field. exact HN0.
Qed.

Lemma seq_gives_every_light_a_turn_witness :
  let ctx := LightContext_default 6 in
  let hap :=
    mkLightHap (Some (mkTimeSpan 0 1)) (mkTimeSpan 0 1)
      (LightValue_new None (Some "all")) in
  seq_hap None false (mkTimeSpan 0 1) ctx hap =
    Some (map (seq_slot hap (LightContext_resolve_group ctx "all") 8)
            (py_range 0 8)).
Proof.
  cbv zeta.
  apply (seq_gives_every_light_a_turn None (mkTimeSpan 0 1)
           (LightContext_default 6)
           (mkLightHap (Some (mkTimeSpan 0 1)) (mkTimeSpan 0 1)
              (LightValue_new None (Some "all"))) "all" 8).
  - reflexivity.
  - reflexivity.
  - vm_compute. discriminate.
  - vm_compute. reflexivity.
  - cbn. qc_eval.
  - cbn. qc_eval.
  - cbn. qc_eval.
Defined.

(** ** pick *)

Section PickErrors.
Context `{PyRuntime}.

(** X14.  [pick] needs as many lights as its minimum.  For an event that
    names no light, with integer bounds [min_n] and [max_n] and no hold,
    [pick] raises (the [ValueError] of [randint] on an empty range) exactly
    when [min_n] is greater than [max_n] or than the number of lights of
    the event's group; an event whose group has no light is dropped without
    an error, and an event that names a light is passed on unchanged. *)
Theorem pick_needs_enough_lights (min_n max_n : Z) (seed : option Z)
    (ctx : LightContext) (hap : LightHap) :
  let lights :=
    match group_name (hap_value hap) with
    | Some name => LightContext_resolve_group ctx name
    | None => py_range 0 (num_lights ctx)
    end in
  let picked :=
    pick_hap (CountInt min_n) (CountInt max_n) seed None ctx hap in
  (is_Some (light_id (hap_value hap)) -> picked = Some [hap]) /\
  (light_id (hap_value hap) = None -> lights = [] -> picked = Some []) /\
  (light_id (hap_value hap) = None -> lights <> [] ->
   (picked = None <->
    (max_n < min_n \/ Z.of_nat (length lights) < min_n)%Z)).
Proof.
  cbv zeta. unfold pick_hap. split; [| split].
  - intros [l ->]. reflexivity.
  - intros -> ->. reflexivity.
  - intros -> Hne.
    destruct (match group_name (hap_value hap) with
              | Some name => LightContext_resolve_group ctx name
              | None => py_range 0 (num_lights ctx)
              end) as [| l0 lights]; [congruence |].
    cbn [mbind option_bind resolve_count]. unfold rng_randint.
    set (len := Z.of_nat (length (l0 :: lights))).
    destruct (Z.min max_n len <? min_n)%Z eqn:Hcmp.
    + apply Z.ltb_lt in Hcmp. split; [intros _; lia | reflexivity].
    + apply Z.ltb_ge in Hcmp.
      destruct (randbelow _ _) as [k g']. cbn [mbind option_bind].
      split; [discriminate | lia].
Qed.

End PickErrors.

Lemma pick_needs_enough_lights_witness :
  let hap :=
    mkLightHap (Some (mkTimeSpan 0 1)) (mkTimeSpan 0 1)
      (LightValue_new None (Some "left")) in
  pick_hap (H := lcg_runtime) (CountInt 4) (CountInt 4) None None
    (LightContext_default 6) hap = None.
Proof.
  cbv zeta.
  apply (pick_needs_enough_lights (H := lcg_runtime) 4 4 None
           (LightContext_default 6)
           (mkLightHap (Some (mkTimeSpan 0 1)) (mkTimeSpan 0 1)
              (LightValue_new None (Some "left")))).
  - reflexivity.
  - vm_compute. discriminate.
  - right. vm_compute. reflexivity.
Defined.

(** ** The value transforms *)

Section ColorFacts.
Context `{PyRuntime}.

(** X15.  The colour set last wins.  A call [.color(a)] after [.color(b)]
    gives the events of [.color(a)] alone, whether [a] and [b] are literal
    colours or palette references: setting a literal clears the reference
    and setting a reference clears the literal.  A literal colour set last
    is therefore the base colour the scheduler resolves under every
    palette, and [.color()] without an argument changes nothing. *)
Theorem last_color_wins (a b : ColorArg) (p : LightPattern)
    (span : TimeSpan) (ctx : LightContext) :
  color_transform (Some a) None None (color_transform (Some b) None None p)
    span ctx
  = color_transform (Some a) None None p span ctx /\
  color_transform None None None p span ctx = p span ctx /\
  (forall c haps self idx cp,
     color_transform (Some (ColorHSV c)) None None p span ctx = Some haps ->
     Forall (fun h =>
               resolve_color self (color (hap_value h))
                 (color_ref (hap_value h)) idx cp = Some c)
            haps).
Proof.
  split; [| split].
  - unfold color_transform. cbn [literal_of ref_of].
    destruct (p span ctx) as [haps |]; [| reflexivity].
    cbn [mbind option_bind]. f_equal. rewrite map_map.
    apply map_ext. intros [w pt v].
    destruct a as [ca | ra], b as [cb | rb]; reflexivity.
  - unfold color_transform. cbn [literal_of ref_of].
    destruct (p span ctx) as [haps |]; [| reflexivity].
    cbn [mbind option_bind]. f_equal. rewrite <- (map_id haps) at 2.
    apply map_ext. intros [w pt v]. reflexivity.
  - intros c haps self idx cp. unfold color_transform.
    cbn [literal_of ref_of].
    destruct (p span ctx) as [src |]; [| discriminate].
    cbn [mbind option_bind]. intros [= <-].
    apply List.Forall_forall. intros h Hin.
    apply in_map_iff in Hin as (h0 & <- & _). reflexivity.
Qed.

End ColorFacts.

(** ** Merging envelopes *)

(** X16.  [Envelope.merge] keeps, field by field, the first value that is
    not the default.  It follows that the default envelope [Envelope()] is
    neutral on both sides and that merging is associative, so that
    [.envelope(...)] calls can be grouped in any way. *)
Theorem envelope_merge_is_a_monoid (a b c : Envelope) :
  Envelope_merge a (Some (Envelope_new 0 0 1 0)) = a /\
  Envelope_merge (Envelope_new 0 0 1 0) (Some a) = a /\
  Envelope_merge a None = a /\
  Envelope_merge (Envelope_merge a (Some b)) (Some c) =
    Envelope_merge a (Some (Envelope_merge b (Some c))).
Proof.
  destruct a as [a1 a2 a3 a4 a5 a6 a7 a8], b as [b1 b2 b3 b4 b5 b6 b7 b8],
    c as [c1 c2 c3 c4 c5 c6 c7 c8].
  unfold Envelope_merge, Envelope_new, py_or.
  cbn [attack decay sustain release flash_color fade_color flash_ref fade_ref].
  repeat split.
  - f_equal; try (case_bool_decide; congruence).
    + destruct a5; reflexivity.
    + destruct a6; reflexivity.
    + destruct a7; reflexivity.
    + destruct a8; reflexivity.
  - f_equal;
      try (repeat case_bool_decide; congruence).
    + destruct a5; reflexivity.
    + destruct a6; reflexivity.
    + destruct a7; reflexivity.
    + destruct a8; reflexivity.
Qed.

(** ** Modulators *)

Section ModulatorFacts.
Context `{PyRuntime}.

Lemma fold_left_mul {A} (f : A -> Qc) (l : list A) (x : Qc) :
  fold_left (fun acc a => acc * f a) l x =
    x * fold_left (fun acc a => acc * f a) l 1.
Proof.
  revert x. induction l as [| a l IH]; intros x; cbn.
  - ring.
  - rewrite IH, (IH (1 * f a)). ring.
Qed.

(** The intensity of a modulator is the intensity of its own wave times the
    intensities of the modulators chained to it. *)
Lemma Modulator_get_intensity_chain (w : WaveType) (f mn mx ph r : Qc)
    (c : list Modulator) (t : Qc) :
  Modulator_get_intensity (mkModulator w f mn mx ph r c) t =
    Modulator_get_intensity (mkModulator w f mn mx ph r []) t *
    fold_left (fun acc m => acc * Modulator_get_intensity m t) c 1.
Proof.
  cbn [Modulator_get_intensity wave frequency min_intensity max_intensity
       phase reference_time chain fold_left].
  apply fold_left_mul.
Qed.

(** X17.  Chained modulators multiply.  The intensity of [a.chain(b)] at a
    cycle position is the intensity of [a] times the intensity of [b] as
    the chain holds it: [b] itself when [b] has no chain, and otherwise
    [b] with its reference time dropped (the copy of [b]'s wave is built
    without it).  So the product is that of [a] and [b] whenever [b] has no
    chain or has the reference time zero; [.modulate(...)] on an event that
    has a modulator multiplies the two, and installs its modulator on an
    event that has none. *)
Theorem chained_modulators_multiply (a b : Modulator) (t : Qc) :
  Modulator_get_intensity (Modulator_chain a b) t =
    Modulator_get_intensity a t * Modulator_get_intensity (as_chained b) t /\
  (chain b = [] \/ reference_time b = 0 ->
   Modulator_get_intensity (Modulator_chain a b) t =
     Modulator_get_intensity a t * Modulator_get_intensity b t) /\
  (forall w f mn mx ph (p : LightPattern) span ctx haps,
     p span ctx = Some haps ->
     exists out,
       modulate_transform w f mn mx ph p span ctx = Some out /\
       Forall2
         (fun h h' =>
            whole h' = whole h /\ part h' = part h /\
            exists m',
              modulator (hap_value h') = Some m' /\
              Modulator_get_intensity m' t =
                match modulator (hap_value h) with
                | Some m => Modulator_get_intensity m t
                | None => 1
                end *
                Modulator_get_intensity (mkModulator w f mn mx ph 0 []) t)
         haps out).
Proof.
  assert (Hchain : forall a b,
    Modulator_get_intensity (Modulator_chain a b) t =
    Modulator_get_intensity a t * Modulator_get_intensity (as_chained b) t).
  { clear a b. intros a b.
    destruct a as [wa fa mna mxa pa ra ca], b as [wb fb mnb mxb pb rb cb].
    unfold Modulator_chain, as_chained.
    cbn [wave frequency min_intensity max_intensity phase reference_time
         chain].
    rewrite (Modulator_get_intensity_chain wa fa mna mxa pa ra ca).
    destruct cb as [| c0 cb].
    - rewrite Modulator_get_intensity_chain, fold_left_app.
      cbn [fold_left]. rewrite fold_left_mul at 1.
      rewrite <- !Qcmult_assoc. f_equal. ring.
    - rewrite Modulator_get_intensity_chain, !fold_left_app.
      cbn [fold_left].
      rewrite (Modulator_get_intensity_chain wb fb mnb mxb pb 0 (c0 :: cb)).
      cbn [fold_left].
      rewrite (fold_left_mul _ cb (fold_left _ ca 1 * _)).
      rewrite (fold_left_mul _ cb (1 * _)).
      ring. }
  split; [apply Hchain |]. split.
  - intros Hb. rewrite Hchain. f_equal. unfold as_chained.
    destruct b as [wb fb mnb mxb pb rb cb].
    cbn [chain reference_time wave frequency min_intensity max_intensity
         phase] in *.
    destruct cb as [| c0 cb]; [reflexivity |].
    destruct Hb as [Hb | ->]; [discriminate | reflexivity].
  - intros w f mn mx ph p span ctx haps Hp. eexists.
    unfold modulate_transform. rewrite Hp. cbn [mbind option_bind].
    split; [reflexivity |].
    apply Forall2_fmap_r, Forall_Forall2_diag, List.Forall_forall.
    intros [wh pt [l g c r i e [m |]]] _;
      (split; [reflexivity |]); (split; [reflexivity |]);
      eexists; (split; [reflexivity |]).
    + cbn [hap_value modulator]. rewrite Hchain. reflexivity.
    + cbn [hap_value modulator]. ring.
Qed.

End ModulatorFacts.

Lemma py_floor_add_int (x : Qc) (k : Z) :
  py_floor (x + of_Z k) = (py_floor x + k)%Z.
Proof.
  apply py_floor_unique.
  - pose proof (py_mod1_range x) as [Hlo _]. unfold py_mod1 in Hlo.
    rewrite of_Z_add. revert Hlo.
    generalize (of_Z (py_floor x)), (of_Z k). intros a b. qc2q. lra.
  - pose proof (py_mod1_range x) as [_ Hhi]. unfold py_mod1 in Hhi.
    rewrite of_Z_succ, of_Z_add. revert Hhi.
    generalize (of_Z (py_floor x)), (of_Z k). intros a b. qc2q. lra.
Qed.

Lemma py_mod1_add_int (x : Qc) (k : Z) : py_mod1 (x + of_Z k) = py_mod1 x.
Proof.
  unfold py_mod1. rewrite py_floor_add_int, of_Z_add. ring.
Qed.

Section ModulatorRange.
Context `{PyRuntime}.

(** X18.  A triangle, saw or square modulator without a chain stays between
    its two intensities: its value is [min_intensity] plus a share between
    0 and 1 of [max_intensity - min_intensity], whichever of the two is the
    larger. *)
Theorem modulator_stays_in_range (m : Modulator) (t : Qc) :
  chain m = [] -> wave m <> SINE ->
  (min_intensity m <= max_intensity m ->
   min_intensity m <= Modulator_get_intensity m t /\
   Modulator_get_intensity m t <= max_intensity m) /\
  (max_intensity m <= min_intensity m ->
   max_intensity m <= Modulator_get_intensity m t /\
   Modulator_get_intensity m t <= min_intensity m).
Proof.
  destruct m as [w f mn mx ph r c]. cbn [chain wave min_intensity max_intensity].
  intros -> Hw.
  cbn [Modulator_get_intensity wave frequency min_intensity max_intensity
       phase reference_time chain fold_left].
  pose proof (py_mod1_range ((t - r) * f + ph)) as [H0 H1].
  set (x := py_mod1 ((t - r) * f + ph)) in *. clearbody x.
  assert (Hwv : forall wv : Qc, 0 <= wv -> wv <= 1 ->
    (mn <= mx -> mn <= mn + wv * (mx - mn) /\ mn + wv * (mx - mn) <= mx) /\
    (mx <= mn -> mx <= mn + wv * (mx - mn) /\ mn + wv * (mx - mn) <= mn)).
  { clear. intros wv. qc2q. intros. split; intros; split; nra. }
  destruct w; [congruence | | |]; apply Hwv.
  - case_ltb x (frac 1 2); revert H0 H1 Hcmp; qc2q; lra.
  - case_ltb x (frac 1 2); revert H0 H1 Hcmp; qc2q; lra.
  - exact H0.
  - apply Qclt_le_weak. exact H1.
  - case_ltb x (frac 1 2); qc_eval.
  - case_ltb x (frac 1 2); qc_eval.
Qed.

(** A modulator without a chain repeats with the period of its
    frequency: moving the cycle position by a whole number of periods
    [1 / frequency] leaves the intensity unchanged, for every waveform. *)
Theorem modulator_is_periodic (m : Modulator) (t : Qc) (k : Z) :
  chain m = [] -> frequency m <> 0 ->
  Modulator_get_intensity m (t + of_Z k / frequency m) =
    Modulator_get_intensity m t.
Proof.
  destruct m as [w f mn mx ph r c]. cbn [chain frequency].
  intros -> Hf.
  cbn [Modulator_get_intensity wave frequency min_intensity max_intensity
       phase reference_time chain fold_left].
  replace ((t + of_Z k / f - r) * f + ph) with ((t - r) * f + ph + of_Z k)
    by (field; exact Hf).
  rewrite py_mod1_add_int. reflexivity.
Qed.

End ModulatorRange.

Lemma modulator_stays_in_range_witness :
  let m := mkModulator SAW (of_Z 4) 1 (frac 4 5) 0 0 [] in
  frac 4 5 <= Modulator_get_intensity (H := lcg_runtime) m (frac 1 3) /\
  Modulator_get_intensity (H := lcg_runtime) m (frac 1 3) <= 1.
Proof.
  cbv zeta.
  apply (modulator_stays_in_range (H := lcg_runtime)
           (mkModulator SAW (of_Z 4) 1 (frac 4 5) 0 0 []) (frac 1 3)).
  - reflexivity.
  - discriminate.
  - cbn. qc_eval.
Defined.

Lemma modulator_is_periodic_witness :
  let m := mkModulator TRIANGLE (of_Z 4) 0 1 0 0 [] in
  Modulator_get_intensity (H := lcg_runtime) m (frac 1 3 + of_Z 3 / of_Z 4) =
    Modulator_get_intensity (H := lcg_runtime) m (frac 1 3).
Proof.
  cbv zeta.
  apply (modulator_is_periodic (H := lcg_runtime)
           (mkModulator TRIANGLE (of_Z 4) 0 1 0 0 []) (frac 1 3) 3).
  - reflexivity.
  - cbn. apply of_Z_neq_0. lia.
Defined.

(** ** Envelopes *)

Lemma Qc_div_unit (t a : Qc) :
  0 <= t -> t < a -> 0 <= t / a /\ t / a < 1.
Proof.
  intros Ht Hta.
  assert (Ha : a <> 0) by (intros ->; revert Ht Hta; qc2q; lra).
  assert (Hx : t / a * a = t) by (field; exact Ha).
  assert (H1 : t / a * a <= t) by (rewrite Hx; apply Qcle_refl).
  assert (H2 : t <= t / a * a) by (rewrite Hx; apply Qcle_refl).
  revert Ht Hta H1 H2. generalize (t / a). clear. intros x.
  qc2q. intros. split; nra.
Qed.

(** X19.  The intensity of an envelope is a share of the event's intensity.
    For an envelope with [attack >= 0], [decay >= 0] and
    [0 <= sustain <= 1], [get_intensity] is 0 before the event starts and
    lies between 0 and 1 at every time; from the start of the event on it
    is at least the smaller of 0.1 and [sustain], so an event whose sustain
    level is 0.1 or more is never dimmed below a tenth. *)
Theorem envelope_intensity_in_unit (e : Envelope) (t : Qc) :
  0 <= attack e -> 0 <= decay e -> 0 <= sustain e -> sustain e <= 1 ->
  (t < 0 -> Envelope_get_intensity e t = 0) /\
  0 <= Envelope_get_intensity e t /\ Envelope_get_intensity e t <= 1 /\
  (0 <= t -> py_min (frac 1 10) (sustain e) <= Envelope_get_intensity e t).
Proof.
  intros Ha Hd Hs0 Hs1.
  pose proof (py_min_spec (frac 1 10) (sustain e)) as [Hm1 Hm2].
  set (lo := py_min (frac 1 10) (sustain e)) in *. clearbody lo.
  unfold Envelope_get_intensity.
  case_ltb t 0.
  { split; [reflexivity |]. split; [apply Qcle_refl |].
    split; [qc_eval |]. intros Ht. exfalso. revert Ht Hcmp. qc2q. lra. }
  split; [intros Ht; exfalso; revert Ht Hcmp; qc2q; lra |].
  case_ltb t (attack e).
  - case_leb (attack e) 0.
    { repeat split; try qc_eval. intros _. revert Hm1. qc2q. lra. }
    destruct (Qc_div_unit t (attack e) Hcmp Hcmp0) as [Hx0 Hx1].
    case_ltb (frac 1 20) (attack e).
    + pose proof (py_max_spec (frac 1 10) (t / attack e)) as [Hp1 Hp2].
      assert (Hp3 : py_max (frac 1 10) (t / attack e) <= 1).
      { unfold py_max. case_ltb (frac 1 10) (t / attack e).
        - apply Qclt_le_weak. exact Hx1.
        - qc_eval. }
      revert Hp1 Hp3 Hm1. generalize (py_max (frac 1 10) (t / attack e)).
      intros y. qc2q. intros. repeat split; lra.
    + repeat split; try qc_eval. intros _. revert Hm1. qc2q. lra.
  - case_ltb (t - attack e) (decay e).
    + case_leb (decay e) 0.
      { repeat split; try assumption.
        revert Hs0 Hm2. qc2q. lra. }
      assert (Hta : 0 <= t - attack e) by (revert Hcmp0; qc2q; lra).
      destruct (Qc_div_unit _ _ Hta Hcmp1) as [Hx0 Hx1].
      revert Hx0 Hx1 Hs0 Hs1 Hm2.
      generalize ((t - attack e) / decay e), (sustain e). intros x s.
      qc2q. intros. repeat split; nra.
    + repeat split; try assumption. intros _. exact Hm2.
Qed.

Lemma envelope_intensity_in_unit_witness :
  frac 1 10 <= Envelope_get_intensity flash_fade (frac 3 2) /\
  Envelope_get_intensity flash_fade (frac 3 2) <= 1.
Proof.
  destruct (envelope_intensity_in_unit flash_fade (frac 3 2))
    as (_ & _ & H1 & Hlo); try (cbn; qc_eval).
  split; [| exact H1].
  apply Qcle_trans with (py_min (frac 1 10) (sustain flash_fade));
    [qc_eval | apply Hlo; qc_eval].
Defined.

Section EnvelopeColor.
Context `{PyRuntime}.

(** X20.  The scheduler colours an event with [Envelope.get_color].  The
    colour that [_get_envelope_color] returns is the colour that
    [Envelope.get_color] returns for the envelope whose two colour slots
    hold what the scheduler resolved for them (the literal, else the
    palette reference resolved against the active palette); for an
    envelope without palette references, or a scheduler without a palette,
    the two functions return the same colour. *)
Theorem scheduler_uses_envelope_color (self : PatternScheduler)
    (env : Envelope) (t : Qc) (base : HSV) (idx : Z) (cp : Qc) :
  get_envelope_color self env t base idx cp =
    (flash ← resolve_slot self (flash_color env) (flash_ref env) idx cp;
     fade ← resolve_slot self (fade_color env) (fade_ref env) idx cp;
     Some (Envelope_get_color (with_resolved_colors env flash fade) t base)) /\
  (palette self = None \/ (flash_ref env = None /\ fade_ref env = None) ->
   get_envelope_color self env t base idx cp =
     Some (Envelope_get_color env t base)).
Proof.
  assert (Hgen : get_envelope_color self env t base idx cp =
    (flash ← resolve_slot self (flash_color env) (flash_ref env) idx cp;
     fade ← resolve_slot self (fade_color env) (fade_ref env) idx cp;
     Some (Envelope_get_color (with_resolved_colors env flash fade) t base))).
  { unfold get_envelope_color.
    destruct (resolve_slot self (flash_color env) _ idx cp) as [flash |];
      [| reflexivity].
    destruct (resolve_slot self (fade_color env) _ idx cp) as [fade |];
      [| reflexivity].
    cbn [mbind option_bind]. unfold Envelope_get_color, with_resolved_colors.
    cbn [attack decay flash_color fade_color].
    destruct (Qc_ltb t (attack env)).
    - destruct flash, fade; reflexivity.
    - destruct fade as [fd |], flash as [fl |]; try reflexivity.
      destruct (Qc_ltb 0 (decay env)), (Qc_ltb (t - attack env) (decay env));
        reflexivity. }
  split; [exact Hgen |].
  intros Hno. rewrite Hgen.
  assert (Hslot : forall lit ref,
            palette self = None \/ ref = None ->
            resolve_slot self lit ref idx cp = Some lit).
  { intros lit ref Hr. unfold resolve_slot.
    destruct lit; [reflexivity |].
    destruct ref; [| reflexivity].
    destruct Hr as [-> | Hr]; [reflexivity | discriminate]. }
  rewrite !Hslot by tauto. reflexivity.
Qed.

End EnvelopeColor.

Lemma scheduler_uses_envelope_color_witness :
  let self :=
    PatternScheduler_new (light notation_0) (LightContext_default 6)
      None (of_Z 4) None in
  get_envelope_color (H := lcg_runtime) self flash_fade (frac 1 2) named_red
    0 (frac 1 2)
  = Some (Envelope_get_color flash_fade (frac 1 2) named_red).
Proof.
  cbv zeta.
  apply (scheduler_uses_envelope_color (H := lcg_runtime)).
  left. reflexivity.
Defined.

(** ** Interpolating colours *)





(** ** Palettes *)


Section PaletteMembers.
Context `{PyRuntime}.



(** X24.  A random-blend reference holds like a random-hold reference.
    For a period that is not zero, [palette.random_blend(period, fade)]
    resolves to what [palette.random_hold(period)] resolves to at every
    position outside its fade: always when the fade is zero or less, and
    otherwise while the position in the period is before
    [period - min(fade, period)]. *)
Theorem random_blend_holds_like_random_hold (period fade : Qc)
    (pal : Palette) (idx : Z) (cp : Qc) :
  period <> 0 ->
  fade <= 0 \/
  py_fmod (cp * of_Z 4) period < period - py_min fade period ->
  PaletteRef_resolve (random_blend period fade) pal idx cp =
    PaletteRef_resolve (random_hold period) pal idx cp.
Proof.
  intros Hp Hphase. unfold PaletteRef_resolve, random_blend, random_hold.
  cbn [mode hold_beats blend_beats]. unfold py_div.
  rewrite bool_decide_eq_false_2 by exact Hp. cbn [mbind option_bind].
  replace (Qc_ltb (py_fmod (cp * of_Z 4) period)
             (period - py_min fade period)
           || Qc_leb (py_min fade period) 0) with true; [reflexivity |].
  symmetry. apply orb_true_iff. destruct Hphase as [Hf | Hlt].
  - right. apply Qc_leb_le.
    apply Qcle_trans with fade; [apply (proj1 (py_min_spec _ _)) | exact Hf].
  - left. apply Qc_ltb_lt. exact Hlt.
Qed.

End PaletteMembers.


Lemma random_blend_holds_like_random_hold_witness :
  PaletteRef_resolve (H := lcg_runtime) (random_blend (of_Z 4) 0)
    three_colors 0 (frac 9 4)
  = PaletteRef_resolve (H := lcg_runtime) (random_hold (of_Z 4))
      three_colors 0 (frac 9 4).
Proof.
  apply (random_blend_holds_like_random_hold (H := lcg_runtime)).
  - apply of_Z_neq_0. lia.
  - left. qc_eval.
Defined.

(** ** The scheduler and the palette *)

Lemma for_each_ext_in {I S} (body body' : I -> S -> Outcome S)
    (items : list I) (s : S) :
  (forall i s, i ∈ items -> body i s = body' i s) ->
  for_each body items s = for_each body' items s.
Proof.
  revert s. induction items as [| i items IH]; intros s Hext; cbn;
    [reflexivity |].
  rewrite <- (Hext i s ltac:(left)).
  destruct (body i s); [| reflexivity].
  apply IH. intros j t Hj. apply Hext. right. exact Hj.
Qed.

Lemma elem_of_enumerate {A} (xs : list A) (i : Z) (x : A) :
  (i, x) ∈ enumerate xs -> x ∈ xs.
Proof.
  unfold enumerate. intros Hin.
  apply elem_of_lookup_imap in Hin as (k & y & Heq & Hk).
  injection Heq as _ ->. eapply list_elem_of_lookup_2. exact Hk.
Qed.

Section PaletteIndependence.
Context `{PyRuntime}.

Lemma render_event_literal (self : PatternScheduler) (pal : option Palette)
    (v : LightValue) (t ct : Qc) (idx : Z) (cp : Qc) :
  literal_only v ->
  render_event (set_palette self pal) v t ct idx cp =
    render_event self v t ct idx cp.
Proof.
  intros [Hc Henv]. unfold render_event.
  assert (Hbase : resolve_color (set_palette self pal) (color v) (color_ref v)
                    idx cp
                  = resolve_color self (color v) (color_ref v) idx cp).
  { unfold resolve_color. rewrite Hc. destruct (color v); reflexivity. }
  rewrite Hbase.
  destruct (resolve_color self _ _ idx cp) as [base |]; [| reflexivity].
  cbn [mbind option_bind].
  destruct (envelope v) as [env |] eqn:He; [| reflexivity].
  destruct (Henv env eq_refl) as [Hfl Hfd].
  assert (Hcol : get_envelope_color (set_palette self pal) env t base idx cp
                 = get_envelope_color self env t base idx cp).
  { unfold get_envelope_color, resolve_slot. rewrite Hfl, Hfd.
    destruct (flash_color env), (fade_color env); reflexivity. }
  rewrite Hcol. reflexivity.
Qed.

Lemma first_pass_literal (self : PatternScheduler) (pal : option Palette)
    (cp : Qc) (haps : list LightHap) (fs : FrameState) :
  Forall (fun h => literal_only (hap_value h)) haps ->
  first_pass (set_palette self pal) cp haps fs = first_pass self cp haps fs.
Proof.
  intros Hlit. unfold first_pass. apply for_each_ext_in.
  intros [idx hap] s Hin. apply elem_of_enumerate in Hin.
  rewrite List.Forall_forall in Hlit.
  pose proof (Hlit hap (proj1 (list_elem_of_In _ _) Hin)) as Hh.
  unfold first_pass_hap. cbn [set_palette context].
  apply for_each_ext_in. intros l s' _.
  unfold first_pass_light. cbn [set_palette context].
  rewrite (render_event_literal self pal _ _ _ _ _ Hh). reflexivity.
Qed.

Lemma first_pass_light_active (self : PatternScheduler) (cp : Qc) (idx : Z)
    (hap : LightHap) (l : Z) (fs : FrameState) (P : LightValue -> Prop) :
  P (hap_value hap) ->
  (forall l a, frame_active fs !! l = Some a -> P (hap_value (active_hap a))) ->
  forall l' a,
    frame_active (final_state (first_pass_light self cp idx hap l fs)) !! l'
      = Some a ->
    P (hap_value (active_hap a)).
Proof.
  intros Hh Hfs. unfold first_pass_light.
  destruct (_ || _); [exact Hfs |].
  destruct (TimeSpan_contains _ cp); [| exact Hfs].
  destruct (render_event _ _ _ _ _ _) as [[i c] |]; [| exact Hfs].
  destruct (Qc_ltb i (frac 1 100)); [exact Hfs |].
  destruct (htp_write _ _ _ _ _) as [cs ints].
  cbn [final_state frame_active]. intros l' a.
  destruct (decide (l' = l)) as [-> | Hne].
  - rewrite lookup_insert_eq. intros [= <-]. exact Hh.
  - rewrite lookup_insert_ne by congruence. apply Hfs.
Qed.

Lemma first_pass_active (self : PatternScheduler) (cp : Qc)
    (haps : list LightHap) (fs : FrameState) (P : LightValue -> Prop) :
  Forall (fun h => P (hap_value h)) haps ->
  (forall l a, frame_active fs !! l = Some a -> P (hap_value (active_hap a))) ->
  forall l a,
    frame_active (final_state (first_pass self cp haps fs)) !! l = Some a ->
    P (hap_value (active_hap a)).
Proof.
  intros Hhaps Hfs. unfold first_pass.
  apply (for_each_invariant
           (fun fs => forall l a, frame_active fs !! l = Some a ->
                                  P (hap_value (active_hap a))));
    [| exact Hfs].
  intros [idx hap] s Hin Hs. apply elem_of_enumerate in Hin.
  rewrite List.Forall_forall in Hhaps.
  pose proof (Hhaps hap (proj1 (list_elem_of_In _ _) Hin)) as Hh.
  unfold first_pass_hap.
  apply (for_each_invariant
           (fun fs => forall l a, frame_active fs !! l = Some a ->
                                  P (hap_value (active_hap a))));
    [| exact Hs].
  intros l s' _ Hs'. apply first_pass_light_active; assumption.
Qed.

Lemma second_pass_literal (self : PatternScheduler) (pal : option Palette)
    (cp : Qc) (active : gmap Z ActiveEvent) (ts : TailState) :
  (forall l a, active !! l = Some a ->
               literal_only (hap_value (active_hap a))) ->
  second_pass (set_palette self pal) cp active ts =
    second_pass self cp active ts.
Proof.
  intros Hlit. unfold second_pass. apply for_each_ext_in.
  intros [l a] [[cs ints] expired] Hin.
  apply elem_of_map_to_list in Hin.
  unfold second_pass_light.
  rewrite (render_event_literal self pal _ _ _ _ _ (Hlit l a Hin)).
  reflexivity.
Qed.

(** X25.  Literal colours do not depend on the palette.  When neither the
    events of the pattern nor the events that the scheduler tracks carry a
    palette reference (as the colour or in the envelope), a frame computed
    after [set_palette(pal)] returns what the frame computed without it
    returns and leaves the same events tracked, for every palette [pal],
    [None] included. *)
Theorem literal_colours_ignore_the_palette (self : PatternScheduler)
    (pal : option Palette) (beat : Qc) :
  (forall span ctx haps, pattern self span ctx = Some haps ->
     Forall (fun h => literal_only (hap_value h)) haps) ->
  (forall l a, active_events self !! l = Some a ->
     literal_only (hap_value (active_hap a))) ->
  fst (compute_colors (set_palette self pal) beat) =
    fst (compute_colors self beat) /\
  active_events (snd (compute_colors (set_palette self pal) beat)) =
    active_events (snd (compute_colors self beat)).
Proof.
  intros Hpat Hact. unfold compute_colors.
  cbn [set_palette scheduler_cycle_beats pattern context].
  destruct (py_div beat _) as [cp |]; [| split; reflexivity].
  destruct (pattern self _ _) as [haps |] eqn:Hq; [| split; reflexivity].
  pose proof (Hpat _ _ _ Hq) as Hhaps.
  assert (Hframe : frame_passes (set_palette self pal) cp haps =
                   frame_passes self cp haps).
  { unfold frame_passes. cbn [set_palette active_events].
    rewrite (first_pass_literal self pal cp haps _ Hhaps).
    pose proof (first_pass_active self cp haps
                  (mkFrameState ∅ ∅ (active_events self)) literal_only
                  Hhaps Hact) as Hfs.
    destruct (first_pass self cp haps _) as [fs1 | fs1]; [| reflexivity].
    cbn [final_state] in Hfs.
    rewrite (second_pass_literal self pal cp _ _ Hfs). reflexivity. }
  rewrite Hframe. destruct (frame_passes self cp haps) as [written active].
  split; reflexivity.
Qed.

End PaletteIndependence.

Lemma light_literal (event_data : list EventData) (span : TimeSpan)
    (ctx : LightContext) (haps : list LightHap) :
  light event_data span ctx = Some haps ->
  Forall (fun h => literal_only (hap_value h)) haps.
Proof.
  unfold light. intros [= <-]. apply List.Forall_forall. intros h Hh.
  apply in_flat_map in Hh as (cycle & _ & Hh).
  apply in_flat_map in Hh as ([[[s e] lid] g] & _ & Hh). cbv zeta in Hh.
  destruct (TimeSpan_intersection _ span); [| destruct Hh].
  destruct Hh as [<- | []]. split; [reflexivity |]. discriminate.
Qed.

Lemma literal_colours_ignore_the_palette_witness :
  fst (compute_colors (H := lcg_runtime)
         (set_palette (scheduler_of (light notation_0_1)) (Some three_colors))
         1)
  = fst (compute_colors (H := lcg_runtime)
           (scheduler_of (light notation_0_1)) 1).
Proof.
  apply (literal_colours_ignore_the_palette (H := lcg_runtime)
           (scheduler_of (light notation_0_1)) (Some three_colors) 1).
  - intros span ctx haps. apply light_literal.
  - intros l a Hl. cbn in Hl. rewrite lookup_empty in Hl. discriminate.
Defined.

(** ** The events the scheduler tracks *)

Lemma lookup_fold_delete_in {A} (expired : list Z) (m : gmap Z A) (l : Z) :
  l ∈ expired -> fold_left (fun m l => delete l m) expired m !! l = None.
Proof.
  revert m. induction expired as [| e expired IH]; intros m Hin; cbn.
  - inversion Hin.
  - destruct (decide (l ∈ expired)) as [Hl | Hl]; [apply IH, Hl |].
    apply elem_of_cons in Hin as [-> | Hin]; [| contradiction].
    destruct (fold_left _ expired (delete e m) !! e) as [x |] eqn:Hx;
      [| reflexivity].
    apply lookup_fold_delete in Hx. rewrite lookup_delete_eq in Hx.
    discriminate.
Qed.

Lemma htp_write_keys_agree (l : Z) (c : HSV) (i : Qc) (cs cs' : gmap Z RGB)
    (ints ints' : gmap Z Qc) :
  keys_agree cs ints -> htp_write l c i cs ints = (cs', ints') ->
  keys_agree cs' ints' /\ is_Some (cs' !! l) /\
  (forall l', is_Some (cs !! l') -> is_Some (cs' !! l')).
Proof.
  intros Hk Hw.
  assert (Hl : is_Some (cs' !! l) /\ is_Some (ints' !! l)).
  { unfold htp_write in Hw. destruct (ints !! l) as [m |] eqn:Hm.
    - destruct (Qc_ltb m i); injection Hw as <- <-;
        rewrite ?lookup_insert_eq; eauto.
      split; [apply Hk; rewrite Hm; eauto | rewrite Hm; eauto].
    - injection Hw as <- <-. rewrite !lookup_insert_eq. eauto. }
  split; [| split; [apply Hl |]].
  - intros l'. destruct (decide (l' = l)) as [-> | Hne]; [tauto |].
    destruct (htp_write_other l l' c i _ _ _ _ Hw Hne) as [-> ->]. apply Hk.
  - intros l' Hs. destruct (decide (l' = l)) as [-> | Hne]; [apply Hl |].
    destruct (htp_write_other l l' c i _ _ _ _ Hw Hne) as [-> _]. exact Hs.
Qed.

Section Tracking.
Context `{PyRuntime}.

Lemma first_pass_light_tracks (self : PatternScheduler) (cp : Qc) (idx : Z)
    (hap : LightHap) (l : Z) (fs : FrameState) (active0 : gmap Z ActiveEvent) :
  let P := fun fs =>
    keys_agree (frame_colors fs) (frame_intensities fs) /\
    forall l, is_Some (frame_active fs !! l) ->
      is_Some (active0 !! l) \/ is_Some (frame_colors fs !! l) in
  P fs -> P (final_state (first_pass_light self cp idx hap l fs)).
Proof.
  intros P [Hk Ha]. unfold first_pass_light.
  destruct (_ || _); [split; assumption |].
  destruct (TimeSpan_contains _ cp); [| split; assumption].
  destruct (render_event _ _ _ _ _ _) as [[i c] |]; [| split; assumption].
  destruct (Qc_ltb i (frac 1 100)); [split; assumption |].
  destruct (htp_write l c i _ _) as [cs ints] eqn:Hw.
  destruct (htp_write_keys_agree _ _ _ _ _ _ _ Hk Hw) as (Hk' & Hl & Hmono).
  cbn [final_state]. split; [exact Hk' |].
  cbn [frame_active frame_colors]. intros l'.
  destruct (decide (l' = l)) as [Heq | Hne]; [subst l'; auto |].
  rewrite lookup_insert_ne by congruence. intros Hs.
  destruct (Ha l' Hs) as [H0 | Hc]; [left; exact H0 | right; apply Hmono, Hc].
Qed.

Lemma first_pass_tracks (self : PatternScheduler) (cp : Qc)
    (haps : list LightHap) (active0 : gmap Z ActiveEvent) :
  let fs := final_state (first_pass self cp haps (mkFrameState ∅ ∅ active0)) in
  keys_agree (frame_colors fs) (frame_intensities fs) /\
  forall l, is_Some (frame_active fs !! l) ->
    is_Some (active0 !! l) \/ is_Some (frame_colors fs !! l).
Proof.
  cbv zeta. unfold first_pass.
  apply (for_each_invariant
           (fun fs =>
              keys_agree (frame_colors fs) (frame_intensities fs) /\
              forall l, is_Some (frame_active fs !! l) ->
                is_Some (active0 !! l) \/ is_Some (frame_colors fs !! l))).
  - intros [idx hap] s _ Hs. unfold first_pass_hap.
    apply (for_each_invariant
             (fun fs =>
                keys_agree (frame_colors fs) (frame_intensities fs) /\
                forall l, is_Some (frame_active fs !! l) ->
                  is_Some (active0 !! l) \/ is_Some (frame_colors fs !! l)));
      [| exact Hs].
    intros l s' _ Hs'.
    apply (first_pass_light_tracks self cp idx hap l s' active0 Hs').
  - cbn. split; [| auto].
    intros l. rewrite !lookup_empty. split; intros [x Hx]; discriminate.
Qed.

Lemma second_pass_covers (self : PatternScheduler) (cp : Qc)
    (items : list (Z * ActiveEvent)) (cs cs' : gmap Z RGB)
    (ints ints' : gmap Z Qc) (expired expired' : list Z) :
  keys_agree cs ints ->
  for_each (second_pass_light self cp) items (cs, ints, expired)
    = Completed (cs', ints', expired') ->
  keys_agree cs' ints' /\
  (forall l, is_Some (cs !! l) -> is_Some (cs' !! l)) /\
  (forall l, l ∈ expired -> l ∈ expired') /\
  (forall l a, (l, a) ∈ items -> is_Some (cs' !! l) \/ l ∈ expired').
Proof.
  revert cs ints expired.
  induction items as [| [l a] items IH]; intros cs ints expired Hk Hrun.
  - cbn in Hrun. injection Hrun as <- <- <-.
    split; [exact Hk |]. split; [auto |]. split; [auto |].
    intros l a Hin. inversion Hin.
  - cbn [for_each] in Hrun.
    destruct (second_pass_light self cp (l, a) (cs, ints, expired))
      as [[[cs1 ints1] expired1] | ts] eqn:Hstep; [| discriminate].
    assert (Hone : keys_agree cs1 ints1 /\
                   (forall l', is_Some (cs !! l') -> is_Some (cs1 !! l')) /\
                   (forall l', l' ∈ expired -> l' ∈ expired1) /\
                   (is_Some (cs1 !! l) \/ l ∈ expired1)).
    { unfold second_pass_light in Hstep.
      destruct (cs !! l) as [x |] eqn:Hl.
      { injection Hstep as <- <- <-.
        split; [exact Hk |]. split; [auto |]. split; [auto |].
        left. rewrite Hl. eauto. }
      assert (Hexp : forall cs2 ints2 expired2,
                Completed (cs, ints, expired ++ [l])
                  = Completed (cs2, ints2, expired2) ->
                keys_agree cs2 ints2 /\
                (forall l', is_Some (cs !! l') -> is_Some (cs2 !! l')) /\
                (forall l', l' ∈ expired -> l' ∈ expired2) /\
                (is_Some (cs2 !! l) \/ l ∈ expired2)).
      { intros cs2 ints2 expired2 [= <- <- <-].
        split; [exact Hk |]. split; [auto |]. split.
        - intros l' Hl'. apply elem_of_app. left. exact Hl'.
        - right. apply elem_of_app. right. left. }
      destruct (envelope _) as [env |]; [| apply Hexp, Hstep].
      destruct (_ && _); [| apply Hexp, Hstep].
      destruct (render_event _ _ _ _ _ _) as [[i c] |]; [| discriminate].
      destruct (Qc_ltb i (frac 1 100)); [apply Hexp, Hstep |].
      destruct (htp_write l c i cs ints) as [cs2 ints2] eqn:Hw.
      injection Hstep as <- <- <-.
      destruct (htp_write_keys_agree _ _ _ _ _ _ _ Hk Hw) as (Hk' & Hl' & Hm).
      split; [exact Hk' |]. split; [exact Hm |]. split; [auto |].
      left. exact Hl'. }
    destruct Hone as (Hk1 & Hm1 & He1 & Hl1).
    destruct (IH cs1 ints1 expired1 Hk1 Hrun) as (Hk2 & Hm2 & He2 & Hall).
    split; [exact Hk2 |]. split; [auto |]. split; [auto |].
    intros l' a' Hin. apply elem_of_cons in Hin as [[= -> ->] | Hin].
    + destruct Hl1 as [Hc | He]; [left; apply Hm2, Hc | right; apply He2, He].
    + eapply Hall, Hin.
Qed.

(** X26.  The scheduler tracks only what it shows.  After a frame whose two
    passes complete, every light whose event is still tracked was given a
    colour by that frame, from an event of the query or from the tail of
    its tracked envelope: a tracked event that gives its light no colour
    (no envelope, envelope over, or intensity below 0.01) is dropped in
    that same frame. *)
Theorem tracked_lights_are_lit (self : PatternScheduler) (cp : Qc)
    (haps : list LightHap) (written : gmap Z RGB)
    (active : gmap Z ActiveEvent) (l : Z) :
  frame_passes self cp haps = (Some written, active) ->
  is_Some (active !! l) -> is_Some (written !! l).
Proof.
  unfold frame_passes. intros Hframe [a Ha].
  pose proof (first_pass_tracks self cp haps (active_events self))
    as [Hk Htr].
  destruct (first_pass self cp haps _) as [fs1 | fs1]; [| discriminate].
  cbn [final_state] in Hk, Htr.
  destruct (second_pass self cp (frame_active fs1) _)
    as [[[cs ints] expired] | ts] eqn:H2; [| discriminate].
  injection Hframe as <- <-.
  unfold second_pass in H2.
  destruct (second_pass_covers _ _ _ _ _ _ _ _ _ Hk H2)
    as (_ & _ & _ & Hall).
  pose proof (lookup_fold_delete _ _ _ _ Ha) as Ha1.
  destruct (Hall l a (proj2 (elem_of_map_to_list _ _ _) Ha1)) as [Hc | He];
    [exact Hc |].
  rewrite (lookup_fold_delete_in _ _ _ He) in Ha. discriminate.
Qed.

End Tracking.

Lemma tracked_lights_are_lit_witness :
  let self := scheduler_of (light notation_0) in
  let hap :=
    mkLightHap (Some (mkTimeSpan 0 1)) (mkTimeSpan 0 1)
      (LightValue_new (Some 0%Z) None) in
  exists written active,
    frame_passes (H := lcg_runtime) self (frac 1 2) [hap]
      = (Some written, active) /\
    is_Some (active !! 0%Z) /\ is_Some (written !! 0%Z).
Proof.
  cbv zeta.
  destruct (frame_passes (H := lcg_runtime) (scheduler_of (light notation_0))
              (frac 1 2)
              [mkLightHap (Some (mkTimeSpan 0 1)) (mkTimeSpan 0 1)
                 (LightValue_new (Some 0%Z) None)])
    as [[written |] active] eqn:Hframe; [| vm_compute in Hframe; discriminate].
  assert (Ha : is_Some (active !! 0%Z)).
  { vm_compute in Hframe. injection Hframe as _ <-. vm_compute. eauto. }
  exists written, active. split; [reflexivity |]. split; [exact Ha |].
  exact (tracked_lights_are_lit (H := lcg_runtime) _ _ _ _ _ _ Hframe Ha).
Defined.

(** ** Colours sent to the lights *)

Lemma py_int_nonneg (x : Qc) : 0 <= x -> (0 <= py_int x)%Z.
Proof.
  intros Hx. change 0%Z with (py_int 0). apply py_int_mono; [apply Qcle_refl |].
  exact Hx.
Qed.

(** X27.  [RGB.from_hsv] shows the intensity as brightness.  For a
    saturation in [[0, 1]] and a value [v >= 0], whatever the hue, no
    channel is negative and the brightest channel is [int(v * 255)], so for
    [v <= 1] every channel is in [0 .. 255]; with saturation 0 the three
    channels are equal. *)
Theorem rgb_brightness_is_value (h s v : Qc) :
  0 <= s -> s <= 1 -> 0 <= v ->
  let c := RGB_from_hsv h s v in
  RGB_max c = py_int (v * of_Z 255) /\
  (0 <= rgb_r c /\ 0 <= rgb_g c /\ 0 <= rgb_b c)%Z /\
  (v <= 1 -> (rgb_r c <= 255 /\ rgb_g c <= 255 /\ rgb_b c <= 255)%Z) /\
  (s = 0 -> rgb_r c = rgb_g c /\ rgb_g c = rgb_b c).
Proof.
  intros Hs0 Hs1 Hv. cbv zeta.
  pose proof (RGB_from_hsv_brightest h s v Hs0 Hs1 Hv) as Hmax.
  split; [exact Hmax |].
  assert (Hpos : (0 <= rgb_r (RGB_from_hsv h s v) /\
                  0 <= rgb_g (RGB_from_hsv h s v) /\
                  0 <= rgb_b (RGB_from_hsv h s v))%Z).
  { unfold RGB_from_hsv.
    pose proof (hsv_to_rgb_bounds (py_mod1 h) s v
                  (proj1 (py_mod1_range h)) Hs0 Hs1 Hv) as Hb.
    destruct (hsv_to_rgb (py_mod1 h) s v) as [[r g] b].
    destruct Hb as ((Hr & _) & (Hg & _) & (Hb & _) & _).
    cbn [rgb_r rgb_g rgb_b].
    assert (Hscale : forall x : Qc, 0 <= x -> 0 <= x * of_Z 255).
    { clear. intros x. qc2q. change (inject_Z 255) with 255%Q. lra. }
    repeat split; apply py_int_nonneg, Hscale; assumption. }
  split; [exact Hpos |]. split.
  - intros Hv1.
    assert (Htop : (py_int (v * of_Z 255) <= 255)%Z).
    { assert (H1 : 0 <= v * of_Z 255).
      { revert Hv. clear. qc2q. change (inject_Z 255) with 255%Q. lra. }
      assert (H2 : v * of_Z 255 <= of_Z 255).
      { revert Hv1. clear. qc2q. change (inject_Z 255) with 255%Q. lra. }
      pose proof (py_int_mono _ _ H1 H2) as Hm.
      rewrite py_int_of_Z in Hm. exact Hm. }
    unfold RGB_max in Hmax. lia.
  - intros ->. unfold RGB_from_hsv, hsv_to_rgb.
    rewrite bool_decide_eq_true_2 by reflexivity. cbn. split; reflexivity.
Qed.

Lemma rgb_brightness_is_value_witness :
  RGB_max (RGB_from_hsv (frac 1 3) (frac 1 2) (frac 4 5)) = 204%Z.
Proof.
  destruct (rgb_brightness_is_value (frac 1 3) (frac 1 2) (frac 4 5))
    as [Hmax _]; try qc_eval.
  rewrite Hmax. vm_compute. reflexivity.
Defined.
(** ** The mini notation *)

Lemma chained_app (s m e : Qc) (l1 l2 : list ParsedEvent) :
  chained s m l1 -> chained m e l2 -> chained s e (l1 ++ l2).
Proof.
  revert s. induction l1 as [|ev l1 IH]; intros s H1 H2; cbn in *.
  - subst. exact H2.
  - destruct H1 as [Hs H1]. split; [exact Hs | apply IH; assumption].
Qed.

Lemma chained_sub_events (a sub : Qc) (lid : option Z) (grp : option string)
    (r : bool) (n m : nat) :
  chained (a + sub * of_Z (Z.of_nat m)) (a + sub * of_Z (Z.of_nat (m + n)))
    (map (fun i =>
            let sub_start := a + sub * of_Z i in
            mkParsedEvent sub_start (sub_start + sub) lid grp r)
       (map Z.of_nat (seq m n))).
Proof.
  revert m. induction n as [|n IH]; intros m; cbn.
  - rewrite Nat.add_0_r. reflexivity.
  - split; [reflexivity |].
    replace (a + sub * of_Z (Z.of_nat m) + sub)
      with (a + sub * of_Z (Z.of_nat (S m))).
    + replace (m + S n)%nat with (S m + n)%nat by lia. apply IH.
    + rewrite Nat2Z.inj_succ. unfold Z.succ. rewrite of_Z_succ. ring.
Qed.

Lemma py_range_of_nat (n : Z) :
  py_range 0 n = map Z.of_nat (seq 0 (Z.to_nat n)).
Proof.
  unfold py_range. rewrite Z.sub_0_r. apply map_ext. intros i. lia.
Qed.

Lemma py_sum_from (l : list Z) (a : Z) :
  fold_left Z.add l a = (a + py_sum l)%Z.
Proof.
  unfold py_sum. revert a. induction l as [|x l IH]; intros a; cbn.
  - lia.
  - rewrite (IH (a + x)%Z), (IH (0 + x)%Z). lia.
Qed.

Lemma py_sum_cons (x : Z) (l : list Z) : py_sum (x :: l) = (x + py_sum l)%Z.
Proof. unfold py_sum at 1. cbn. apply py_sum_from. Qed.

Lemma split_loop_nonempty (tokens current : list string)
    (elements : list (list string)) :
  Forall (fun el => el <> []) elements ->
  Forall (fun el => el <> []) (split_loop tokens current elements).
Proof.
  revert current elements.
  induction tokens as [|token rest IH]; intros current elements Hel; cbn.
  - destruct current; [exact Hel |].
    apply Forall_app. split; [exact Hel |]. constructor; [discriminate | constructor].
  - destruct (bool_decide (token = " ")).
    + destruct current; apply IH; [exact Hel |].
      apply Forall_app. split; [exact Hel |].
      constructor; [discriminate | constructor].
    + apply IH, Hel.
Qed.

Lemma split_by_space_nonempty (tokens : list string) :
  Forall (fun el => el <> []) (split_by_space tokens).
Proof. apply split_loop_nonempty. constructor. Qed.

Lemma of_Z_div_le (a b n : Z) :
  (0 < n)%Z -> (a <= b)%Z -> of_Z a / of_Z n <= of_Z b / of_Z n.
Proof.
  intros Hn Hab. qc2q. apply Qmult_le_compat_r.
  - rewrite <- Zle_Qle. exact Hab.
  - apply Qlt_le_weak, Qinv_lt_0_compat.
    change 0%Q with (inject_Z 0). rewrite <- Zlt_Qlt. exact Hn.
Qed.

Lemma of_Z_div_lt (a b n : Z) :
  (0 < n)%Z -> (a < b)%Z -> of_Z a / of_Z n < of_Z b / of_Z n.
Proof.
  intros Hn Hab. qc2q. apply Qmult_lt_compat_r.
  - apply Qinv_lt_0_compat.
    change 0%Q with (inject_Z 0). rewrite <- Zlt_Qlt. exact Hn.
  - rewrite <- Zlt_Qlt. exact Hab.
Qed.

Lemma drop_while_length {A} (f : A -> bool) (l : list A) :
  (length (drop_while f l) <= length l)%nat.
Proof.
  induction l as [|x l IH]; cbn; [lia |]. destruct (f x); cbn; lia.
Qed.

Section ParserFacts.
Context `{PyText}.

(** The loop of [tokenize] never stops for lack of turns: with as many
    turns as characters, or more, it reads the whole text. *)
Lemma tokenize_loop_fuel (fuel1 fuel2 : nat) (s : list Ascii.ascii)
    (tokens : list string) :
  (length s <= fuel1)%nat -> (length s <= fuel2)%nat ->
  tokenize_loop fuel1 s tokens = tokenize_loop fuel2 s tokens.
Proof.
  revert fuel2 s tokens.
  induction fuel1 as [|f1 IH]; intros fuel2 s tokens H1 H2.
  - destruct s; [| cbn in H1; lia]. destruct fuel2; reflexivity.
  - destruct s as [|c rest]; [destruct fuel2; reflexivity |].
    destruct fuel2 as [|f2]; [cbn in H2; lia |].
    cbn [tokenize_loop]. cbv zeta. cbn [length] in H1, H2.
    pose proof (drop_while_length is_space rest) as Hsp.
    destruct (is_space c); [apply IH; lia |].
    destruct (bool_decide (c = ch_tilde)); [apply IH; lia |].
    destruct ((bool_decide (c = ch_star) || bool_decide (c = ch_slash))
              && negb (bool_decide (rest = []))).
    { destruct (take_while _ rest); apply IH; rewrite ?length_drop; lia. }
    destruct (is_digit c); [apply IH; rewrite ?length_drop; lia |].
    destruct (is_alpha c || bool_decide (c = ch_underscore));
      apply IH; rewrite ?length_drop; lia.
Qed.

Lemma parse_element_chained (element : list string) (a b : Qc)
    (events : list ParsedEvent) :
  element <> [] -> parse_element element a b = Some events ->
  chained a b events /\ events <> [].
Proof.
  intros Hne Hp. destruct element as [|value_token more]; [congruence |].
  unfold parse_element in Hp.
  destruct (if bool_decide (value_token = "~") then Some (None, None)
            else if str_isdigit value_token
                 then n ← str_int value_token; Some (Some n, None)
                 else Some (None, Some (str_lower value_token)))
    as [target|] eqn:Ht; rewrite ?Ht in Hp; cbn in Hp; [| discriminate].
  assert (Hsingle : forall evs,
            Some [mkParsedEvent a b (fst target) (snd target)
                    (bool_decide (value_token = "~"))] = Some evs ->
            chained a b evs /\ evs <> []).
  { intros evs [= <-]. cbn. auto. }
  destruct more as [|modifier more]; [auto |].
  destruct (starts_with_star modifier); [| auto].
  destruct (repeat_count_of (str_tail modifier)) as [rc|]; cbn in Hp;
    [| discriminate].
  destruct (0 <? rc)%Z eqn:Hrc; [| auto].
  apply Z.ltb_lt in Hrc. injection Hp as <-.
  rewrite py_range_of_nat. split.
  - pose proof (chained_sub_events a ((b - a) / of_Z rc) (fst target)
                  (snd target) (bool_decide (value_token = "~"))
                  (Z.to_nat rc) 0) as Hc.
    cbn [Nat.add] in Hc. change (Z.of_nat 0) with 0%Z in Hc.
    replace (a + (b - a) / of_Z rc * of_Z 0) with a in Hc
      by (change (of_Z 0) with 0; ring).
    replace (a + (b - a) / of_Z rc * of_Z (Z.of_nat (Z.to_nat rc))) with b
      in Hc; [exact Hc |].
    rewrite Z2Nat.id by lia. field. apply of_Z_neq_0. lia.
  - destruct (Z.to_nat rc) eqn:Hn; [lia | discriminate].
Qed.

Lemma place_elements_chained (s d : Qc) (items : list (list string * Z)) :
  forall (cur : Z) (events : list ParsedEvent),
  Forall (fun it => fst it <> []) items ->
  place_elements s d cur items = Some events ->
  chained (s + d * of_Z cur) (s + d * of_Z (cur + py_sum (map snd items)))
    events /\
  (items <> [] -> events <> []).
Proof.
  induction items as [|[element slots] rest IH]; intros cur events Hne Hp.
  - injection Hp as <-. cbn. rewrite Z.add_0_r. auto.
  - cbn [place_elements] in Hp.
    destruct (parse_element element _ _) as [evs|] eqn:He; cbn in Hp;
      [| discriminate].
    destruct (place_elements s d (cur + slots) rest) as [more|] eqn:Hm;
      cbn in Hp; [| discriminate].
    injection Hp as <-.
    inversion Hne as [|? ? Hel Hrest]; subst. cbn in Hel.
    destruct (parse_element_chained _ _ _ _ Hel He) as [Hc Hn].
    destruct (IH _ _ Hrest Hm) as [Hc' _].
    split.
    + apply chained_app with (s + d * of_Z (cur + slots)).
      * replace (s + d * of_Z (cur + slots))
          with (s + d * of_Z cur + d * of_Z slots)
          by (rewrite of_Z_add; ring).
        exact Hc.
      * cbn [map snd]. rewrite py_sum_cons.
        replace (cur + (slots + py_sum (map snd rest)))%Z
          with (cur + slots + py_sum (map snd rest))%Z by lia.
        exact Hc'.
    + intros _ Happ. apply app_eq_nil in Happ as [-> _]. congruence.
Qed.

Lemma zip_nonempty_fst (elements : list (list string)) (slots : list Z) :
  Forall (fun el => el <> []) elements ->
  Forall (fun it : list string * Z => fst it <> []) (zip elements slots).
Proof.
  revert slots. induction elements as [|el rest IH]; intros slots Hne; cbn.
  - constructor.
  - destruct slots as [|x slots]; [constructor |].
    inversion Hne as [|? ? Hel Hrest]; subst.
    constructor; [exact Hel | apply IH, Hrest].
Qed.

Lemma parse_sequence_chained (tokens : list string) (s e : Qc)
    (events : list ParsedEvent) :
  parse_sequence tokens s e = Some events -> events <> [] ->
  chained s e events.
Proof.
  unfold parse_sequence. intros Hp Hne.
  pose proof (split_by_space_nonempty tokens) as Hel.
  destruct (split_by_space tokens) as [|el0 els] eqn:Hsplit;
    [congruence |].
  destruct (mapM slots_of (el0 :: els)) as [element_slots|] eqn:Hslots;
    cbn in Hp; [| discriminate].
  unfold py_div in Hp.
  destruct (bool_decide (of_Z (py_sum element_slots) = 0)) eqn:Hz;
    cbn in Hp; [discriminate |].
  apply bool_decide_eq_false in Hz.
  apply length_mapM in Hslots.
  destruct (place_elements_chained _ _ _ _ _
              (zip_nonempty_fst _ element_slots Hel) Hp) as [Hc _].
  rewrite snd_zip in Hc by lia.
  replace (s + (e - s) / of_Z (py_sum element_slots) * of_Z 0) with s in Hc
    by (change (of_Z 0) with 0; ring).
  replace (s + (e - s) / of_Z (py_sum element_slots)
               * of_Z (0 + py_sum element_slots)) with e in Hc;
    [exact Hc |].
  rewrite Z.add_0_l. field. exact Hz.
Qed.

Lemma parse_element_raises (element : list string) (a b : Qc) :
  parse_element element a b = None <-> element_raises element = true.
Proof.
  destruct element as [|value_token more]; cbn; [split; discriminate |].
  destruct (bool_decide (value_token = "~")); cbn.
  - destruct more as [|modifier more]; cbn; [split; discriminate |].
    destruct (starts_with_star modifier); cbn; [| split; discriminate].
    destruct (repeat_count_of (str_tail modifier)) as [rc|]; cbn;
      [| split; reflexivity].
    destruct (0 <? rc)%Z; split; discriminate.
  - destruct (str_isdigit value_token); cbn.
    + destruct (str_int value_token) as [n|]; cbn; [| split; reflexivity].
      destruct more as [|modifier more]; cbn; [split; discriminate |].
      destruct (starts_with_star modifier); cbn; [| split; discriminate].
      destruct (repeat_count_of (str_tail modifier)) as [rc|]; cbn;
        [| split; reflexivity].
      destruct (0 <? rc)%Z; split; discriminate.
    + destruct more as [|modifier more]; cbn; [split; discriminate |].
      destruct (starts_with_star modifier); cbn; [| split; discriminate].
      destruct (repeat_count_of (str_tail modifier)) as [rc|]; cbn;
        [| split; reflexivity].
      destruct (0 <? rc)%Z; split; discriminate.
Qed.

Lemma place_elements_raises (s d : Qc) (items : list (list string * Z)) :
  forall cur : Z,
  place_elements s d cur items = None <->
  Exists (fun it => element_raises (fst it) = true) items.
Proof.
  induction items as [|[element slots] rest IH]; intros cur;
    cbn [place_elements].
  - split; [discriminate | intros Hex; inversion Hex].
  - destruct (parse_element element _ _) as [evs|] eqn:He; cbn.
    + assert (Hok : element_raises element <> true).
      { intros Hr.
        rewrite (proj2 (parse_element_raises element _ _) Hr) in He.
        discriminate. }
      destruct (place_elements s d (cur + slots) rest) as [more|] eqn:Hm;
        cbn.
      * split; [discriminate |]. intros Hex.
        inversion Hex as [? ? Hr | ? ? Hr]; subst; [contradiction |].
        apply (proj2 (IH (cur + slots)%Z)) in Hr. congruence.
      * split; [| reflexivity]. intros _. apply Exists_cons_tl.
        apply (proj1 (IH (cur + slots)%Z)). exact Hm.
    + split; [| reflexivity]. intros _. apply Exists_cons_hd.
      exact (proj1 (parse_element_raises _ _ _) He).
Qed.

Lemma slots_of_raises (element : list string) :
  slots_of element = None -> element_raises element = true.
Proof.
  destruct element as [|value_token [|modifier more]]; cbn;
    [discriminate | discriminate |].
  unfold repeat_count_of.
  destruct (starts_with_star modifier); [| discriminate].
  destruct (str_int (str_tail modifier)); [discriminate |].
  destruct (str_float_int (str_tail modifier)); try discriminate.
  intros _. apply orb_true_r.
Qed.

Lemma Exists_zip_fst (elements : list (list string)) (slots : list Z) :
  length elements = length slots ->
  Exists (fun it : list string * Z => element_raises (fst it) = true)
    (zip elements slots) <->
  Exists (fun el => element_raises el = true) elements.
Proof.
  revert slots. induction elements as [|el rest IH]; intros slots Hlen.
  - cbn. split; intros Hex; inversion Hex.
  - destruct slots as [|x slots]; [discriminate |].
    cbn [zip zip_with]. rewrite !Exists_cons. cbn [fst].
    rewrite IH by (cbn in Hlen; lia). reflexivity.
Qed.

(** The slots of a plain element and the events placed for plain
    elements. *)
Lemma plain_slots (elements : list (list string)) :
  Forall plain_element elements ->
  mapM slots_of elements = Some (map (fun _ => 1%Z) elements).
Proof.
  intros Hplain. apply mapM_Some_2.
  induction Hplain as [|el rest Hel _ IH]; cbn; constructor; [| exact IH].
  destruct el as [|v [|m more]]; try discriminate. reflexivity.
Qed.

Lemma py_sum_ones {A} (l : list A) :
  py_sum (map (fun _ => 1%Z) l) = Z.of_nat (length l).
Proof.
  induction l as [|x l IH]; [reflexivity |].
  cbn [map length]. rewrite py_sum_cons, IH. lia.
Qed.

Lemma place_plain_elements (s d : Qc) (elements : list (list string)) :
  forall cur : Z,
  Forall plain_element elements ->
  Forall (fun el => element_raises el = false) elements ->
  exists events,
    place_elements s d cur (zip elements (map (fun _ => 1%Z) elements))
      = Some events /\
    Forall2
      (fun el ev => parse_element el (pe_start ev) (pe_end ev) = Some [ev])
      elements events /\
    forall (i : nat) ev, events !! i = Some ev ->
      pe_start ev = s + d * of_Z (cur + Z.of_nat i) /\
      pe_end ev = s + d * of_Z (cur + Z.of_nat i + 1).
Proof.
  induction elements as [|el rest IH]; intros cur Hplain Hok.
  - exists []. cbn. split; [reflexivity |]. split; [constructor |].
    intros i ev Hi. destruct i; discriminate.
  - inversion Hplain as [|? ? Hel Hrest]; subst.
    inversion Hok as [|? ? Hok1 Hokr]; subst.
    destruct (IH (cur + 1)%Z Hrest Hokr) as (more & Hm & Hall & Htimes).
    destruct el as [|value_token [|m more']]; try discriminate.
    cbn [map zip zip_with place_elements].
    destruct (parse_element [value_token] (s + d * of_Z cur)
                (s + d * of_Z cur + d * of_Z 1)) as [evs|] eqn:He.
    2: { apply (proj1 (parse_element_raises _ _ _)) in He. congruence. }
    rewrite Hm. cbn.
    assert (Hone : exists ev,
              evs = [ev] /\ pe_start ev = s + d * of_Z cur /\
              pe_end ev = s + d * of_Z cur + d * of_Z 1).
    { unfold parse_element in He.
      destruct (if bool_decide (value_token = "~") then Some (None, None)
                else if str_isdigit value_token
                     then n ← str_int value_token; Some (Some n, None)
                     else Some (None, Some (str_lower value_token)))
        as [target|]; cbn in He; [| discriminate].
      injection He as <-. eexists. split; [reflexivity |]. cbn. auto. }
    destruct Hone as (ev & -> & Hs & He').
    exists (ev :: more). split; [reflexivity |]. split.
    + constructor; [| exact Hall]. rewrite Hs, He'. exact He.
    + intros i ev' Hi. destruct i as [|i]; cbn in Hi.
      * injection Hi as <-. rewrite Hs, He'.
        change (Z.of_nat 0) with 0%Z. rewrite Z.add_0_r, of_Z_succ.
        change (of_Z 1) with 1. split; ring.
      * destruct (Htimes i ev' Hi) as [H1 H2]. rewrite H1, H2.
        split; f_equal; f_equal; f_equal; lia.
Qed.

(** X28.  The events of a notation tile the cycle.  When [parse_mini]
    returns events, the first starts at 0, every event ends where the next
    one starts, and the last ends at 1, whatever the repeat counts: rests
    and repeated elements take their share of the cycle, and nothing
    overlaps or is left out. *)
Theorem notation_tiles_the_cycle (notation : string)
    (events : list ParsedEvent) :
  parse_mini notation = Some events -> events <> [] ->
  chained 0 1 events.
Proof.
  unfold parse_mini. intros Hp Hne.
  destruct (tokenize notation) as [|t ts]; [congruence |].
  exact (parse_sequence_chained _ _ _ _ Hp Hne).
Qed.

(** X29.  A notation without modifiers divides the cycle evenly.  When
    every element of the notation is a single value that [int] accepts if
    it is made of digits, [parse_mini] returns one event per element, in
    order; event [i] of [n] is what [parse_element] makes of element [i]
    over [[i / n, (i + 1) / n]], and the data that [light] is built from
    (the events that are no rests) are slots of the cycle that are not
    empty. *)
Theorem plain_notation_divides_evenly (notation : string) :
  let elements := split_by_space (tokenize notation) in
  let n := Z.of_nat (length elements) in
  Forall plain_element elements ->
  Forall (fun el => element_raises el = false) elements ->
  exists events data,
    parse_mini notation = Some events /\
    Forall2
      (fun el ev => parse_element el (pe_start ev) (pe_end ev) = Some [ev])
      elements events /\
    (forall (i : nat) ev, events !! i = Some ev ->
       pe_start ev = of_Z (Z.of_nat i) / of_Z n /\
       pe_end ev = of_Z (Z.of_nat i + 1) / of_Z n) /\
    parse_to_query_data notation = Some data /\
    event_data_wf data.
Proof.
  intros elements n Hplain Hok.
  assert (Hev : exists events,
            parse_mini notation = Some events /\
            Forall2
              (fun el ev =>
                 parse_element el (pe_start ev) (pe_end ev) = Some [ev])
              elements events /\
            (forall (i : nat) ev, events !! i = Some ev ->
               pe_start ev = of_Z (Z.of_nat i) / of_Z n /\
               pe_end ev = of_Z (Z.of_nat i + 1) / of_Z n)).
  { unfold parse_mini, parse_sequence. subst n elements.
    destruct (split_by_space (tokenize notation)) as [|el0 els] eqn:Hsplit.
    - exists []. split.
      + destruct (tokenize notation); [reflexivity |].
        rewrite Hsplit. reflexivity.
      + split; [constructor |]. intros i ev Hi. destruct i; discriminate.
    - destruct (tokenize notation) as [|t ts] eqn:Htok;
        [discriminate |].
      rewrite Hsplit, (plain_slots _ Hplain). cbn [mbind option_bind].
      rewrite py_sum_ones. unfold py_div.
      assert (Hn : of_Z (Z.of_nat (length (el0 :: els))) <> 0)
        by (apply of_Z_neq_0; cbn [length]; lia).
      rewrite bool_decide_eq_false_2 by exact Hn. cbn [mbind option_bind].
      destruct (place_plain_elements 0
                  ((1 - 0) / of_Z (Z.of_nat (length (el0 :: els))))
                  (el0 :: els) 0 Hplain Hok) as (events & Hp & Hall & Ht).
      exists events. split; [exact Hp |]. split; [exact Hall |].
      intros i ev Hi. destruct (Ht i ev Hi) as [H1 H2].
      rewrite H1, H2, !Z.add_0_l. split; field; exact Hn. }
  destruct Hev as (events & Hp & Hall & Ht).
  exists events. eexists. split; [exact Hp |]. split; [exact Hall |].
  split; [exact Ht |]. unfold parse_to_query_data. rewrite Hp.
  cbn [mbind option_bind]. split; [reflexivity |].
  unfold event_data_wf. apply Forall_forall. intros x Hx.
  apply in_map_iff in Hx as (ev & <- & Hev).
  apply list_elem_of_In, list_elem_of_filter in Hev as [_ Hev].
  apply list_elem_of_lookup in Hev as [i Hi].
  destruct (Ht i ev Hi) as [H1 H2].
  assert (Hlen : (i < length elements)%nat).
  { apply Forall2_length in Hall. rewrite Hall.
    eapply lookup_lt_Some, Hi. }
  assert (Hn : (0 < n)%Z) by (subst n; lia).
  rewrite H1, H2. repeat split.
  - replace 0 with (of_Z 0 / of_Z n)
      by (change (of_Z 0) with 0; unfold Qcdiv; ring).
    apply of_Z_div_le; lia.
  - apply of_Z_div_lt; lia.
  - replace 1 with (of_Z n / of_Z n)
      by (field; apply of_Z_neq_0; lia).
    apply of_Z_div_le; subst n; lia.
Qed.

(** X30.  When a notation is rejected.  [parse_sequence] raises exactly
    when one of its elements makes [parse_element] raise (a value of digits
    that [int] rejects, or a repeat count after [*] that neither [int] nor
    [float] accepts, although the count of slots falls back to 1 for such
    a count), or when the slots of the elements add up to zero, which
    divides by zero. *)
Theorem parse_sequence_raises_iff (tokens : list string) (s e : Qc) :
  let elements := split_by_space tokens in
  parse_sequence tokens s e = None <->
  Exists (fun el => element_raises el = true) elements \/
  (elements <> [] /\
   exists slots, mapM slots_of elements = Some slots /\ py_sum slots = 0%Z).
Proof.
  intros elements. unfold parse_sequence. fold elements.
  destruct elements as [|el0 els] eqn:Hel.
  - split; [discriminate |].
    intros [Hex | [Hne _]]; [inversion Hex | congruence].
  - destruct (mapM slots_of (el0 :: els)) as [slots|] eqn:Hslots;
      cbn [mbind option_bind].
    + pose proof (length_mapM _ _ _ Hslots) as Hlen.
      unfold py_div.
      destruct (bool_decide (of_Z (py_sum slots) = 0)) eqn:Hz;
        cbn [mbind option_bind].
      * apply bool_decide_eq_true in Hz. split; [| reflexivity].
        intros _. right. split; [discriminate |]. exists slots.
        split; [reflexivity |].
        destruct (Z.eq_dec (py_sum slots) 0%Z) as [H0 | H0]; [exact H0 |].
        apply of_Z_neq_0 in H0. contradiction.
      * apply bool_decide_eq_false in Hz.
        rewrite place_elements_raises, (Exists_zip_fst _ _ Hlen).
        split; [auto |]. intros [Hex | (_ & slots' & [= <-] & H0)];
          [exact Hex |].
        rewrite H0 in Hz. contradiction Hz. reflexivity.
    + split; [| reflexivity]. intros _. left.
      apply mapM_None_1 in Hslots.
      eapply List.Exists_impl; [| exact Hslots].
      intros el. apply slots_of_raises.
Qed.

End ParserFacts.

Lemma notation_tiles_the_cycle_witness :
  exists events,
    @parse_mini ascii_text "all ~*3 7" = Some events /\ events <> [] /\
    chained 0 1 events.
Proof.
  destruct (@parse_mini ascii_text "all ~*3 7") as [events|] eqn:Hp.
  - assert (Hne : events <> [])
      by (intros ->; vm_compute in Hp; discriminate).
    exists events. split; [reflexivity |]. split; [exact Hne |].
    exact (@notation_tiles_the_cycle ascii_text _ _ Hp Hne).
  - vm_compute in Hp. discriminate.
Defined.

Lemma plain_notation_divides_evenly_witness :
  Forall plain_element (@split_by_space (@tokenize ascii_text "0 left ~ 3")) /\
  exists events data,
    @parse_mini ascii_text "0 left ~ 3" = Some events /\
    length events = 4%nat /\
    @parse_to_query_data ascii_text "0 left ~ 3" = Some data /\
    event_data_wf data.
Proof.
  assert (Hplain : Forall plain_element
                     (@split_by_space (@tokenize ascii_text "0 left ~ 3")))
    by (vm_compute; repeat constructor).
  assert (Hok : Forall (fun el => @element_raises ascii_text el = false)
                  (@split_by_space (@tokenize ascii_text "0 left ~ 3")))
    by (vm_compute; repeat constructor).
  split; [exact Hplain |].
  destruct (@plain_notation_divides_evenly ascii_text "0 left ~ 3" Hplain Hok)
    as (events & data & Hp & Hall & _ & Hd & Hwf).
  exists events, data. split; [exact Hp |]. split; [| split; assumption].
  apply Forall2_length in Hall. rewrite <- Hall. vm_compute. reflexivity.
Defined.
